(** * Free-IP-Webcam-Recorder: the frame pipeline of [live_stream_handler.py]

    A shallow embedding of class [VideoStreamCapture]: the bounded frame
    buffer ([collections.deque] with [maxlen]), the retrying fetch
    [_query_frame], the reader loop [_query_frames] run in its own thread, and
    the two consumers [record_live_stream_to_folder] and
    [show_live_stream_video].

    Methods are functions in a state-and-exception monad over [world]: the
    attributes of the instance together with the environment they talk to
    (the capture device, the key poll of OpenCV, the threads, and the trace of
    the calls made to collaborators).

    - Loops.  The loop of [_query_frame] is bounded and is a function.  The
      loops of [_query_frames], [record_live_stream_to_folder] and
      [show_live_stream_video] can run for ever: each is given as a step
      function over the points of the method where a turn can start, and a
      schedule (a list of thread names) interleaves the reader thread with
      the main thread.  In a turn a thread touches what the threads share
      at one point only: the reader thread tests [keep_querying] or appends
      to the buffer; the main thread takes a frame (an [append] cannot undo
      the test for emptiness that comes before [popleft]), or clears the
      flag, or starts the reader.  [deque.append] and [deque.popleft] are
      atomic in CPython, so interleaving turns gives the outcomes of
      interleaving statements.  Where the point at which the reader thread
      stands inside a fetch matters (what it still does once the flag has
      been cleared), [_query_frames_fine_step] gives the thread one statement
      per turn; each turn of [_query_frames_step] is a sequence of such turns
      (lemma [fine_turns_refine_reader_turn]).
    - Time.  Sleep lengths are rationals (the values of the Python floats;
      the code does no arithmetic on them).  Each thread has a clock that
      only its own calls of [time.sleep] move: a lower bound of the time that
      went by in the thread.
    - Collaborators.  [video_capture.read()] and [cv2.waitKey] take their
      answers from the environment; [time.sleep] and [deque(maxlen=...)]
      refuse a negative argument as Python does; the other calls
      ([Path.mkdir], [setup_logger], [logging], [cv2.imwrite], [cv2.imshow],
      [release]) are recorded in the trace and taken to succeed.  The name of
      an image file comes from the wall clock and is not modelled: a write is
      recorded with its folder and its frame.
    - The script and the logger.  The block under [if __name__ == '__main__']
      is a function of the namespace that [parse_args] returns, and
      [logging_util.setup_logger] is a function on the handlers of the root
      logger; the calls of [setup_logger] that a trace records can be replayed
      on a logger. *)

From Stdlib Require Import ZArith QArith List Ascii String Bool Lia Lqa.
Import ListNotations.

Set Implicit Arguments.

(** ** Exceptions *)

(** The Python exceptions that the modelled code can raise or let through. *)
Inductive exn : Type :=
| IOError (msg : string)
| AssertionError
| IndexError (msg : string)
| ValueError (msg : string)
| AttributeError (msg : string)
| SystemExit (code : Z).

(** The names of the two threads: the caller's thread, and the thread that
    [record_live_stream_to_folder] starts on [_query_frames]. *)
Inductive tid : Type := Main | Reader.

Definition tid_eqb (a b : tid) : bool :=
  match a, b with
  | Main, Main | Reader, Reader => true
  | _, _ => false
  end.

(** The messages handed to [logging.info] and [logging.error]. *)
Inductive message : Type :=
| MsgError (e : exn)
| MsgQueryingFinished
| MsgStartingCapture (url : string)
| MsgRecordingTo (folder : string)
| MsgRecordEvery (interval_in_seconds : Q)
| MsgIndefinitely
| MsgUntil (max_num_images : Z)
| MsgKillAnyTime
| MsgImagesSaved (num_images_saved : Z)
| MsgFolderContains (folder : string)
| MsgInTotal (num_images_saved : Z).

(** What a call gives: a value, or a raised exception. *)
Inductive result (A : Type) : Type :=
| Ok (a : A)
| Raise (e : exn).
Arguments Ok {A} a.
Arguments Raise {A} e.

Section Pipeline.

(** A frame is an opaque payload (an image array in the source). *)
Context {frame : Type}.

(** ** The bounded buffer: [collections.deque(maxlen=buffer_size)] *)

Record deque : Type := mkDeque {
  items : list frame;   (* left (oldest) to right (newest) *)
  maxlen : nat
}.

(** [deque(maxlen=n)] refuses a negative [maxlen]. *)
Definition deque_new (buffer_size : Z) : exn + deque :=
  if (buffer_size <? 0)%Z
  then inl (ValueError "maxlen must be non-negative"%string)
  else inr (mkDeque [] (Z.to_nat buffer_size)).

(** [d.append(x)]: the item goes to the right end, then a deque that has
    grown past [maxlen] drops its leftmost item. *)
Definition deque_append (x : frame) (d : deque) : deque :=
  let l := items d ++ [x] in
  mkDeque (if (maxlen d <? List.length l)%nat then tl l else l) (maxlen d).

(** [d.pop()]: removes and returns the rightmost item. *)
Definition deque_pop (d : deque) : exn + (frame * deque) :=
  match rev (items d) with
  | [] => inl (IndexError "pop from an empty deque"%string)
  | x :: r => inr (x, mkDeque (rev r) (maxlen d))
  end.

(** [d.popleft()]: removes and returns the leftmost item. *)
Definition deque_popleft (d : deque) : exn + (frame * deque) :=
  match items d with
  | [] => inl (IndexError "pop from an empty deque"%string)
  | x :: l => inr (x, mkDeque l (maxlen d))
  end.

(** Truth value of a deque: it is true when it holds an item. *)
Definition deque_bool (d : deque) : bool :=
  match items d with [] => false | _ :: _ => true end.

(** Pushing a whole list, oldest first. *)
Definition push_all (fs : list frame) (d : deque) : deque :=
  fold_left (fun acc f => deque_append f acc) fs d.

(** ** Calls made to collaborators *)

Inductive event : Type :=
| EvRead (r : option frame)               (* video_capture.read() and the frame it gave *)
| EvRelease                               (* video_capture.release() *)
| EvSleep (d : Q)                         (* time.sleep(d) *)
| EvLogInfo (m : message)
| EvLogError (m : message)
| EvMkdir (folder : string)               (* Path.mkdir(..., exist_ok=True) *)
| EvSetupLogger (folder : option string)  (* logging_util.setup_logger *)
| EvThreadStart                           (* reader_thread.start() *)
| EvImwrite (folder : string) (f : frame) (* cv2.imwrite of a file in [folder] *)
| EvImshow (f : frame)                    (* cv2.imshow('frame', f) *)
| EvWaitKey (k : Z).                      (* cv2.waitKey(1) and the code it gave *)

(** ** Where the reader thread stands in [_query_frames] *)

Inductive pstate : Type :=
| PIdle                 (* the thread has not been started *)
| PLoop                 (* at the test of [while self.keep_querying] *)
| PGot (f : frame)      (* a frame has been fetched and waits for [append] *)
| PDone                 (* the method has returned *)
| PRaised (e : exn).    (* the method was left by an exception *)

(** ** The instance and its environment *)

Record world : Type := mkWorld {
  (* attributes of the instance *)
  stream_url : string;
  max_sequential_fail_attempts : Z;
  frames : deque;
  micro_sleep_time : Q;
  keep_querying : bool;
  verbose : bool;
  target_folder_path : option string;   (* [None]: the attribute was never assigned *)
  (* the capture device behind [self.video_capture] *)
  feed : nat -> option frame;           (* what the i-th read of the open device delivers *)
  reads : nat;                          (* number of reads made so far *)
  releases : nat;                       (* number of calls of release() *)
  (* the key codes that cv2.waitKey delivers *)
  key_feed : nat -> Z;
  key_polls : nat;
  (* threads *)
  reader_thread : pstate;
  cur : tid;                            (* the thread that is running *)
  (* calls made so far, newest first, each with the thread that made it *)
  trace : list (tid * event)
}.

Definition set_frames (d : deque) (w : world) : world :=
  mkWorld (stream_url w) (max_sequential_fail_attempts w) d (micro_sleep_time w)
    (keep_querying w) (verbose w) (target_folder_path w) (feed w) (reads w)
    (releases w) (key_feed w) (key_polls w) (reader_thread w) (cur w) (trace w).

Definition set_keep_querying (b : bool) (w : world) : world :=
  mkWorld (stream_url w) (max_sequential_fail_attempts w) (frames w) (micro_sleep_time w)
    b (verbose w) (target_folder_path w) (feed w) (reads w)
    (releases w) (key_feed w) (key_polls w) (reader_thread w) (cur w) (trace w).

Definition set_reads (n : nat) (w : world) : world :=
  mkWorld (stream_url w) (max_sequential_fail_attempts w) (frames w) (micro_sleep_time w)
    (keep_querying w) (verbose w) (target_folder_path w) (feed w) n
    (releases w) (key_feed w) (key_polls w) (reader_thread w) (cur w) (trace w).

Definition set_releases (n : nat) (w : world) : world :=
  mkWorld (stream_url w) (max_sequential_fail_attempts w) (frames w) (micro_sleep_time w)
    (keep_querying w) (verbose w) (target_folder_path w) (feed w) (reads w)
    n (key_feed w) (key_polls w) (reader_thread w) (cur w) (trace w).

Definition set_key_polls (n : nat) (w : world) : world :=
  mkWorld (stream_url w) (max_sequential_fail_attempts w) (frames w) (micro_sleep_time w)
    (keep_querying w) (verbose w) (target_folder_path w) (feed w) (reads w)
    (releases w) (key_feed w) n (reader_thread w) (cur w) (trace w).

Definition set_reader_thread (p : pstate) (w : world) : world :=
  mkWorld (stream_url w) (max_sequential_fail_attempts w) (frames w) (micro_sleep_time w)
    (keep_querying w) (verbose w) (target_folder_path w) (feed w) (reads w)
    (releases w) (key_feed w) (key_polls w) p (cur w) (trace w).

Definition set_cur (t : tid) (w : world) : world :=
  mkWorld (stream_url w) (max_sequential_fail_attempts w) (frames w) (micro_sleep_time w)
    (keep_querying w) (verbose w) (target_folder_path w) (feed w) (reads w)
    (releases w) (key_feed w) (key_polls w) (reader_thread w) t (trace w).

Definition set_trace (tr : list (tid * event)) (w : world) : world :=
  mkWorld (stream_url w) (max_sequential_fail_attempts w) (frames w) (micro_sleep_time w)
    (keep_querying w) (verbose w) (target_folder_path w) (feed w) (reads w)
    (releases w) (key_feed w) (key_polls w) (reader_thread w) (cur w) tr.

(** ** The monad: state, and Python exceptions that keep the state *)

Definition M (A : Type) : Type := world -> result A * world.

Definition ret {A} (a : A) : M A := fun w => (Ok a, w).

Definition bind {A B} (m : M A) (k : A -> M B) : M B :=
  fun w =>
    match m w with
    | (Ok a, w') => k a w'
    | (Raise e, w') => (Raise e, w')
    end.

Definition raise {A} (e : exn) : M A := fun w => (Raise e, w).

(** [try m except e: h e] where [h] says which exceptions it takes. *)
Definition try_except {A} (m : M A) (h : exn -> option (M A)) : M A :=
  fun w =>
    match m w with
    | (Ok a, w') => (Ok a, w')
    | (Raise e, w') =>
        match h e with
        | Some k => k w'
        | None => (Raise e, w')
        end
    end.

Definition gets {A} (f : world -> A) : M A := fun w => (Ok (f w), w).
Definition modify (f : world -> world) : M unit := fun w => (Ok tt, f w).

Notation "x <- m ;; k" := (bind m (fun x => k))
  (at level 61, m at next level, right associativity).
Notation "m ;;; k" := (bind m (fun _ => k))
  (at level 61, right associativity).

(** ** Collaborators *)

Definition emit (e : event) : M unit :=
  modify (fun w => set_trace ((cur w, e) :: trace w) w).

(** [video_capture.read()]: the second component of the pair it returns.
    A released device delivers no frame. *)
Definition video_capture_read : M (option frame) :=
  rel <- gets releases ;;
  i <- gets reads ;;
  src <- gets feed ;;
  let r := if (rel =? 0)%nat then src i else None in
  modify (set_reads (S i)) ;;;
  emit (EvRead r) ;;;
  ret r.

Definition video_capture_release : M unit :=
  rel <- gets releases ;;
  modify (set_releases (S rel)) ;;;
  emit EvRelease.

(** [time.sleep(d)] refuses a negative length. *)
Definition time_sleep (d : Q) : M unit :=
  if Qle_bool 0 d then emit (EvSleep d)
  else raise (ValueError "sleep length must be non-negative"%string).

Definition cv2_waitKey : M Z :=
  i <- gets key_polls ;;
  ks <- gets key_feed ;;
  modify (set_key_polls (S i)) ;;;
  emit (EvWaitKey (ks i)) ;;;
  ret (ks i).

Definition logging_info (m : message) : M unit := emit (EvLogInfo m).
Definition logging_error (m : message) : M unit := emit (EvLogError m).
Definition sys_exit {A} (code : Z) : M A := raise (SystemExit code).

Definition no_attribute : string :=
  "'VideoStreamCapture' object has no attribute 'target_folder_path'"%string.

(** Reading [self.target_folder_path]. *)
Definition self_target_folder_path : M string :=
  o <- gets target_folder_path ;;
  match o with
  | Some p => ret p
  | None => raise (AttributeError no_attribute)
  end.

(** ** The constructor *)

(** Truth value of the [target_folder_path] argument ([None] when the
    command line gave none) and its comparison with the empty string. *)
Definition str_bool (s : option string) : bool :=
  match s with
  | None => false
  | Some EmptyString => false
  | Some (String _ _) => true
  end.

Definition str_is_empty (s : option string) : bool :=
  match s with
  | Some EmptyString => true
  | _ => false
  end.

(** [VideoStreamCapture.__init__].  [src] and [keys] are the device that
    [cv2.VideoCapture(stream_url)] opens and the keyboard; [default_folder]
    is the value of [os.path.join(os.getcwd(), 'capture_<now>')].  The
    assignment of [self.target_folder_path] sits inside the [if]. *)
Definition __init__ (src : nat -> option frame) (keys : nat -> Z) (default_folder : string)
    (stream_url : string) (target_folder_path : option string) (buffer_size : Z)
    (verbose : bool) (micro_sleep_time : Q) (max_sequential_fail_attempts : Z)
  : exn + world :=
  match deque_new buffer_size with
  | inl e => inl e
  | inr d =>
      inr (mkWorld stream_url max_sequential_fail_attempts d micro_sleep_time
             true verbose
             (if negb (str_bool target_folder_path) || str_is_empty target_folder_path
              then Some default_folder
              else None)
             src 0 0 keys 0 PIdle Main [])
  end.

(** ** [_query_frame] *)

Definition no_output : string :=
  "No output from the stream. Ran out of maximum number of attempts."%string.

(** The [while] loop of [_query_frame].  [fuel] bounds the number of
    iterations; [_query_frame] gives it [max_sequential_fail_attempts], which
    the loop cannot use up (lemma [_query_frame_loop_fuel]). *)
Fixpoint _query_frame_loop (fuel : nat) (num_failed_attempts : Z) : M frame :=
  max <- gets max_sequential_fail_attempts ;;
  if (num_failed_attempts <? max)%Z then
    match fuel with
    | O => raise (IOError no_output)
    | S fuel' =>
        frame <- video_capture_read ;;
        match frame with
        | None =>
            let num_failed_attempts := (num_failed_attempts + 1)%Z in
            mst <- gets micro_sleep_time ;;
            time_sleep mst ;;;
            _query_frame_loop fuel' num_failed_attempts
        | Some frame => ret frame
        end
    end
  else raise (IOError no_output).

Definition _query_frame : M frame :=
  max <- gets max_sequential_fail_attempts ;;
  _query_frame_loop (Z.to_nat max) 0.

(** ** [signal_stop_querying] and [get_frame_from_deque] *)

Definition signal_stop_querying : M unit :=
  modify (set_keep_querying false).

Definition get_frame_from_deque (pop_right : bool) : M (option frame) :=
  d <- gets frames ;;
  if deque_bool d then
    if pop_right then
      match deque_pop d with
      | inr (x, d') => modify (set_frames d') ;;; ret (Some x)
      | inl e => raise e
      end
    else
      match deque_popleft d with
      | inr (x, d') => modify (set_frames d') ;;; ret (Some x)
      | inl e => raise e
      end
  else ret None.

(** ** [_query_frames], one step of the reader thread at a time *)

(** [except (IOError, AssertionError) as err: logging.error(str(err)); sys.exit(1)] *)
Definition fetch_handler {A} (err : exn) : option (M A) :=
  match err with
  | IOError _ | AssertionError => Some (logging_error (MsgError err) ;;; sys_exit 1)
  | _ => None
  end.

(** The frame that [_query_frame] returns is never [None], so the [assert]
    that follows the call always passes. *)
Definition _query_frames_step : M unit :=
  p <- gets reader_thread ;;
  match p with
  | PLoop =>
      kq <- gets keep_querying ;;
      if kq then
        frame <- try_except _query_frame fetch_handler ;;
        modify (set_reader_thread (PGot frame))
      else
        logging_info MsgQueryingFinished ;;;
        video_capture_release ;;;
        modify (set_reader_thread PDone)
  | PGot frame =>
      d <- gets frames ;;
      modify (set_frames (deque_append frame d)) ;;;
      modify (set_reader_thread PLoop)
  | PIdle | PDone | PRaised _ => ret tt
  end.

(** ** [record_live_stream_to_folder], one step of the main thread at a time *)

Inductive rstate : Type :=
| RInit                           (* before the first statement *)
| RLoop (num_images_saved : Z)    (* at the test of the [while] *)
| RStop (num_images_saved : Z)    (* after the loop *)
| RDone                           (* the method has returned *)
| RRaised (e : exn).              (* the method was left by an exception *)

(** [cv2.waitKey(1) & 0xFF == ord('q')] *)
Definition is_quit (k : Z) : bool := (Z.land k 255 =? 113)%Z.

Definition record_live_stream_to_folder_step
    (interval_in_seconds : Q) (max_num_images : Z) (pc : rstate) : M rstate :=
  match pc with
  | RInit =>
      folder <- self_target_folder_path ;;
      emit (EvMkdir folder) ;;;
      folder <- self_target_folder_path ;;
      emit (EvSetupLogger (Some folder)) ;;;
      folder <- self_target_folder_path ;;
      logging_info (MsgRecordingTo folder) ;;;
      logging_info (MsgRecordEvery interval_in_seconds) ;;;
      (if (max_num_images =? -1)%Z
       then logging_info MsgIndefinitely
       else logging_info (MsgUntil max_num_images)) ;;;
      logging_info MsgKillAnyTime ;;;
      url <- gets stream_url ;;
      logging_info (MsgStartingCapture url) ;;;
      emit EvThreadStart ;;;
      modify (set_reader_thread PLoop) ;;;
      ret (RLoop 0)
  | RLoop num_images_saved =>
      if (num_images_saved <? max_num_images)%Z || (max_num_images =? -1)%Z then
        frame <- get_frame_from_deque false ;;
        folder <- self_target_folder_path ;;
        num_images_saved <-
          match frame with
          | None =>
              mst <- gets micro_sleep_time ;;
              time_sleep mst ;;;
              ret num_images_saved
          | Some frame =>
              emit (EvImwrite folder frame) ;;;
              time_sleep interval_in_seconds ;;;
              ret (num_images_saved + 1)%Z
          end ;;
        k <- cv2_waitKey ;;
        if is_quit k then ret (RStop num_images_saved)
        else
          v <- gets verbose ;;
          (if v && (0 <? num_images_saved)%Z && (num_images_saved mod 10 =? 0)%Z
           then logging_info (MsgImagesSaved num_images_saved)
           else ret tt) ;;;
          v <- gets verbose ;;
          (if v && (0 <? num_images_saved)%Z && (num_images_saved mod 100 =? 0)%Z
           then folder <- self_target_folder_path ;; logging_info (MsgFolderContains folder)
           else ret tt) ;;;
          ret (RLoop num_images_saved)
      else ret (RStop num_images_saved)
  | RStop num_images_saved =>
      signal_stop_querying ;;;
      v <- gets verbose ;;
      (if v then logging_info (MsgInTotal num_images_saved) else ret tt) ;;;
      ret RDone
  | RDone => ret RDone
  | RRaised e => ret (RRaised e)
  end.

(** ** [show_live_stream_video], one step at a time *)

Inductive sstate : Type :=
| SInit
| SLoop               (* at the head of [while True] *)
| SStop               (* after the [break] *)
| SDone
| SRaised (e : exn).

Definition show_live_stream_video_step (pc : sstate) : M sstate :=
  match pc with
  | SInit =>
      emit (EvSetupLogger None) ;;;
      url <- gets stream_url ;;
      logging_info (MsgStartingCapture url) ;;;
      ret SLoop
  | SLoop =>
      frame <- try_except _query_frame fetch_handler ;;
      emit (EvImshow frame) ;;;
      k <- cv2_waitKey ;;
      if is_quit k then ret SStop else ret SLoop
  | SStop => signal_stop_querying ;;; ret SDone
  | SDone => ret SDone
  | SRaised e => ret (SRaised e)
  end.

(** ** Threads and schedules *)

(** One turn of the reader thread.  An exception that leaves [_query_frames]
    ends the thread. *)
Definition reader_turn (w : world) : world :=
  match _query_frames_step (set_cur Reader w) with
  | (Ok _, w') => w'
  | (Raise e, w') => set_reader_thread (PRaised e) w'
  end.

(** One turn of the main thread inside [record_live_stream_to_folder]. *)
Definition record_turn (interval_in_seconds : Q) (max_num_images : Z)
    (s : world * rstate) : world * rstate :=
  match record_live_stream_to_folder_step interval_in_seconds max_num_images (snd s)
          (set_cur Main (fst s)) with
  | (Ok pc, w') => (w', pc)
  | (Raise e, w') => (w', RRaised e)
  end.

(** One turn of the main thread inside [show_live_stream_video]. *)
Definition show_turn (s : world * sstate) : world * sstate :=
  match show_live_stream_video_step (snd s) (set_cur Main (fst s)) with
  | (Ok pc, w') => (w', pc)
  | (Raise e, w') => (w', SRaised e)
  end.

(** The recording program under a schedule: each entry names the thread that
    takes the next turn. *)
Definition turn (interval_in_seconds : Q) (max_num_images : Z) (t : tid)
    (s : world * rstate) : world * rstate :=
  match t with
  | Reader => (reader_turn (fst s), snd s)
  | Main => record_turn interval_in_seconds max_num_images s
  end.

Definition run (interval_in_seconds : Q) (max_num_images : Z) (sched : list tid)
    (s : world * rstate) : world * rstate :=
  fold_left (fun s t => turn interval_in_seconds max_num_images t s) sched s.

(** [n] turns in a row of the reader thread, the main thread standing
    still (so that nothing is popped). *)
Fixpoint reader_turns (n : nat) (w : world) : world :=
  match n with
  | O => w
  | S n' => reader_turns n' (reader_turn w)
  end.

(** Every operation that can act on an instance: a turn of either loop from
    any point, and the public methods called from outside. *)
Inductive op : Type :=
| OpReaderTurn
| OpRecordTurn (interval_in_seconds : Q) (max_num_images : Z) (pc : rstate)
| OpShowTurn (pc : sstate)
| OpSignalStop (t : tid)
| OpGetFrame (t : tid) (pop_right : bool)
| OpQueryFrame (t : tid).

Definition apply_op (o : op) (w : world) : world :=
  match o with
  | OpReaderTurn => reader_turn w
  | OpRecordTurn i m pc => fst (record_turn i m (w, pc))
  | OpShowTurn pc => fst (show_turn (w, pc))
  | OpSignalStop t => snd (signal_stop_querying (set_cur t w))
  | OpGetFrame t b => snd (get_frame_from_deque b (set_cur t w))
  | OpQueryFrame t => snd (_query_frame (set_cur t w))
  end.

(** ** Reading a trace *)

Definition is_read (e : event) : bool :=
  match e with EvRead _ => true | _ => false end.
Definition is_sleep (e : event) : bool :=
  match e with EvSleep _ => true | _ => false end.
Definition is_imwrite (e : event) : bool :=
  match e with EvImwrite _ _ => true | _ => false end.

(** Number of calls of one kind made by thread [t]. *)
Fixpoint count_of (sel : event -> bool) (t : tid) (tr : list (tid * event)) : nat :=
  match tr with
  | [] => O
  | (t', e) :: older =>
      if tid_eqb t t' && sel e then S (count_of sel t older) else count_of sel t older
  end.

(** The time thread [t] has spent asleep: a clock that only [time.sleep]
    moves, a lower bound of the time that went by in the thread. *)
Fixpoint clock (t : tid) (tr : list (tid * event)) : Q :=
  match tr with
  | [] => 0
  | (t', EvSleep d) :: older => if tid_eqb t t' then clock t older + d else clock t older
  | _ :: older => clock t older
  end.

(** The clock of thread [t] at each of its calls of one kind, newest first. *)
Fixpoint times_of (sel : event -> bool) (t : tid) (tr : list (tid * event)) : list Q :=
  match tr with
  | [] => []
  | (t', e) :: older =>
      if tid_eqb t t' && sel e
      then clock t older :: times_of sel t older
      else times_of sel t older
  end.

(** Consecutive instants (newest first) are at least [d] apart. *)
Fixpoint gaps_ok (d : Q) (l : list Q) : Prop :=
  match l with
  | later :: rest =>
      match rest with
      | earlier :: _ => earlier + d <= later
      | [] => True
      end /\ gaps_ok d rest
  | [] => True
  end.

(** The calls of a fetch that meets [n] absences in a row, newest first. *)
Fixpoint absent_calls (t : tid) (micro_sleep_time : Q) (n : nat) : list (tid * event) :=
  match n with
  | O => []
  | S n' => (t, EvSleep micro_sleep_time) :: (t, EvRead None) :: absent_calls t micro_sleep_time n'
  end.

(** What the [i]-th coming read of the device will deliver. *)
Definition next_read (w : world) (i : nat) : option frame :=
  if (releases w =? 0)%nat then feed w (reads w + i) else None.

(** The world after a read that gave [r], and after a sleep of [d]. *)
Definition after_read (r : option frame) (w : world) : world :=
  set_trace ((cur w, EvRead r) :: trace w) (set_reads (S (reads w)) w).

Definition after_sleep (d : Q) (w : world) : world :=
  set_trace ((cur w, EvSleep d) :: trace w) w.

(** The world after [n] absent reads, each followed by a sleep of [d]. *)
Fixpoint after_absences (d : Q) (n : nat) (w : world) : world :=
  match n with
  | O => w
  | S n' => after_absences d n' (after_sleep d (after_read None w))
  end.

(** An action relates the world it starts in to the world it leaves,
    whether it returns or raises. *)
Definition respects {A} (R : world -> world -> Prop) (m : M A) : Prop :=
  forall w, R w (snd (m w)).

(** A sequence of operations applied to an instance. *)
Definition apply_ops (ops : list op) (w : world) : world :=
  fold_left (fun w o => apply_op o w) ops w.

(** The progress messages of one recording iteration that ends with
    [num_images_saved] images written, newest first. *)
Definition progress_logs (t : tid) (v : bool) (num_images_saved : Z) (folder : string)
  : list (tid * event) :=
  (if v && (0 <? num_images_saved)%Z && (num_images_saved mod 100 =? 0)%Z
   then [(t, EvLogInfo (MsgFolderContains folder))] else [])
  ++
  (if v && (0 <? num_images_saved)%Z && (num_images_saved mod 10 =? 0)%Z
   then [(t, EvLogInfo (MsgImagesSaved num_images_saved))] else []).

(** The world after the reader thread has left its loop on a stop request. *)
Definition after_release (w : world) : world :=
  set_trace ((cur w, EvRelease) :: (cur w, EvLogInfo MsgQueryingFinished) :: trace w)
    (set_releases (S (releases w)) w).

(** The world after the reader thread has reported a failed fetch. *)
Definition after_error (e : exn) (w : world) : world :=
  set_trace ((cur w, EvLogError (MsgError e)) :: trace w) w.

(** The calls of [record_live_stream_to_folder] before its loop, newest
    first, and the world they leave, with the reader thread started. *)
Definition init_calls (t : tid) (interval_in_seconds : Q) (max_num_images : Z)
    (folder url : string) : list (tid * event) :=
  [ (t, EvThreadStart);
    (t, EvLogInfo (MsgStartingCapture url));
    (t, EvLogInfo MsgKillAnyTime);
    (t, EvLogInfo (if (max_num_images =? -1)%Z then MsgIndefinitely
                   else MsgUntil max_num_images));
    (t, EvLogInfo (MsgRecordEvery interval_in_seconds));
    (t, EvLogInfo (MsgRecordingTo folder));
    (t, EvSetupLogger (Some folder));
    (t, EvMkdir folder) ].

Definition after_init (interval_in_seconds : Q) (max_num_images : Z) (folder : string)
    (w : world) : world :=
  set_reader_thread PLoop
    (set_trace (init_calls (cur w) interval_in_seconds max_num_images folder (stream_url w)
                ++ trace w) w).

(** The world after an iteration of the recording loop that found the
    buffer empty, and after one that wrote the head [x] of the buffer, when
    the key poll did not ask to quit. *)
Definition after_idle (folder : string) (num_images_saved : Z) (w : world) : world :=
  set_trace
    (progress_logs (cur w) (verbose w) num_images_saved folder
     ++ (cur w, EvWaitKey (key_feed w (key_polls w)))
        :: (cur w, EvSleep (micro_sleep_time w)) :: trace w)
    (set_key_polls (S (key_polls w)) w).

Definition after_write (interval_in_seconds : Q) (folder : string) (num_images_saved : Z)
    (x : frame) (l : list frame) (w : world) : world :=
  set_trace
    (progress_logs (cur w) (verbose w) (num_images_saved + 1) folder
     ++ (cur w, EvWaitKey (key_feed w (key_polls w)))
        :: (cur w, EvSleep interval_in_seconds)
        :: (cur w, EvImwrite folder x) :: trace w)
    (set_key_polls (S (key_polls w)) (set_frames (mkDeque l (maxlen (frames w))) w)).

(** The world after the statements that follow the recording loop. *)
Definition after_stop (num_images_saved : Z) (w : world) : world :=
  set_trace
    ((if verbose w then [(cur w, EvLogInfo (MsgInTotal num_images_saved))] else [])
     ++ trace w)
    (set_keep_querying false w).

(** The settings of an instance and of its environment, which no method
    assigns after the constructor. *)
Definition same_settings (w w' : world) : Prop :=
  stream_url w' = stream_url w
  /\ max_sequential_fail_attempts w' = max_sequential_fail_attempts w
  /\ micro_sleep_time w' = micro_sleep_time w
  /\ verbose w' = verbose w
  /\ target_folder_path w' = target_folder_path w
  /\ feed w' = feed w
  /\ key_feed w' = key_feed w
  /\ maxlen (frames w') = maxlen (frames w).

(** What the code of [_query_frames], run by thread [Reader], can change:
    not the settings, the flag or the key polls, and the calls it adds to the
    trace are its own. *)
Definition reader_effect (w w' : world) : Prop :=
  cur w = Reader ->
  cur w' = Reader
  /\ same_settings w w'
  /\ keep_querying w' = keep_querying w
  /\ key_polls w' = key_polls w
  /\ exists evs, trace w' = map (pair Reader) evs ++ trace w.

(** Number of turns that a schedule gives to thread [t]. *)
Definition turns_of (t : tid) (sched : list tid) : nat :=
  List.length (filter (tid_eqb t) sched).

(** How many turns of the main thread are left, at most, once the recording
    loop has been left or was never entered. *)
Definition turns_left (pc : rstate) : nat :=
  match pc with
  | RInit => 3
  | RLoop _ => 2
  | RStop _ => 1
  | RDone | RRaised _ => 0
  end.

(** What the recording loop and the statements after it can change: they do
    not touch the reader thread or the device, they only take frames out of
    the buffer, and they never set the flag. *)
Definition loop_effect (w w' : world) : Prop :=
  reader_thread w' = reader_thread w
  /\ releases w' = releases w
  /\ reads w' = reads w
  /\ (List.length (items (frames w')) <= List.length (items (frames w)))%nat
  /\ (keep_querying w = false -> keep_querying w' = false).

(** ** The recording program on a source that always has a frame *)

Definition always_ready (w : world) : Prop := forall k, feed w k <> None.

Definition never_quit (w : world) : Prop := forall k, is_quit (key_feed w k) = false.

(** Settings with which the recording program can do its work. *)
Definition can_record (folder : string) (w : world) : Prop :=
  target_folder_path w = Some folder
  /\ 0 <= micro_sleep_time w
  /\ (1 <= max_sequential_fail_attempts w)%Z
  /\ (1 <= maxlen (frames w))%nat
  /\ always_ready w
  /\ never_quit w.

(** Number of calls of [cv2.imwrite], and the main thread's clock at each. *)
Definition images_written (w : world) : nat := count_of is_imwrite Main (trace w).
Definition write_times (w : world) : list Q := times_of is_imwrite Main (trace w).

(** The writes are at least [i] apart, and the last one is at least [i] old
    whenever the main thread is back at the head of its loop. *)
Definition paced (i : Q) (w : world) : Prop :=
  gaps_ok i (write_times w)
  /\ match write_times w with
     | t :: _ => t + i <= clock Main (trace w)
     | [] => True
     end.

(** The reader thread is inside its loop and was not asked to stop. *)
Definition reader_running (w : world) : Prop :=
  releases w = 0%nat
  /\ keep_querying w = true
  /\ match reader_thread w with PLoop | PGot _ => True | _ => False end.


(** [k] rounds in which the reader thread takes two turns and the main
    thread one. *)
Definition rounds (k : nat) : list tid := List.concat (repeat [Reader; Reader; Main] k).


End Pipeline.

Arguments deque frame : clear implicits.
Arguments event frame : clear implicits.
Arguments pstate frame : clear implicits.
Arguments world frame : clear implicits.
Arguments M frame A : clear implicits.

Notation "x <- m ;; k" := (bind m (fun x => k))
  (at level 61, m at next level, right associativity).
Notation "m ;;; k" := (bind m (fun _ => k))
  (at level 61, right associativity).

(** * More of the code: definitions *)

Section PipelineMore.

Context {frame : Type}.

(** ** Several calls of [get_frame_from_deque] in a row *)

Fixpoint get_frames (pop_right : bool) (n : nat) : M frame (list (option frame)) :=
  match n with
  | O => ret []
  | S n' =>
      x <- get_frame_from_deque pop_right ;;
      xs <- get_frames pop_right n' ;;
      ret (x :: xs)
  end.

(** ** The frames that a trace speaks of, newest first *)

(** Frames that [video_capture.read()] delivered, frames handed to
    [cv2.imwrite], frames handed to [cv2.imshow]. *)
Fixpoint reads_of (tr : list (tid * event frame)) : list frame :=
  match tr with
  | [] => []
  | (_, EvRead (Some f)) :: older => f :: reads_of older
  | _ :: older => reads_of older
  end.

Fixpoint writes_of (tr : list (tid * event frame)) : list frame :=
  match tr with
  | [] => []
  | (_, EvImwrite _ f) :: older => f :: writes_of older
  | _ :: older => writes_of older
  end.

Fixpoint shows_of (tr : list (tid * event frame)) : list frame :=
  match tr with
  | [] => []
  | (_, EvImshow f) :: older => f :: shows_of older
  | _ :: older => shows_of older
  end.

(** The totals that the recording method has reported with its last
    message, [In total n images have been saved.], newest first. *)
Fixpoint totals_of (tr : list (tid * event frame)) : list Z :=
  match tr with
  | [] => []
  | (_, EvLogInfo (MsgInTotal n)) :: older => n :: totals_of older
  | _ :: older => totals_of older
  end.


(** The frame that the reader thread holds between its fetch and its
    [append], if any. *)
Definition in_flight (p : pstate frame) : list frame :=
  match p with
  | PGot f => [f]
  | _ => []
  end.


(** ** The recording program without a quota *)

(** What holds of the recording program called with [max_num_images = -1] at
    every point of every schedule, on a source that always has a frame. *)
Definition streaming_inv (i : Q) (folder : string) (s : world frame * rstate) : Prop :=
  can_record folder (fst s)
  /\ paced i (fst s)
  /\ match snd s with
     | RInit =>
         reader_thread (fst s) = PIdle /\ keep_querying (fst s) = true
         /\ releases (fst s) = 0%nat /\ images_written (fst s) = 0%nat
     | RLoop n =>
         Z.of_nat (images_written (fst s)) = n /\ reader_running (fst s)
     | _ => False
     end.

(** ** The recording loop left by the quit key *)

(** The calls of an iteration of the recording loop whose key poll reports
    [q], newest first, and the world that the iteration leaves: the head of
    the buffer, if there is one, has been written and the sleep has been made
    before the key is looked at. *)
Definition quit_calls (t : tid) (interval_in_seconds : Q) (folder : string)
    (w : world frame) : list (tid * event frame) :=
  (t, EvWaitKey (key_feed w (key_polls w)))
  :: match items (frames w) with
     | [] => [(t, EvSleep (micro_sleep_time w))]
     | x :: _ => [(t, EvSleep interval_in_seconds); (t, EvImwrite folder x)]
     end.

Definition after_quit (interval_in_seconds : Q) (folder : string) (w : world frame)
  : world frame :=
  set_trace (quit_calls (cur w) interval_in_seconds folder w ++ trace w)
    (set_key_polls (S (key_polls w))
       (set_frames (mkDeque (tl (items (frames w))) (maxlen (frames w))) w)).

(** ** The reader thread, one statement at a time *)

(** In [_query_frames_step] the test of [keep_querying] and the fetch that
    follows it make one turn.  Here the reader thread stops at every point
    where the main thread can come in between: at the test of
    [while self.keep_querying], at the head of each iteration of the loop of
    [_query_frame], and before [append]. *)
Inductive qstate : Type :=
| QIdle                               (* the thread has not been started *)
| QTest                               (* at the test of [while self.keep_querying] *)
| QAttempt (num_failed_attempts : Z)  (* in [_query_frame], at the test of its [while] *)
| QGot (f : frame)                    (* a frame has been fetched and waits for [append] *)
| QDone                               (* the method has returned *)
| QRaised (e : exn).                  (* the method was left by an exception *)

(** The point of [_query_frames_step] that a point stands for. *)
Definition pstate_of (q : qstate) : pstate frame :=
  match q with
  | QIdle => PIdle
  | QTest | QAttempt _ => PLoop
  | QGot f => PGot f
  | QDone => PDone
  | QRaised e => PRaised e
  end.

(** One iteration of the loop of [_query_frame]: the new count of failed
    attempts, or the frame that the method returns; [IOError] when the test of
    the loop fails. *)
Definition _query_frame_attempt (num_failed_attempts : Z) : M frame (Z + frame) :=
  max <- gets max_sequential_fail_attempts ;;
  if (num_failed_attempts <? max)%Z then
    frame <- video_capture_read ;;
    match frame with
    | None =>
        let num_failed_attempts := (num_failed_attempts + 1)%Z in
        mst <- gets micro_sleep_time ;;
        time_sleep mst ;;;
        ret (inl num_failed_attempts)
    | Some frame => ret (inr frame)
    end
  else raise (IOError no_output).

(** [_query_frames] from one point to the next.  An exception of an
    iteration of [_query_frame] reaches the [except] clause of
    [_query_frames]. *)
Definition _query_frames_fine_step (q : qstate) : M frame qstate :=
  match q with
  | QTest =>
      kq <- gets keep_querying ;;
      if kq then ret (QAttempt 0)
      else
        logging_info MsgQueryingFinished ;;;
        video_capture_release ;;;
        ret QDone
  | QAttempt num_failed_attempts =>
      r <- try_except (_query_frame_attempt num_failed_attempts) fetch_handler ;;
      match r with
      | inl num_failed_attempts => ret (QAttempt num_failed_attempts)
      | inr frame => ret (QGot frame)
      end
  | QGot frame =>
      d <- gets frames ;;
      modify (set_frames (deque_append frame d)) ;;;
      ret QTest
  | QIdle | QDone | QRaised _ => ret q
  end.

(** One turn of the reader thread, from one point to the next. *)
Definition fine_reader_turn (s : world frame * qstate) : world frame * qstate :=
  match _query_frames_fine_step (snd s) (set_cur Reader (fst s)) with
  | (Ok q, w') => (set_reader_thread (pstate_of q) w', q)
  | (Raise e, w') => (set_reader_thread (PRaised e) w', QRaised e)
  end.

Fixpoint fine_reader_turns (n : nat) (s : world frame * qstate) : world frame * qstate :=
  match n with
  | O => s
  | S n' => fine_reader_turns n' (fine_reader_turn s)
  end.

(** The recording program under a schedule, the reader thread taking one
    statement per turn.  The turn of the main thread that starts the reader
    thread puts it at the test of its loop. *)
Definition fine_turn (interval_in_seconds : Q) (max_num_images : Z) (t : tid)
    (s : world frame * rstate * qstate) : world frame * rstate * qstate :=
  match t with
  | Reader =>
      (fst (fine_reader_turn (fst (fst s), snd s)), snd (fst s),
       snd (fine_reader_turn (fst (fst s), snd s)))
  | Main =>
      (record_turn interval_in_seconds max_num_images (fst s),
       match snd (fst s), snd (record_turn interval_in_seconds max_num_images (fst s)) with
       | RInit, RLoop _ => QTest
       | _, _ => snd s
       end)
  end.

Definition fine_run (interval_in_seconds : Q) (max_num_images : Z) (sched : list tid)
    (s : world frame * rstate * qstate) : world frame * rstate * qstate :=
  fold_left (fun s t => fine_turn interval_in_seconds max_num_images t s) sched s.

(** The reads that the fetch in progress can still make, and the turns that
    the reader thread still takes, at most, before it has ended, once
    [keep_querying] is false. *)
Definition attempts_left (max_sequential_fail_attempts : Z) (q : qstate) : nat :=
  match q with
  | QAttempt n => Z.to_nat (max_sequential_fail_attempts - n)
  | _ => 0
  end.

Definition fine_turns_left (max_sequential_fail_attempts : Z) (q : qstate) : nat :=
  match q with
  | QAttempt n => Z.to_nat (max_sequential_fail_attempts - n) + 3
  | QGot _ => 2
  | QTest => 1
  | QIdle | QDone | QRaised _ => 0
  end.

(** The frame that the thread is about to append, or may still fetch. *)
Definition frames_to_come (q : qstate) : nat :=
  match q with
  | QAttempt _ | QGot _ => 1
  | _ => 0
  end.

(** ** The display program: turns of [show_live_stream_video] in a row *)

(** The world after an iteration of the display loop that fetched [f]. *)
Definition after_show (f : frame) (w : world frame) : world frame :=
  set_trace ((cur w, EvWaitKey (key_feed w (key_polls w)))
             :: (cur w, EvImshow f) :: trace w)
    (set_key_polls (S (key_polls w)) w).

Fixpoint show_turns (n : nat) (s : world frame * sstate) : world frame * sstate :=
  match n with
  | O => s
  | S n' => show_turns n' (show_turn s)
  end.

(** The world after an iteration of the display loop whose fetch got [f]
    at its first read, and after one such iteration per frame of a list. *)
Definition shown (f : frame) (w : world frame) : world frame :=
  after_show f (after_read (Some f) (set_cur Main w)).

Definition shown_all (fs : list frame) (w : world frame) : world frame :=
  fold_left (fun w f => shown f w) fs w.

(** ** The script: [if __name__ == '__main__'] *)

(** [args.url] after [parse_args]: the default, a string, when no [-u] was
    given; else the list of the values given ([nargs='+']). *)
Inductive url_arg : Type :=
| UrlDefault
| UrlGiven (urls : list string).

Definition default_url : string :=
  "https://s82.ipcamlive.com/streams/52m18dihyryxpvwv7/stream.m3u8"%string.

(** The namespace that [parser.parse_args()] returns.  The options [-i] and
    [-m], when present on the command line, are taken to carry a value. *)
Record namespace : Type := mkNamespace {
  args_url : url_arg;
  args_display_only : bool;
  args_buffer_size : Z;
  args_target_folder : option string;
  args_quiet : bool;
  args_screenshot_interval_in_seconds : Q;
  args_max_num_images : Z
}.

(** [args.url[0]]: the first character of a string, the first item of a
    list. *)
Definition url_0 (u : url_arg) : exn + string :=
  match u with
  | UrlDefault =>
      match default_url with
      | EmptyString => inl (IndexError "string index out of range"%string)
      | String c _ => inr (String c EmptyString)
      end
  | UrlGiven [] => inl (IndexError "list index out of range"%string)
  | UrlGiven (u0 :: _) => inr u0
  end.

(** The values of the defaults [micro_sleep_time=0.01] (the double nearest to
    0.01) and [max_sequential_fail_attempts=20]. *)
Definition default_micro_sleep_time : Q := 5764607523034235 # 576460752303423488.
Definition default_max_sequential_fail_attempts : Z := 20.

(** What the script goes on to run. *)
Inductive program : Type :=
| Display (vsc : world frame)
| Recording (vsc : world frame) (interval_in_seconds : Q) (max_num_images : Z).

(** The instance [vsc] of the script. *)
Definition program_instance (p : program) : world frame :=
  match p with
  | Display vsc => vsc
  | Recording vsc _ _ => vsc
  end.

Definition main (src : nat -> option frame) (keys : nat -> Z) (default_folder : string)
    (args : namespace) : exn + program :=
  match url_0 (args_url args) with
  | inl e => inl e
  | inr u =>
      match __init__ src keys default_folder u (args_target_folder args)
              (args_buffer_size args) (negb (args_quiet args))
              default_micro_sleep_time default_max_sequential_fail_attempts with
      | inl e => inl e
      | inr vsc =>
          if args_display_only args
          then inr (Display vsc)
          else inr (Recording vsc (args_screenshot_interval_in_seconds args)
                      (args_max_num_images args))
      end
  end.

End PipelineMore.

Arguments program frame : clear implicits.
Arguments qstate frame : clear implicits.

(** ** [logging_util.setup_logger] *)

(** The handlers of the root logger.  [h_id] stands for the identity of the
    object: [in] and [remove] on the list of handlers compare by identity. *)
Inductive handler_kind : Type :=
| StreamHandler
| FileHandler (filename mode : string).

Record formatter : Type := mkFormatter { fmt : string; datefmt : string }.

Record handler : Type := mkHandler {
  h_id : nat;
  h_kind : handler_kind;
  h_level : Z;
  h_formatter : option formatter
}.

(** The root logger, and the number of handlers created so far. *)
Record logging_state : Type := mkLogging {
  root_level : Z;
  root_handlers : list handler;
  handlers_made : nat
}.

Definition same_handler (a b : handler) : bool := (h_id a =? h_id b)%nat.

(** [hdlr in logger.handlers] *)
Definition has_handler (h : handler) (l : list handler) : bool :=
  existsb (same_handler h) l.

(** [list.remove]: the first occurrence goes. *)
Fixpoint remove_first (h : handler) (l : list handler) : list handler :=
  match l with
  | [] => []
  | x :: l' => if same_handler h x then l' else x :: remove_first h l'
  end.

(** [Logger.removeHandler] and [Logger.addHandler] *)
Definition removeHandler (h : handler) (lg : logging_state) : logging_state :=
  if has_handler h (root_handlers lg)
  then mkLogging (root_level lg) (remove_first h (root_handlers lg)) (handlers_made lg)
  else lg.

Definition addHandler (h : handler) (lg : logging_state) : logging_state :=
  if has_handler h (root_handlers lg)
  then lg
  else mkLogging (root_level lg) (root_handlers lg ++ [h]) (handlers_made lg).

(** A new handler: level [NOTSET], no formatter. *)
Definition new_handler (k : handler_kind) (lg : logging_state) : handler * logging_state :=
  (mkHandler (handlers_made lg) k 0 None,
   mkLogging (root_level lg) (root_handlers lg) (S (handlers_made lg))).

Definition setLevel (level : Z) (h : handler) : handler :=
  mkHandler (h_id h) (h_kind h) level (h_formatter h).

Definition setFormatter (f : formatter) (h : handler) : handler :=
  mkHandler (h_id h) (h_kind h) (h_level h) (Some f).

Definition logger_setLevel (level : Z) (lg : logging_state) : logging_state :=
  mkLogging level (root_handlers lg) (handlers_made lg).

Definition ends_with_slash (s : string) : bool :=
  match rev (list_ascii_of_string s) with
  | c :: _ => Ascii.eqb c "/"%char
  | [] => false
  end.

(** [os.path.join(a, b)] for a relative [b]. *)
Definition path_join (a b : string) : string :=
  if (String.length a =? 0)%nat || ends_with_slash a
  then (a ++ b)%string
  else (a ++ "/" ++ b)%string.

Definition log_format : formatter :=
  mkFormatter "%(asctime)s [%(threadName)-12.12s] [%(levelname)-5.5s]  %(message)s"
              "%Y-%m-%d %H:%M:%S".

Definition INFO : Z := 20.

(** [setup_logger(export_folder_path, logging_level)].  [isdir] is
    [os.path.isdir] on the file system of the moment; the log file is taken
    to open. *)
Definition setup_logger (isdir : string -> bool) (export_folder_path : option string)
    (logging_level : Z) (lg : logging_state) : logging_state :=
  (* for handler in logger.handlers[:]: logger.removeHandler(handler) *)
  let lg := fold_left (fun lg h => removeHandler h lg) (root_handlers lg) lg in
  let (console_handler, lg) := new_handler StreamHandler lg in
  let lg := logger_setLevel logging_level lg in
  let console_handler := setLevel logging_level console_handler in
  let console_handler := setFormatter log_format console_handler in
  let lg := addHandler console_handler lg in
  if str_bool export_folder_path
     && match export_folder_path with Some p => isdir p | None => false end
  then
    match export_folder_path with
    | Some p =>
        let (file_handler, lg) := new_handler (FileHandler (path_join p "output.log") "a") lg in
        let file_handler := setLevel logging_level file_handler in
        let file_handler := setFormatter log_format file_handler in
        addHandler file_handler lg
    | None => lg
    end
  else lg.

(** The calls of [setup_logger] that a trace records, replayed oldest first. *)
Fixpoint logging_after {frame : Type} (isdir : string -> bool)
    (tr : list (tid * event frame)) (lg : logging_state) : logging_state :=
  match tr with
  | [] => lg
  | (_, EvSetupLogger folder) :: older =>
      setup_logger isdir folder INFO (logging_after isdir older lg)
  | _ :: older => logging_after isdir older lg
  end.

(** ** Example instances, with numbered frames *)

(** A source whose k-th read gives frame k, one that never gives a frame,
    and one that gives frames from its fourth read on. *)
Definition counting_source : nat -> option nat := fun k => Some k.
Definition silent_source : nat -> option nat := fun _ => None.
Definition late_source : nat -> option nat :=
  fun k => if (k <? 3)%nat then None else Some k.

(** A keyboard on which no key is pressed ([cv2.waitKey] gives -1), and one
    on which [q] is held down. *)
Definition no_key : nat -> Z := fun _ => (-1)%Z.
Definition q_key : nat -> Z := fun _ => 113%Z.

(** The instance that the constructor builds with a buffer of 3 frames, a
    micro sleep of 10 ms and 3 attempts per fetch. *)
Definition example_instance (src : nat -> option nat) (keys : nat -> Z)
    (target_folder_path : option string) : world nat :=
  mkWorld "camera" 3 (mkDeque [] 3) (1 # 100) true true
    (match target_folder_path with
     | None | Some EmptyString => Some "capture"%string
     | Some (String _ _) => None
     end)
    src 0 0 keys 0 PIdle Main [].

(** * Properties *)

Unset Implicit Arguments.

Section Properties.

Context {frame : Type}.

(** ** The bounded buffer *)

Lemma tl_skipn_snoc (l : list frame) (x : frame) (k : nat) :
  (k <= List.length l)%nat ->
  tl (skipn k l ++ [x]) = skipn (S k) (l ++ [x]).
Proof.
  revert k; induction l as [|a l IH]; intros k Hk.
  - assert (k = O) by (simpl in Hk; lia); subst; reflexivity.
  - destruct k as [|k].
    + reflexivity.
    + simpl in Hk. change (skipn (S k) (a :: l)) with (skipn k l).
      rewrite IH by lia. reflexivity.
Qed.

Lemma skipn_snoc_le (l : list frame) (x : frame) (k : nat) :
  (k <= List.length l)%nat ->
  skipn k (l ++ [x]) = skipn k l ++ [x].
Proof.
  intros Hk. rewrite skipn_app.
  replace (k - List.length l)%nat with O by lia. reflexivity.
Qed.

(** After any history [hist] of pushes the buffer holds the last [maxlen]
    frames of the history; one more push keeps it so. *)
Lemma deque_append_window (hist : list frame) (x : frame) (d : deque frame) :
  items d = skipn (List.length hist - maxlen d) hist ->
  items (deque_append x d)
  = skipn (List.length (hist ++ [x]) - maxlen d) (hist ++ [x]).
Proof.
  intros Hd. unfold deque_append; cbn [items].
  rewrite Hd, length_app, length_app, length_skipn; cbn [List.length].
  destruct (Nat.ltb_spec (maxlen d) (List.length hist - (List.length hist - maxlen d) + 1)) as [H|H].
  - rewrite tl_skipn_snoc by lia.
    f_equal. lia.
  - rewrite <- skipn_snoc_le by lia.
    f_equal. lia.
Qed.

Lemma maxlen_deque_append (x : frame) (d : deque frame) :
  maxlen (deque_append x d) = maxlen d.
Proof. reflexivity. Qed.

Lemma push_all_window (fs hist : list frame) (d : deque frame) :
  items d = skipn (List.length hist - maxlen d) hist ->
  items (push_all fs d)
  = skipn (List.length (hist ++ fs) - maxlen d) (hist ++ fs).
Proof.
  revert hist d; induction fs as [|f fs IH]; intros hist d Hd.
  - rewrite app_nil_r. exact Hd.
  - unfold push_all; cbn [fold_left]. fold (push_all fs (deque_append f d)).
    rewrite (IH (hist ++ [f])).
    + rewrite maxlen_deque_append, <- app_assoc. reflexivity.
    + rewrite maxlen_deque_append. apply deque_append_window. exact Hd.
Qed.

(** C5: [get_frame_from_deque] on an empty buffer returns [None] at once, in
    both modes, and leaves the instance as it was (no sleep, no other call);
    on a buffer that holds frames it removes and returns the tail when
    [pop_right] is true and the head when it is false. *)
Theorem get_frame_from_deque_ends (w : world frame) (C : nat) (x : frame) (l : list frame) :
  (forall pop_right,
      get_frame_from_deque pop_right (set_frames (mkDeque [] C) w)
      = (Ok None, set_frames (mkDeque [] C) w))
  /\ get_frame_from_deque true (set_frames (mkDeque (l ++ [x]) C) w)
     = (Ok (Some x), set_frames (mkDeque l C) w)
  /\ get_frame_from_deque false (set_frames (mkDeque (x :: l) C) w)
     = (Ok (Some x), set_frames (mkDeque l C) w).
Proof.
  split; [|split].
  - intros []; reflexivity.
  - unfold get_frame_from_deque, bind, gets, deque_bool, deque_pop.
    cbn [frames set_frames items maxlen].
    rewrite rev_app_distr; cbn [rev app].
    destruct l as [|a l]; cbn [app]; rewrite rev_involutive; reflexivity.
  - reflexivity.
Qed.

(** ** [_query_frame] *)

Lemma _query_frame_loop_eq (fuel : nat) (n : Z) (w : world frame) :
  _query_frame_loop fuel n w
  = if (n <? max_sequential_fail_attempts w)%Z then
      match fuel with
      | O => (Raise (IOError no_output), w)
      | S fuel' =>
          match next_read w 0 with
          | None =>
              if Qle_bool 0 (micro_sleep_time w)
              then _query_frame_loop fuel' (n + 1)
                     (after_sleep (micro_sleep_time w) (after_read None w))
              else (Raise (ValueError "sleep length must be non-negative"%string),
                    after_read None w)
          | Some f => (Ok f, after_read (Some f) w)
          end
      end
    else (Raise (IOError no_output), w).
Proof.
  destruct fuel as [|fuel]; cbn [_query_frame_loop];
    unfold bind at 1, gets at 1;
    destruct (n <? max_sequential_fail_attempts w)%Z; try reflexivity.
  unfold next_read. rewrite Nat.add_0_r.
  cbv beta iota delta [video_capture_read bind gets modify emit ret time_sleep raise].
  destruct (releases w =? 0)%nat; [destruct (feed w (reads w))|]; try reflexivity;
    cbn [set_reads set_trace micro_sleep_time cur trace];
    unfold after_sleep, after_read;
    destruct (Qle_bool 0 (micro_sleep_time w)); reflexivity.
Qed.

(** The budget that [_query_frame] gives its loop is never used up: any
    larger one gives the same outcome. *)
Lemma _query_frame_loop_fuel (fuel fuel' : nat) (n : Z) (w : world frame) :
  (Z.to_nat (max_sequential_fail_attempts w - n) <= fuel)%nat ->
  (Z.to_nat (max_sequential_fail_attempts w - n) <= fuel')%nat ->
  _query_frame_loop fuel n w = _query_frame_loop fuel' n w.
Proof.
  revert fuel' n w; induction fuel as [|fuel IH]; intros fuel' n w H H';
    rewrite (_query_frame_loop_eq _ n w), (_query_frame_loop_eq fuel' n w);
    destruct (Z.ltb_spec n (max_sequential_fail_attempts w)) as [Hlt|Hge];
    try reflexivity; try lia.
  destruct fuel' as [|fuel']; [lia|].
  destruct (next_read w 0); [reflexivity|].
  destruct (Qle_bool 0 (micro_sleep_time w)); [|reflexivity].
  apply IH; cbn [after_sleep after_read set_trace set_reads max_sequential_fail_attempts]; lia.
Qed.

(** A fetch touches nothing but the read counter and the trace. *)
Lemma _query_frame_loop_touches (fuel : nat) (n : Z) (w : world frame) :
  exists m tr, snd (_query_frame_loop fuel n w) = set_trace tr (set_reads m w).
Proof.
  assert (Hid : exists m tr, w = set_trace tr (set_reads m w))
    by (exists (reads w), (trace w); destruct w; reflexivity).
  revert n w Hid; induction fuel as [|fuel IH]; intros n w Hid;
    rewrite _query_frame_loop_eq;
    destruct (n <? max_sequential_fail_attempts w)%Z; try exact Hid.
  destruct (next_read w 0).
  - eexists _, _; reflexivity.
  - destruct (Qle_bool 0 (micro_sleep_time w)).
    + destruct (IH (n + 1)%Z (after_sleep (micro_sleep_time w) (after_read None w)))
        as (m & tr & E).
      { eexists _, _; reflexivity. }
      rewrite E. eexists _, _; reflexivity.
    + eexists _, _; reflexivity.
Qed.

Lemma _query_frame_touches (w : world frame) :
  exists m tr, snd (_query_frame w) = set_trace tr (set_reads m w).
Proof. apply _query_frame_loop_touches. Qed.

Lemma next_read_after_absence (d : Q) (w : world frame) (i : nat) :
  next_read (after_sleep d (after_read None w)) i = next_read w (S i).
Proof.
  unfold next_read; cbn [after_sleep after_read set_trace set_reads releases reads feed].
  rewrite Nat.add_succ_r. reflexivity.
Qed.

(** [k] absences in a row use up the whole budget and end in [IOError]. *)
Lemma _query_frame_loop_absent (k : nat) (n : Z) (w : world frame) :
  Z.to_nat (max_sequential_fail_attempts w - n) = k ->
  0 <= micro_sleep_time w ->
  (forall i, (i < k)%nat -> next_read w i = None) ->
  _query_frame_loop k n w
  = (Raise (IOError no_output), after_absences (micro_sleep_time w) k w).
Proof.
  revert n w; induction k as [|k IH]; intros n w Hk Hd Habs;
    rewrite _query_frame_loop_eq;
    destruct (Z.ltb_spec n (max_sequential_fail_attempts w)) as [Hlt|Hge];
    try reflexivity; try lia.
  rewrite (Habs O) by lia.
  apply Qle_bool_iff in Hd. rewrite Hd.
  rewrite IH.
  - reflexivity.
  - cbn [after_sleep after_read set_trace set_reads max_sequential_fail_attempts]. lia.
  - apply Qle_bool_iff. exact Hd.
  - intros i Hi. rewrite next_read_after_absence. apply Habs. lia.
Qed.

Lemma absent_calls_shift (t : tid) (d : Q) (k : nat) (tr : list (tid * event frame)) :
  absent_calls t d k ++ (t, EvSleep d) :: (t, EvRead None) :: tr
  = (t, EvSleep d) :: (t, EvRead None) :: absent_calls t d k ++ tr.
Proof.
  induction k as [|k IH]; [reflexivity|].
  cbn [absent_calls app]. rewrite IH. reflexivity.
Qed.

Lemma after_absences_frame (d : Q) (k : nat) (w : world frame) :
  after_absences d k w
  = set_trace (absent_calls (cur w) d k ++ trace w) (set_reads (reads w + k) w).
Proof.
  revert w; induction k as [|k IH]; intros w.
  - cbn [after_absences absent_calls app]. rewrite Nat.add_0_r.
    destruct w; reflexivity.
  - cbn [after_absences]. rewrite IH.
    cbn [after_sleep after_read set_trace set_reads cur trace reads].
    rewrite absent_calls_shift, Nat.add_succ_r. reflexivity.
Qed.

Lemma tid_eqb_refl (t : tid) : tid_eqb t t = true.
Proof. destruct t; reflexivity. Qed.

Lemma count_reads_absent_calls (t : tid) (d : Q) (k : nat) :
  count_of is_read t (absent_calls (frame:=frame) t d k) = k.
Proof.
  induction k as [|k IH]; [reflexivity|].
  cbn [absent_calls count_of is_read]. rewrite tid_eqb_refl, IH.
  rewrite andb_false_r. reflexivity.
Qed.

Lemma count_sleeps_absent_calls (t : tid) (d : Q) (k : nat) :
  count_of is_sleep t (absent_calls (frame:=frame) t d k) = k.
Proof.
  induction k as [|k IH]; [reflexivity|].
  cbn [absent_calls count_of is_sleep]. rewrite tid_eqb_refl, IH.
  rewrite andb_false_r. reflexivity.
Qed.

Lemma gaps_absent_calls (t : tid) (d : Q) (k : nat) :
  gaps_ok d (times_of is_read t (absent_calls (frame:=frame) t d k)).
Proof.
  induction k as [|k IH]; [exact I|].
  cbn [absent_calls times_of is_read]. rewrite tid_eqb_refl, andb_false_r.
  cbn [andb gaps_ok]. split; [|exact IH].
  destruct k as [|k]; [exact I|].
  cbn [absent_calls times_of is_read clock]. rewrite tid_eqb_refl, andb_false_r.
  cbn [andb]. apply Qle_refl.
Qed.

(** C2: against a source that reports absence on every attempt, one call of
    [_query_frame] raises [IOError] after exactly
    [max_sequential_fail_attempts] reads (none when that number is negative),
    each followed by a sleep of [micro_sleep_time], so that consecutive reads
    are at least that far apart on the caller's clock. *)
Theorem _query_frame_exhausts (w : world frame) :
  0 <= micro_sleep_time w ->
  (forall i, (i < Z.to_nat (max_sequential_fail_attempts w))%nat -> next_read w i = None) ->
  let calls :=
    absent_calls (cur w) (micro_sleep_time w) (Z.to_nat (max_sequential_fail_attempts w)) in
  fst (_query_frame w) = Raise (IOError no_output)
  /\ trace (snd (_query_frame w)) = calls ++ trace w
  /\ Z.of_nat (count_of is_read (cur w) calls) = Z.max 0 (max_sequential_fail_attempts w)
  /\ count_of is_read (cur w) calls = count_of is_sleep (cur w) calls
  /\ gaps_ok (micro_sleep_time w) (times_of is_read (cur w) calls).
Proof.
  intros Hd Habs calls.
  unfold _query_frame, bind, gets.
  rewrite _query_frame_loop_absent; try assumption;
    [|f_equal; lia].
  cbn [fst snd]. rewrite after_absences_frame. cbn [set_trace trace].
  split; [reflexivity|split; [reflexivity|]].
  subst calls. rewrite count_reads_absent_calls, count_sleeps_absent_calls.
  split; [lia|split; [reflexivity|apply gaps_absent_calls]].
Qed.

(** C6: when the first read of a call yields a frame, [_query_frame] returns
    that frame after this one read, with no sleep; this holds in the world
    left by any earlier call, whatever the number of absences that call met
    and however it ended. *)
Theorem _query_frame_first_attempt (w : world frame) (f : frame) :
  let w1 := snd (_query_frame w) in
  (1 <= max_sequential_fail_attempts w)%Z ->
  next_read w1 0 = Some f ->
  _query_frame w1 = (Ok f, after_read (Some f) w1)
  /\ trace (after_read (Some f) w1) = (cur w1, EvRead (Some f)) :: trace w1
  /\ forall t, clock t (trace (after_read (Some f) w1)) = clock t (trace w1).
Proof.
  intros w1 Hmax Hnext.
  destruct (_query_frame_touches w) as (m & tr & E). fold w1 in E.
  assert (Hmax1 : max_sequential_fail_attempts w1 = max_sequential_fail_attempts w)
    by (rewrite E; reflexivity).
  split; [|split; [reflexivity|reflexivity]].
  unfold _query_frame, bind, gets. rewrite _query_frame_loop_eq.
  destruct (Z.ltb_spec 0 (max_sequential_fail_attempts w1)); [|lia].
  destruct (Z.to_nat (max_sequential_fail_attempts w1)) eqn:Hn; [lia|].
  rewrite Hnext. reflexivity.
Qed.

(** ** Relations that every action respects *)

Section Respect.

(** A reflexive and transitive relation between worlds ... *)
Variable R : world frame -> world frame -> Prop.
Hypothesis R_refl : forall w, R w w.
Hypothesis R_trans : forall w1 w2 w3, R w1 w2 -> R w2 w3 -> R w1 w3.

Lemma respects_ret {A} (a : A) : respects R (ret a).
Proof. intros w; apply R_refl. Qed.

Lemma respects_raise {A} (e : exn) : respects R (raise (A:=A) e).
Proof. intros w; apply R_refl. Qed.

Lemma respects_gets {A} (f : world frame -> A) : respects R (gets f).
Proof. intros w; apply R_refl. Qed.

Lemma respects_modify (f : world frame -> world frame) :
  (forall w, R w (f w)) -> respects R (modify f).
Proof. intros Hf w; apply Hf. Qed.

Lemma respects_bind {A B} (m : M frame A) (k : A -> M frame B) :
  respects R m -> (forall a, respects R (k a)) -> respects R (bind m k).
Proof.
  intros Hm Hk w. unfold bind. specialize (Hm w).
  destruct (m w) as [[a|e] w']; cbn [snd] in *; [|exact Hm].
  eapply R_trans; [exact Hm|apply Hk].
Qed.

Lemma respects_try_except {A} (m : M frame A) (h : exn -> option (M frame A)) :
  respects R m -> (forall e k, h e = Some k -> respects R k) ->
  respects R (try_except m h).
Proof.
  intros Hm Hh w. unfold try_except. specialize (Hm w).
  destruct (m w) as [[a|e] w']; cbn [snd] in *; [exact Hm|].
  destruct (h e) as [k|] eqn:E; [|exact Hm].
  eapply R_trans; [exact Hm|apply (Hh e k E)].
Qed.

(** ... that holds across every elementary change of the world. *)
Hypothesis R_emit : forall e w, R w (set_trace ((cur w, e) :: trace w) w).
Hypothesis R_reads : forall w, R w (set_reads (S (reads w)) w).
Hypothesis R_releases : forall w, R w (set_releases (S (releases w)) w).
Hypothesis R_key_polls : forall w, R w (set_key_polls (S (key_polls w)) w).
Hypothesis R_append : forall f w, R w (set_frames (deque_append f (frames w)) w).
Hypothesis R_pop : forall x r w,
  rev (items (frames w)) = x :: r ->
  R w (set_frames (mkDeque (rev r) (maxlen (frames w))) w).
Hypothesis R_popleft : forall x l w,
  items (frames w) = x :: l ->
  R w (set_frames (mkDeque l (maxlen (frames w))) w).
Hypothesis R_reader : forall p w, R w (set_reader_thread p w).
Hypothesis R_stop : forall w, R w (set_keep_querying false w).

Lemma respects_emit (e : event frame) : respects R (emit e).
Proof. apply respects_modify. intros w. apply R_emit. Qed.

Lemma respects_time_sleep (d : Q) : respects R (time_sleep d).
Proof.
  unfold time_sleep. destruct (Qle_bool 0 d);
    [apply respects_emit|apply respects_raise].
Qed.

Lemma respects_video_capture_read : respects R video_capture_read.
Proof.
  intros w. unfold video_capture_read, bind, gets, modify, emit, ret; cbn [snd].
  eapply R_trans; [apply R_reads|]. apply R_emit.
Qed.

Lemma respects_video_capture_release : respects R video_capture_release.
Proof.
  intros w. unfold video_capture_release, bind, gets, modify, emit; cbn [snd].
  eapply R_trans; [apply R_releases|]. apply R_emit.
Qed.

Lemma respects_cv2_waitKey : respects R cv2_waitKey.
Proof.
  intros w. unfold cv2_waitKey, bind, gets, modify, emit, ret; cbn [snd].
  eapply R_trans; [apply R_key_polls|]. apply R_emit.
Qed.

Lemma respects_self_target_folder_path : respects R self_target_folder_path.
Proof.
  unfold self_target_folder_path. apply respects_bind; [apply respects_gets|].
  intros [p|]; [apply respects_ret|apply respects_raise].
Qed.

Lemma respects__query_frame_loop (fuel : nat) (n : Z) :
  respects R (_query_frame_loop fuel n).
Proof.
  revert n; induction fuel as [|fuel IH]; intros n; cbn [_query_frame_loop];
    (apply respects_bind; [apply respects_gets|]); intros max;
    destruct (n <? max)%Z; try apply respects_raise.
  apply respects_bind; [apply respects_video_capture_read|].
  intros [f|]; [apply respects_ret|].
  apply respects_bind; [apply respects_gets|]; intros mst.
  apply respects_bind; [apply respects_time_sleep|]; intros _.
  apply IH.
Qed.

Lemma respects__query_frame : respects R _query_frame.
Proof.
  unfold _query_frame. apply respects_bind; [apply respects_gets|].
  intros max. apply respects__query_frame_loop.
Qed.

Lemma respects_fetch : respects R (try_except _query_frame fetch_handler).
Proof.
  apply respects_try_except; [apply respects__query_frame|].
  intros e k Hk. unfold fetch_handler in Hk.
  destruct e; inversion Hk; subst;
    (apply respects_bind; [apply respects_emit|intros; apply respects_raise]).
Qed.

Ltac respected :=
  repeat match goal with
    | |- respects _ (bind _ _) => apply respects_bind; [|intros]
    | |- respects _ (ret _) => apply respects_ret
    | |- respects _ (raise _) => apply respects_raise
    | |- respects _ (sys_exit _) => apply respects_raise
    | |- respects _ (gets _) => apply respects_gets
    | |- respects _ (emit _) => apply respects_emit
    | |- respects _ (logging_info _) => apply respects_emit
    | |- respects _ (time_sleep _) => apply respects_time_sleep
    | |- respects _ cv2_waitKey => apply respects_cv2_waitKey
    | |- respects _ video_capture_release => apply respects_video_capture_release
    | |- respects _ self_target_folder_path => apply respects_self_target_folder_path
    | |- respects _ (try_except _query_frame fetch_handler) => apply respects_fetch
    | |- respects _ (modify (set_reader_thread _)) => apply respects_modify; intros; apply R_reader
    | |- respects _ (modify (set_keep_querying false)) => apply respects_modify; intros; apply R_stop
    | |- respects _ (if ?b then _ else _) => destruct b
    | |- respects _ (match ?x with _ => _ end) => destruct x eqn:?
    end.

Lemma respects_signal_stop_querying : respects R signal_stop_querying.
Proof. unfold signal_stop_querying. respected. Qed.

Lemma respects_get_frame_from_deque (pop_right : bool) :
  respects R (get_frame_from_deque pop_right).
Proof.
  intros w. unfold get_frame_from_deque, bind, gets, modify, ret, raise,
    deque_pop, deque_popleft.
  destruct (deque_bool (frames w)); [|apply R_refl].
  destruct pop_right.
  - destruct (rev (items (frames w))) eqn:E; [apply R_refl|]. eapply R_pop, E.
  - destruct (items (frames w)) eqn:E; [apply R_refl|]. eapply R_popleft, E.
Qed.

Lemma respects__query_frames_step : respects R _query_frames_step.
Proof.
  intros w. unfold _query_frames_step, bind at 1, gets at 1.
  destruct (reader_thread w) as [| |f| |e]; try apply R_refl.
  - revert w. change (respects R
      (kq <- gets keep_querying ;;
       if kq then
         frame <- try_except _query_frame fetch_handler ;;
         modify (set_reader_thread (PGot frame))
       else
         logging_info MsgQueryingFinished ;;;
         video_capture_release ;;;
         modify (set_reader_thread PDone))).
    respected.
  - unfold bind, gets, modify; cbn [snd].
    eapply R_trans; [apply R_append|apply R_reader].
Qed.

Lemma respects_record_init (i : Q) (m : Z) :
  respects R (record_live_stream_to_folder_step i m RInit).
Proof. cbn [record_live_stream_to_folder_step]; respected. Qed.

Lemma respects_record_loop (i : Q) (m n : Z) :
  respects R (record_live_stream_to_folder_step i m (RLoop n)).
Proof.
  cbn [record_live_stream_to_folder_step]; respected;
    apply respects_get_frame_from_deque.
Qed.

Lemma respects_record_stop (i : Q) (m n : Z) :
  respects R (record_live_stream_to_folder_step i m (RStop n)).
Proof.
  cbn [record_live_stream_to_folder_step]; respected;
    apply respects_signal_stop_querying.
Qed.

Lemma respects_record_step (i : Q) (m : Z) (pc : rstate) :
  respects R (record_live_stream_to_folder_step i m pc).
Proof.
  destruct pc;
    [apply respects_record_init|apply respects_record_loop|apply respects_record_stop
    |apply respects_ret|apply respects_ret].
Qed.

Lemma respects_show_step (pc : sstate) :
  respects R (show_live_stream_video_step pc).
Proof.
  destruct pc; cbn [show_live_stream_video_step]; respected;
    apply respects_signal_stop_querying.
Qed.

(** A turn, once the scheduler has named the running thread. *)
Lemma reader_turn_respects_from (w : world frame) :
  R (set_cur Reader w) (reader_turn w).
Proof.
  unfold reader_turn.
  pose proof (respects__query_frames_step (set_cur Reader w)) as H.
  destruct (_query_frames_step (set_cur Reader w)) as [[u|e] w']; cbn [snd] in H.
  - exact H.
  - eapply R_trans; [exact H|apply R_reader].
Qed.

Lemma record_turn_respects_from (i : Q) (m : Z) (s : world frame * rstate) :
  R (set_cur Main (fst s)) (fst (record_turn i m s)).
Proof.
  unfold record_turn.
  pose proof (respects_record_step i m (snd s) (set_cur Main (fst s))) as H.
  destruct (record_live_stream_to_folder_step i m (snd s) (set_cur Main (fst s)))
    as [[pc|e] w']; exact H.
Qed.

(** The scheduler names the running thread before each turn. *)
Hypothesis R_cur : forall t w, R w (set_cur t w).

Lemma reader_turn_respects (w : world frame) : R w (reader_turn w).
Proof. eapply R_trans; [apply R_cur|apply reader_turn_respects_from]. Qed.

Lemma record_turn_respects (i : Q) (m : Z) (s : world frame * rstate) :
  R (fst s) (fst (record_turn i m s)).
Proof. eapply R_trans; [apply R_cur|apply record_turn_respects_from]. Qed.

Lemma show_turn_respects (s : world frame * sstate) :
  R (fst s) (fst (show_turn s)).
Proof.
  unfold show_turn.
  pose proof (respects_show_step (snd s) (set_cur Main (fst s))) as H.
  destruct (show_live_stream_video_step (snd s) (set_cur Main (fst s)))
    as [[pc|e] w']; cbn [fst snd] in *; (eapply R_trans; [apply R_cur|exact H]).
Qed.

Lemma apply_op_respects (o : op) (w : world frame) : R w (apply_op o w).
Proof.
  destruct o; cbn [apply_op].
  - apply reader_turn_respects.
  - apply (record_turn_respects _ _ (w, pc)).
  - apply (show_turn_respects (w, pc)).
  - eapply R_trans; [apply R_cur|apply respects_signal_stop_querying].
  - eapply R_trans; [apply R_cur|apply respects_get_frame_from_deque].
  - eapply R_trans; [apply R_cur|apply respects__query_frame].
Qed.

Lemma apply_ops_respects (ops : list op) (w : world frame) : R w (apply_ops ops w).
Proof.
  revert w; induction ops as [|o ops IH]; intros w; [apply R_refl|].
  unfold apply_ops; cbn [fold_left].
  eapply R_trans; [apply apply_op_respects|apply IH].
Qed.

End Respect.

(** C8: once [keep_querying] is false, no operation on the instance (a turn
    of the reader loop or of either consumer from any point, or a call of a
    public method, in any order) makes it true again. *)
Theorem keep_querying_never_reset (ops : list op) (w : world frame) :
  keep_querying w = false ->
  keep_querying (apply_ops ops w) = false.
Proof.
  apply (apply_ops_respects
           (fun w w' => keep_querying w = false -> keep_querying w' = false));
    auto.
Qed.


(** ** What one turn of the reader thread does *)

Lemma reader_turn_rest (w : world frame) :
  match reader_thread w with PIdle | PDone | PRaised _ => True | _ => False end ->
  reader_turn w = set_cur Reader w.
Proof.
  intros H. unfold reader_turn, _query_frames_step, bind, gets.
  cbn [set_cur reader_thread].
  destruct (reader_thread w); try contradiction; reflexivity.
Qed.

Lemma reader_turn_append (w : world frame) (f : frame) :
  reader_thread w = PGot f ->
  reader_turn w
  = set_reader_thread PLoop (set_frames (deque_append f (frames w)) (set_cur Reader w)).
Proof.
  intros H. unfold reader_turn, _query_frames_step, bind, gets.
  cbn [set_cur reader_thread]. rewrite H. reflexivity.
Qed.

Lemma reader_turn_stop (w : world frame) :
  reader_thread w = PLoop -> keep_querying w = false ->
  reader_turn w = set_reader_thread PDone (after_release (set_cur Reader w)).
Proof.
  intros H Hk. unfold reader_turn, _query_frames_step, bind at 1, gets at 1.
  cbn [set_cur reader_thread]. rewrite H.
  unfold bind at 1, gets at 1. cbn [set_cur keep_querying]. rewrite Hk. reflexivity.
Qed.

(** The turn that fetches: a frame goes to [PGot]; [IOError] is logged and
    turned into [SystemExit 1] by [sys.exit(1)]; any other exception leaves
    the method as it is. *)
Lemma reader_turn_fetch (w : world frame) :
  reader_thread w = PLoop -> keep_querying w = true ->
  reader_turn w
  = match _query_frame (set_cur Reader w) with
    | (Ok f, w1) => set_reader_thread (PGot f) w1
    | (Raise (IOError msg), w1) =>
        set_reader_thread (PRaised (SystemExit 1)) (after_error (IOError msg) w1)
    | (Raise AssertionError, w1) =>
        set_reader_thread (PRaised (SystemExit 1)) (after_error AssertionError w1)
    | (Raise e, w1) => set_reader_thread (PRaised e) w1
    end.
Proof.
  intros H Hk. unfold reader_turn, _query_frames_step, bind at 1, gets at 1.
  cbn [set_cur reader_thread]. rewrite H.
  unfold bind at 1, gets at 1. cbn [set_cur keep_querying]. rewrite Hk.
  unfold bind, try_except.
  destruct (_query_frame _) as [[f|e] w1]; [reflexivity|].
  destruct e; reflexivity.
Qed.

Lemma reader_turn_fetch_first (w : world frame) (f : frame) :
  reader_thread w = PLoop -> keep_querying w = true ->
  (1 <= max_sequential_fail_attempts w)%Z ->
  next_read w 0 = Some f ->
  reader_turn w = set_reader_thread (PGot f) (after_read (Some f) (set_cur Reader w)).
Proof.
  intros H Hk Hmax Hnext. rewrite reader_turn_fetch by assumption.
  unfold _query_frame, bind, gets. rewrite _query_frame_loop_eq.
  cbn [set_cur max_sequential_fail_attempts].
  destruct (Z.ltb_spec 0 (max_sequential_fail_attempts w)); [|lia].
  destruct (Z.to_nat (max_sequential_fail_attempts w)) eqn:Hn; [lia|].
  change (next_read (set_cur Reader w) 0) with (next_read w 0).
  rewrite Hnext. reflexivity.
Qed.


(** ** The buffer as the reader thread fills it *)

(** While nothing is popped and no stop is asked for, two turns of the reader
    thread per frame push the frames that the source yields, in order. *)
Lemma reader_pushes_all (fs : list frame) (w : world frame) :
  reader_thread w = PLoop -> keep_querying w = true -> releases w = 0%nat ->
  (1 <= max_sequential_fail_attempts w)%Z ->
  (forall j f, nth_error fs j = Some f -> feed w (reads w + j) = Some f) ->
  frames (reader_turns (2 * List.length fs) w) = push_all fs (frames w)
  /\ reader_thread (reader_turns (2 * List.length fs) w) = PLoop.
Proof.
  revert w; induction fs as [|f fs IH]; intros w P K R Hmax Hfeed.
  - split; [reflexivity|exact P].
  - replace (2 * List.length (f :: fs))%nat with (S (S (2 * List.length fs)))
      by (cbn [List.length]; lia).
    cbn [reader_turns].
    assert (Hnext : next_read w 0 = Some f).
    { unfold next_read. rewrite R. cbn [Nat.eqb]. apply (Hfeed O f). reflexivity. }
    rewrite (reader_turn_fetch_first w f P K Hmax Hnext).
    rewrite (reader_turn_append _ f) by reflexivity.
    match goal with |- context [reader_turns _ ?w2] => set (w2' := w2) end.
    destruct (IH w2') as (F & P'); try reflexivity; try assumption.
    + intros j g Hj. subst w2'.
      cbn [feed reads set_reader_thread set_frames set_cur after_read set_trace set_reads].
      rewrite Nat.add_succ_l, <- Nat.add_succ_r. apply Hfeed. exact Hj.
    + split; [|exact P']. rewrite F. reflexivity.
Qed.

(** C1: pushing C+k frames into an empty buffer of capacity C >= 1 leaves
    exactly the last C of them, in arrival order, and the length of the
    buffer is min(C, number pushed); a push into a full buffer drops the head
    and keeps the frame just pushed at the tail; and this is the buffer that
    the reader thread builds from a source that yields these frames, as long
    as nothing is popped. *)
Theorem push_keeps_most_recent (C k : nat) (fs : list frame) :
  (1 <= C)%nat ->
  List.length fs = (C + k)%nat ->
  deque_new (frame:=frame) (Z.of_nat C) = inr (mkDeque [] C)
  /\ items (push_all fs (mkDeque [] C)) = skipn k fs
  /\ List.length (items (push_all fs (mkDeque [] C))) = Nat.min C (List.length fs)
  /\ (forall (d : deque frame) (x : frame),
        maxlen d = C -> List.length (items d) = C ->
        items (deque_append x d) = tl (items d) ++ [x]
        /\ List.length (items (deque_append x d)) = C)
  /\ (forall w : world frame,
        frames w = mkDeque [] C ->
        reader_thread w = PLoop -> keep_querying w = true -> releases w = 0%nat ->
        (1 <= max_sequential_fail_attempts w)%Z ->
        (forall j f, nth_error fs j = Some f -> feed w (reads w + j) = Some f) ->
        items (frames (reader_turns (2 * List.length fs) w)) = skipn k fs).
Proof.
  intros HC Hlen.
  assert (Hitems : items (push_all fs (mkDeque [] C)) = skipn k fs).
  { rewrite (push_all_window fs [] (mkDeque [] C)) by reflexivity.
    cbn [app maxlen]. f_equal. lia. }
  split; [|split; [exact Hitems|split; [|split]]].
  - unfold deque_new. destruct (Z.ltb_spec (Z.of_nat C) 0); [lia|].
    rewrite Nat2Z.id. reflexivity.
  - rewrite Hitems, length_skipn. lia.
  - intros d x Hmax Hfull. unfold deque_append; cbn [items].
    rewrite length_app, Hfull, Hmax; cbn [List.length].
    destruct (Nat.ltb_spec C (C + 1)) as [_|H]; [|lia].
    destruct (items d) as [|a l]; [simpl in Hfull; lia|].
    cbn [tl app]. split; [reflexivity|].
    rewrite length_app; cbn [List.length]. simpl in Hfull. lia.
  - intros w F P K R Hmax Hfeed.
    destruct (reader_pushes_all fs w P K R Hmax Hfeed) as (E & _).
    rewrite E, F. exact Hitems.
Qed.

(** ** What one turn of the main thread does in [record_live_stream_to_folder] *)

Ltac run_step :=
  cbv beta iota delta
    [record_turn record_live_stream_to_folder_step bind gets modify ret raise emit
     self_target_folder_path logging_info signal_stop_querying time_sleep cv2_waitKey
     get_frame_from_deque deque_bool deque_popleft fst snd
     set_frames set_keep_querying set_reads set_releases set_key_polls
     set_reader_thread set_cur set_trace
     stream_url max_sequential_fail_attempts frames micro_sleep_time keep_querying
     verbose target_folder_path feed reads releases key_feed key_polls reader_thread
     cur trace items maxlen].

Ltac fields := cbn -[Qle_bool is_quit Z.ltb Z.eqb Z.modulo Z.add] in *.

Lemma record_turn_init_fails (i : Q) (m : Z) (w : world frame) :
  target_folder_path w = None ->
  record_turn i m (w, RInit) = (set_cur Main w, RRaised (AttributeError no_attribute)).
Proof.
  intros H. destruct w; fields; subst. run_step. reflexivity.
Qed.

Lemma record_turn_init (i : Q) (m : Z) (w : world frame) (folder : string) :
  target_folder_path w = Some folder ->
  record_turn i m (w, RInit) = (after_init i m folder (set_cur Main w), RLoop 0).
Proof.
  intros H. destruct w; fields; subst.
  unfold after_init, init_calls. run_step.
  destruct (m =? -1)%Z; reflexivity.
Qed.

Lemma record_turn_exit (i : Q) (m n : Z) (w : world frame) :
  (n <? m)%Z || (m =? -1)%Z = false ->
  record_turn i m (w, RLoop n) = (set_cur Main w, RStop n).
Proof. intros H. run_step. rewrite H. reflexivity. Qed.

Lemma record_turn_idle (i : Q) (m n : Z) (w : world frame) (folder : string) :
  (n <? m)%Z || (m =? -1)%Z = true ->
  items (frames w) = [] ->
  target_folder_path w = Some folder ->
  0 <= micro_sleep_time w ->
  is_quit (key_feed w (key_polls w)) = false ->
  record_turn i m (w, RLoop n) = (after_idle folder n (set_cur Main w), RLoop n).
Proof.
  intros Hc Hf Ht Hd Hq. apply Qle_bool_iff in Hd.
  destruct w as [? ? [its cap] ? ? v ? ? ? ? ? ? ? ? ?]; fields; subst.
  unfold after_idle, progress_logs. run_step. rewrite Hc, Hd, Hq.
  destruct (v && (0 <? n)%Z && (n mod 10 =? 0)%Z);
    destruct (v && (0 <? n)%Z && (n mod 100 =? 0)%Z); reflexivity.
Qed.

Lemma record_turn_write (i : Q) (m n : Z) (w : world frame) (folder : string)
    (x : frame) (l : list frame) :
  (n <? m)%Z || (m =? -1)%Z = true ->
  items (frames w) = x :: l ->
  target_folder_path w = Some folder ->
  0 <= i ->
  is_quit (key_feed w (key_polls w)) = false ->
  record_turn i m (w, RLoop n)
  = (after_write i folder n x l (set_cur Main w), RLoop (n + 1)).
Proof.
  intros Hc Hf Ht Hd Hq. apply Qle_bool_iff in Hd.
  destruct w as [? ? [its cap] ? ? v ? ? ? ? ? ? ? ? ?]; fields; subst.
  unfold after_write, progress_logs. run_step. rewrite Hc, Hd, Hq.
  destruct (v && (0 <? n + 1)%Z && ((n + 1) mod 10 =? 0)%Z);
    destruct (v && (0 <? n + 1)%Z && ((n + 1) mod 100 =? 0)%Z); reflexivity.
Qed.

Lemma record_turn_stop (i : Q) (m n : Z) (w : world frame) :
  record_turn i m (w, RStop n) = (after_stop n (set_cur Main w), RDone).
Proof.
  destruct w as [? ? ? ? ? v ? ? ? ? ? ? ? ? ?].
  unfold after_stop. run_step. destruct v; reflexivity.
Qed.

Lemma record_turn_over (i : Q) (m : Z) (w : world frame) (pc : rstate) :
  match pc with RDone | RRaised _ => True | _ => False end ->
  record_turn i m (w, pc) = (set_cur Main w, pc).
Proof. intros H. destruct pc; try contradiction; reflexivity. Qed.


(** ** What a turn of one thread leaves to the other *)

Lemma same_settings_refl (w : world frame) : same_settings w w.
Proof. repeat split. Qed.

Lemma same_settings_trans (w1 w2 w3 : world frame) :
  same_settings w1 w2 -> same_settings w2 w3 -> same_settings w1 w3.
Proof.
  unfold same_settings. intros H1 H2.
  repeat match goal with H : _ /\ _ |- _ => destruct H end.
  repeat split; congruence.
Qed.

Lemma own_calls_refl (t : tid) (w : world frame) :
  exists evs : list (event frame), trace w = map (pair t) evs ++ trace w.
Proof. exists []; reflexivity. Qed.

Lemma own_calls_trans (t : tid) (w1 w2 w3 : world frame) :
  (exists evs, trace w2 = map (pair t) evs ++ trace w1) ->
  (exists evs, trace w3 = map (pair t) evs ++ trace w2) ->
  exists evs, trace w3 = map (pair t) evs ++ trace w1.
Proof.
  intros [e1 H1] [e2 H2]. exists (e2 ++ e1).
  rewrite H2, H1, map_app, app_assoc. reflexivity.
Qed.

Lemma own_calls_emit (t : tid) (e : event frame) (w : world frame) :
  cur w = t ->
  exists evs, (cur w, e) :: trace w = map (pair t) evs ++ trace w.
Proof. intros H. exists [e]. rewrite H. reflexivity. Qed.

Lemma reader_effect_refl (w : world frame) : reader_effect w w.
Proof.
  intros H. auto 8 using same_settings_refl, own_calls_refl.
Qed.

Lemma reader_effect_trans (w1 w2 w3 : world frame) :
  reader_effect w1 w2 -> reader_effect w2 w3 -> reader_effect w1 w3.
Proof.
  intros H1 H2 Hc. destruct (H1 Hc) as (C1 & S1 & K1 & P1 & E1).
  destruct (H2 C1) as (C2 & S2 & K2 & P2 & E2).
  refine (conj C2 (conj _ (conj _ (conj _ _)))); try congruence.
  - eapply same_settings_trans; eassumption.
  - eapply own_calls_trans; eassumption.
Qed.

Ltac effect_step :=
  intros; unfold reader_effect;
  let Hc := fresh "Hc" in
  intros Hc; simpl in Hc |- *;
  refine (conj _ (conj _ (conj _ (conj _ _))));
  try assumption; try reflexivity;
  try (unfold same_settings; simpl; repeat split; assumption);
  try apply own_calls_refl;
  try (apply own_calls_emit; assumption).

Lemma reader_turn_effect (w : world frame) :
  reader_effect (set_cur Reader w) (reader_turn w).
Proof.
  apply reader_turn_respects_from;
    [apply reader_effect_refl|apply reader_effect_trans|..]; effect_step.
Qed.

(** Calls of another thread do not show in what a thread counts or in its
    clock. *)
Lemma count_of_other (sel : event frame -> bool) (t t' : tid)
    (evs : list (event frame)) (tr : list (tid * event frame)) :
  tid_eqb t t' = false ->
  count_of sel t (map (pair t') evs ++ tr) = count_of sel t tr.
Proof.
  intros H. induction evs as [|e evs IH]; [reflexivity|].
  cbn [map app count_of]. rewrite H. exact IH.
Qed.

Lemma clock_other (t t' : tid) (evs : list (event frame)) (tr : list (tid * event frame)) :
  tid_eqb t t' = false ->
  clock t (map (pair t') evs ++ tr) = clock t tr.
Proof.
  intros H. induction evs as [|e evs IH]; [reflexivity|].
  cbn [map app clock]. rewrite H. destruct e; exact IH.
Qed.

Lemma times_of_other (sel : event frame -> bool) (t t' : tid)
    (evs : list (event frame)) (tr : list (tid * event frame)) :
  tid_eqb t t' = false ->
  times_of sel t (map (pair t') evs ++ tr) = times_of sel t tr.
Proof.
  intros H. induction evs as [|e evs IH]; [reflexivity|].
  cbn [map app times_of]. rewrite H. exact IH.
Qed.


(** ** Schedules *)

Lemma run_cons (i : Q) (m : Z) (t : tid) (sched : list tid) (s : world frame * rstate) :
  run i m (t :: sched) s = run i m sched (turn i m t s).
Proof. reflexivity. Qed.

Lemma run_app (i : Q) (m : Z) (s1 s2 : list tid) (s : world frame * rstate) :
  run i m (s1 ++ s2) s = run i m s2 (run i m s1 s).
Proof. unfold run. apply fold_left_app. Qed.

Lemma run_invariant (i : Q) (m : Z) (Inv : world frame * rstate -> Prop) :
  (forall s t, Inv s -> Inv (turn i m t s)) ->
  forall sched s, Inv s -> Inv (run i m sched s).
Proof.
  intros Hstep sched; induction sched as [|t sched IH]; intros s H; [exact H|].
  rewrite run_cons. apply IH, Hstep, H.
Qed.

(** ** The constructor and the target folder *)

(** C9: when the constructor is given a non-empty [target_folder_path], it
    leaves the attribute unassigned; no later operation assigns it; and a call
    of [record_live_stream_to_folder] is then left by [AttributeError] at its
    first statement, with no call made to any collaborator, so that no image
    is written. *)
Theorem record_fails_when_folder_given
    (src : nat -> option frame) (keys : nat -> Z) (default_folder url s : string)
    (buffer_size : Z) (v : bool) (micro : Q) (maxf : Z) (w0 : world frame) :
  s <> EmptyString ->
  __init__ src keys default_folder url (Some s) buffer_size v micro maxf = inr w0 ->
  target_folder_path w0 = None
  /\ forall (ops : list op) (i : Q) (m : Z),
       let w := apply_ops ops w0 in
       target_folder_path w = None
       /\ record_turn i m (w, RInit)
          = (set_cur Main w, RRaised (AttributeError no_attribute))
       /\ trace (set_cur Main w) = trace w
       /\ forall w' : world frame,
            record_turn i m (w', RRaised (AttributeError no_attribute))
                     = (set_cur Main w', RRaised (AttributeError no_attribute)).
Proof.
  intros Hs Hinit.
  assert (H0 : target_folder_path w0 = None).
  { unfold __init__ in Hinit. destruct (deque_new buffer_size); [discriminate|].
    injection Hinit as <-. cbn [target_folder_path].
    destruct s; [contradiction|reflexivity]. }
  split; [exact H0|]. intros ops i m w.
  assert (Hw : target_folder_path w = None).
  { revert H0. subst w.
    apply (apply_ops_respects
             (fun w w' => target_folder_path w = None -> target_folder_path w' = None));
      auto. }
  split; [exact Hw|]. split; [apply record_turn_init_fails, Hw|].
  split; [reflexivity|]. intros w'. reflexivity.
Qed.

(** ** What the reader leaves to the main thread, in one statement *)

Lemma reader_turn_main_view (w : world frame) :
  same_settings w (reader_turn w)
  /\ keep_querying (reader_turn w) = keep_querying w
  /\ key_polls (reader_turn w) = key_polls w
  /\ (forall sel, count_of sel Main (trace (reader_turn w)) = count_of sel Main (trace w))
  /\ clock Main (trace (reader_turn w)) = clock Main (trace w)
  /\ (forall sel, times_of sel Main (trace (reader_turn w)) = times_of sel Main (trace w)).
Proof.
  destruct (reader_turn_effect w eq_refl) as (_ & S & K & P & evs & E).
  cbn [set_cur trace] in E.
  split; [exact S|]. split; [exact K|]. split; [exact P|].
  rewrite E. split; [|split]; intros;
    auto using count_of_other, clock_other, times_of_other.
Qed.

Lemma progress_logs_count (t t' : tid) (v : bool) (n : Z) (folder : string)
    (tr : list (tid * event frame)) :
  count_of is_imwrite t (progress_logs t' v n folder ++ tr) = count_of is_imwrite t tr.
Proof.
  unfold progress_logs.
  destruct (v && (0 <? n)%Z && (n mod 100 =? 0)%Z);
    destruct (v && (0 <? n)%Z && (n mod 10 =? 0)%Z);
    cbn [app count_of is_imwrite]; rewrite ?andb_false_r; reflexivity.
Qed.

Lemma progress_logs_clock (t t' : tid) (v : bool) (n : Z) (folder : string)
    (tr : list (tid * event frame)) :
  clock t (progress_logs t' v n folder ++ tr) = clock t tr.
Proof.
  unfold progress_logs.
  destruct (v && (0 <? n)%Z && (n mod 100 =? 0)%Z);
    destruct (v && (0 <? n)%Z && (n mod 10 =? 0)%Z); reflexivity.
Qed.

Lemma progress_logs_times (t t' : tid) (v : bool) (n : Z) (folder : string)
    (tr : list (tid * event frame)) :
  times_of is_imwrite t (progress_logs t' v n folder ++ tr) = times_of is_imwrite t tr.
Proof.
  unfold progress_logs.
  destruct (v && (0 <? n)%Z && (n mod 100 =? 0)%Z);
    destruct (v && (0 <? n)%Z && (n mod 10 =? 0)%Z);
    cbn [app times_of is_imwrite]; rewrite ?andb_false_r; reflexivity.
Qed.

Lemma after_stop_view (n : Z) (w : world frame) :
  keep_querying (after_stop n w) = false
  /\ target_folder_path (after_stop n w) = target_folder_path w
  /\ reader_thread (after_stop n w) = reader_thread w
  /\ releases (after_stop n w) = releases w
  /\ count_of is_imwrite Main (trace (after_stop n w)) = count_of is_imwrite Main (trace w)
  /\ times_of is_imwrite Main (trace (after_stop n w)) = times_of is_imwrite Main (trace w).
Proof.
  unfold after_stop. cbn [set_trace set_keep_querying keep_querying target_folder_path
    reader_thread releases trace verbose cur].
  destruct (verbose w); cbn [app count_of times_of is_imwrite];
    rewrite ?andb_false_r; auto 10.
Qed.

(** ** A quota that is not positive *)

(** C10: with [max_num_images <= 0] other than [-1], the test of the
    recording loop fails at once: the turn at the head of the loop makes no
    call and goes to the statements after the loop, which clear
    [keep_querying].  From the entry of the loop, whatever the instance and
    the schedule, no image is ever written and the flag is cleared by the
    second turn of the main thread; the same holds of the whole method, one
    turn later, on an instance whose target folder is set. *)
Theorem record_nothing_when_quota_not_positive (i : Q) (m : Z) :
  (m <= 0)%Z -> m <> (-1)%Z ->
  (forall w : world frame, record_turn i m (w, RLoop 0) = (set_cur Main w, RStop 0))
  /\ (forall (w : world frame) n,
        snd (record_turn i m (w, RStop n)) = RDone
        /\ keep_querying (fst (record_turn i m (w, RStop n))) = false)
  /\ (forall (w : world frame) (sched : list tid),
        let s := run i m sched (w, RLoop 0) in
        images_written (fst s) = images_written w
        /\ (snd s = RDone -> keep_querying (fst s) = false)
        /\ ((2 <= turns_of Main sched)%nat -> snd s = RDone))
  /\ (forall (w : world frame) (folder : string) (sched : list tid),
        target_folder_path w = Some folder ->
        let s := run i m sched (w, RInit) in
        images_written (fst s) = images_written w
        /\ (snd s = RDone -> keep_querying (fst s) = false)
        /\ ((3 <= turns_of Main sched)%nat -> snd s = RDone)).
Proof.
  intros Hm Hm1.
  assert (Hexit : (0 <? m)%Z || (m =? -1)%Z = false).
  { destruct (Z.ltb_spec 0 m); [lia|]. destruct (Z.eqb_spec m (-1)); [lia|reflexivity]. }
  split; [intros w; apply record_turn_exit, Hexit|].
  split.
  { intros w n. rewrite record_turn_stop. split; [reflexivity|].
    apply after_stop_view. }
  set (Inv := fun (c : nat) (k : nat) (s : world frame * rstate) =>
    images_written (fst s) = c
    /\ (turns_left (snd s) <= k)%nat
    /\ match snd s with
       | RInit => exists folder, target_folder_path (fst s) = Some folder
       | RStop 0 | RLoop 0 => True
       | RDone => keep_querying (fst s) = false
       | _ => False
       end).
  assert (Hrun : forall c sched k s,
             Inv c k s -> Inv c (k - turns_of Main sched)%nat (run i m sched s)).
  { intros c. induction sched as [|t sched IH]; intros k s H.
    - cbn [turns_of filter List.length run fold_left]. rewrite Nat.sub_0_r. exact H.
    - rewrite run_cons. destruct s as [w1 pc]. destruct H as (C & L & P).
      cbn [fst snd] in *. destruct t.
      + (* a turn of the main thread *)
        replace (k - turns_of Main (Main :: sched))%nat
          with ((k - 1) - turns_of Main sched)%nat
          by (unfold turns_of; cbn [filter tid_eqb List.length]; lia).
        apply IH. cbn [turn].
        destruct pc as [|n|n| |e]; try contradiction.
        * destruct P as [folder T].
          rewrite (record_turn_init i m w1 folder T).
          unfold Inv; cbn [fst snd turns_left] in *.
          refine (conj _ (conj _ I)); [rewrite <- C; reflexivity|lia].
        * destruct n; try contradiction.
          rewrite (record_turn_exit i m 0 w1 Hexit).
          unfold Inv; cbn [fst snd turns_left] in *.
          refine (conj C (conj _ I)); lia.
        * destruct n; try contradiction.
          rewrite record_turn_stop. unfold Inv; cbn [fst snd turns_left] in *.
          destruct (after_stop_view 0 (set_cur Main w1)) as (K & _ & _ & _ & C' & _).
          refine (conj _ (conj _ K)); [unfold images_written; rewrite C'; exact C|lia].
        * unfold Inv; cbn [record_turn record_live_stream_to_folder_step ret fst snd turns_left].
          refine (conj C (conj _ P)); lia.
      + (* a turn of the reader thread *)
        replace (k - turns_of Main (Reader :: sched))%nat
          with (k - turns_of Main sched)%nat
          by (unfold turns_of; cbn [filter tid_eqb List.length]; lia).
        apply IH. cbn [turn fst snd].
        destruct (reader_turn_main_view w1) as (S & K & _ & Cn & _).
        destruct S as (_ & _ & _ & _ & T' & _).
        unfold Inv; cbn [fst snd].
        refine (conj _ (conj L _)); [unfold images_written; rewrite Cn; exact C|].
        destruct pc as [|n|n| |e]; try exact P.
        * rewrite T'; exact P.
        * rewrite K; exact P. }
  split.
  - intros w sched s.
    assert (H0 : Inv (images_written w) 2%nat (w, RLoop 0)).
    { unfold Inv; cbn [fst snd turns_left]. refine (conj eq_refl (conj _ I)). lia. }
    specialize (Hrun _ sched 2%nat (w, RLoop 0) H0). fold s in Hrun.
    destruct Hrun as (C & L & P).
    split; [exact C|]. split.
    + intros E. rewrite E in P. exact P.
    + intros H2. destruct (snd s) as [|n|n| |e]; cbn [turns_left] in L;
        try lia; try contradiction. reflexivity.
  - intros w folder sched Ht s.
    assert (H0 : Inv (images_written w) 3%nat (w, RInit)).
    { unfold Inv; cbn [fst snd turns_left].
      refine (conj eq_refl (conj _ (ex_intro _ folder Ht))). lia. }
    specialize (Hrun _ sched 3%nat (w, RInit) H0). fold s in Hrun.
    destruct Hrun as (C & L & P).
    split; [exact C|]. split.
    + intros E. rewrite E in P. exact P.
    + intros H3. destruct (snd s) as [|n|n| |e]; cbn [turns_left] in L;
        try lia; try contradiction. reflexivity.
Qed.

(** ** The reader thread: failure and stop *)

Lemma reader_turn_fetch_view (w : world frame) :
  reader_thread w = PLoop -> keep_querying w = true ->
  frames (reader_turn w) = frames w
  /\ releases (reader_turn w) = releases w
  /\ keep_querying (reader_turn w) = keep_querying w
  /\ match fst (_query_frame (set_cur Reader w)) with
     | Ok f => reader_thread (reader_turn w) = PGot f
     | Raise (IOError _) | Raise AssertionError =>
         reader_thread (reader_turn w) = PRaised (SystemExit 1)
     | Raise e => reader_thread (reader_turn w) = PRaised e
     end.
Proof.
  intros H Hk. rewrite (reader_turn_fetch w H Hk).
  destruct (_query_frame_touches (set_cur Reader w)) as (n & tr & E).
  destruct (_query_frame (set_cur Reader w)) as [[f|e] w1]; cbn [fst snd] in *;
    subst w1; [|destruct e]; repeat split.
Qed.

Lemma loop_effect_refl (w : world frame) : loop_effect w w.
Proof. unfold loop_effect. auto. Qed.

Lemma loop_effect_trans (w1 w2 w3 : world frame) :
  loop_effect w1 w2 -> loop_effect w2 w3 -> loop_effect w1 w3.
Proof.
  unfold loop_effect. intros (A1 & B1 & C1 & D1 & E1) (A2 & B2 & C2 & D2 & E2).
  refine (conj _ (conj _ (conj _ (conj _ _)))); try congruence; [lia|auto].
Qed.

Lemma record_turn_loop_effect (i : Q) (m : Z) (w : world frame) (pc : rstate) :
  pc <> RInit ->
  loop_effect w (fst (record_turn i m (w, pc))).
Proof.
  intros Hpc.
  assert (Hcur : loop_effect w (set_cur Main w)) by (unfold loop_effect; cbn; auto).
  eapply loop_effect_trans; [exact Hcur|].
  assert (Hstep : respects (loop_effect (frame:=frame))
                          (record_live_stream_to_folder_step i m pc)).
  { destruct pc as [|n|n| |e]; [contradiction| | | |].
    - apply respects_record_loop;
        [apply loop_effect_refl|apply loop_effect_trans|..];
        intros; unfold loop_effect; simpl; auto 6.
      + rewrite length_rev, <- (length_rev (items (frames w0))), H. simpl; auto 6.
      + rewrite H. simpl; auto 6.
    - apply respects_record_stop;
        [apply loop_effect_refl|apply loop_effect_trans|..];
        intros; unfold loop_effect; simpl; auto 6.
    - intros w0; apply loop_effect_refl.
    - intros w0; apply loop_effect_refl. }
  specialize (Hstep (set_cur Main w)). unfold record_turn; cbn [fst snd].
  destruct (record_live_stream_to_folder_step i m pc (set_cur Main w)) as [[pc'|e] w'];
    exact Hstep.
Qed.

(** Once entered, [record_live_stream_to_folder] never comes back to its
    first statement. *)
Lemma record_turn_started (i : Q) (m : Z) (w : world frame) (pc : rstate) :
  snd (record_turn i m (w, pc)) <> RInit.
Proof.
  destruct w as [? ? [its cap] ? ? v tgt ? ? ? ? ? ? ? ?].
  destruct pc as [|n|n| |e]; run_step;
    repeat match goal with
      | |- context [match ?x with _ => _ end] =>
          lazymatch x with
          | context [match _ with _ => _ end] => fail
          | _ => destruct x
          end
      end; discriminate.
Qed.

(** The same failure in [show_live_stream_video], which fetches in the main
    thread: the method is left by [SystemExit 1] there too, and the flag is
    not written. *)
Lemma show_turn_fetch_fails (w : world frame) (msg : string) :
  fst (_query_frame (set_cur Main w)) = Raise (IOError msg) ->
  snd (show_turn (w, SLoop)) = SRaised (SystemExit 1)
  /\ keep_querying (fst (show_turn (w, SLoop))) = keep_querying w
  /\ frames (fst (show_turn (w, SLoop))) = frames w.
Proof.
  intros Hfail. unfold show_turn, show_live_stream_video_step, bind, try_except.
  cbn [fst snd].
  destruct (_query_frame_touches (set_cur Main w)) as (n & tr & E).
  destruct (_query_frame (set_cur Main w)) as [[f|e] w1]; cbn [fst snd] in *;
    [discriminate|].
  injection Hfail as ->. subst w1. repeat split.
Qed.




(** ** The recording program *)

Lemma can_record_same (folder : string) (w w' : world frame) :
  same_settings w w' -> can_record folder w -> can_record folder w'.
Proof.
  unfold same_settings, can_record, always_ready, never_quit.
  intros (_ & A & B & _ & C & D & E & F) (T & Hm & Hf & Hl & Hr & Hq).
  rewrite A, B, C, D, E, F. auto 10.
Qed.

Lemma deque_append_nonempty (f : frame) (d : deque frame) :
  (1 <= maxlen d)%nat -> items (deque_append f d) <> [].
Proof.
  intros H. unfold deque_append; cbn [items].
  destruct (Nat.ltb_spec (maxlen d) (List.length (items d ++ [f]))) as [Hlt|_].
  - destruct (items d) as [|a [|b l]]; cbn in *; [lia|discriminate|discriminate].
  - destruct (items d); discriminate.
Qed.

(** A turn of the reader thread while the recording loop runs. *)
Lemma reader_turn_running (folder : string) (w : world frame) :
  can_record folder w -> reader_running w ->
  reader_running (reader_turn w)
  /\ match reader_thread w with
     | PLoop => frames (reader_turn w) = frames w
                /\ exists f, reader_thread (reader_turn w) = PGot f
     | PGot f => frames (reader_turn w) = deque_append f (frames w)
                 /\ reader_thread (reader_turn w) = PLoop
     | _ => True
     end.
Proof.
  intros (_ & _ & Hmax & _ & Hready & _) (Hrel & Hk & Hp).
  destruct (reader_thread w) as [| |f| |e] eqn:P; try contradiction.
  - assert (Hnext : exists f, next_read w 0 = Some f).
    { unfold next_read. rewrite Hrel, Nat.add_0_r. cbn [Nat.eqb].
      destruct (feed w (reads w)) as [f|] eqn:E; [eauto|]. elim (Hready _ E). }
    destruct Hnext as [f Hnext].
    rewrite (reader_turn_fetch_first w f P Hk Hmax Hnext).
    unfold reader_running. cbn. eauto 10.
  - rewrite (reader_turn_append w f P). unfold reader_running. cbn. auto 10.
Qed.

Lemma after_init_view (i : Q) (m : Z) (folder : string) (w : world frame) :
  same_settings w (after_init i m folder (set_cur Main w))
  /\ write_times (after_init i m folder (set_cur Main w)) = write_times w
  /\ images_written (after_init i m folder (set_cur Main w)) = images_written w
  /\ clock Main (trace (after_init i m folder (set_cur Main w))) = clock Main (trace w)
  /\ releases (after_init i m folder (set_cur Main w)) = releases w
  /\ keep_querying (after_init i m folder (set_cur Main w)) = keep_querying w
  /\ reader_thread (after_init i m folder (set_cur Main w)) = PLoop.
Proof. repeat split. Qed.

Lemma after_idle_view (folder : string) (n : Z) (w : world frame) :
  same_settings w (after_idle folder n (set_cur Main w))
  /\ write_times (after_idle folder n (set_cur Main w)) = write_times w
  /\ images_written (after_idle folder n (set_cur Main w)) = images_written w
  /\ clock Main (trace (after_idle folder n (set_cur Main w)))
     = clock Main (trace w) + micro_sleep_time w
  /\ releases (after_idle folder n (set_cur Main w)) = releases w
  /\ keep_querying (after_idle folder n (set_cur Main w)) = keep_querying w
  /\ reader_thread (after_idle folder n (set_cur Main w)) = reader_thread w.
Proof.
  unfold write_times, images_written, after_idle.
  cbn [trace set_trace set_key_polls set_cur cur verbose key_feed key_polls micro_sleep_time].
  rewrite progress_logs_times, progress_logs_count, progress_logs_clock.
  repeat split.
Qed.

Lemma after_write_view (i : Q) (folder : string) (n : Z) (x : frame) (l : list frame)
    (w : world frame) :
  let w' := after_write i folder n x l (set_cur Main w) in
  (maxlen (frames w') = maxlen (frames w)
   /\ stream_url w' = stream_url w
   /\ max_sequential_fail_attempts w' = max_sequential_fail_attempts w
   /\ micro_sleep_time w' = micro_sleep_time w
   /\ verbose w' = verbose w
   /\ target_folder_path w' = target_folder_path w
   /\ feed w' = feed w
   /\ key_feed w' = key_feed w)
  /\ write_times w' = clock Main (trace w) :: write_times w
  /\ images_written w' = S (images_written w)
  /\ clock Main (trace w') = clock Main (trace w) + i
  /\ releases w' = releases w
  /\ keep_querying w' = keep_querying w
  /\ reader_thread w' = reader_thread w.
Proof.
  unfold write_times, images_written, after_write.
  cbn [trace set_trace set_key_polls set_frames set_cur cur verbose key_feed key_polls
       frames maxlen].
  rewrite progress_logs_times, progress_logs_count, progress_logs_clock.
  repeat split.
Qed.

Lemma paced_same (i : Q) (w w' : world frame) :
  write_times w' = write_times w ->
  clock Main (trace w') = clock Main (trace w) ->
  paced i w -> paced i w'.
Proof. unfold paced. intros -> ->. auto. Qed.



(** Two turns of the reader thread leave a frame in the buffer. *)
Lemma reader_fills_buffer (folder : string) (w : world frame) :
  can_record folder w -> reader_running w ->
  items (frames (reader_turn (reader_turn w))) <> [].
Proof.
  intros Hc Hr.
  destruct (reader_turn_running folder w Hc Hr) as (Hr1 & H1).
  assert (Hc1 : can_record folder (reader_turn w))
    by (eapply can_record_same; [apply reader_turn_main_view|exact Hc]).
  destruct (reader_turn_running folder (reader_turn w) Hc1 Hr1) as (_ & H2).
  destruct Hr as (_ & _ & Hp).
  destruct (reader_thread w) as [| |f| |e]; try contradiction.
  - destruct H1 as (F1 & f & P1). rewrite P1 in H2. destruct H2 as (F2 & _).
    rewrite F2. apply deque_append_nonempty. apply Hc1.
  - destruct H1 as (F1 & P1). rewrite P1 in H2. destruct H2 as (F2 & _).
    rewrite F2, F1. apply deque_append_nonempty. apply Hc.
Qed.





End Properties.

(** * The theorems on concrete instances *)

Lemma example_instance_built (src : nat -> option nat) (keys : nat -> Z)
    (tgt : option string) :
  __init__ src keys "capture" "camera" tgt 3 true (1 # 100) 3
  = inr (example_instance src keys tgt).
Proof. destruct tgt as [[|c s]|]; reflexivity. Qed.

Lemma Qle_0_centi : 0 <= 1 # 100.
Proof. unfold Qle; simpl; lia. Defined.

Lemma Qle_0_1 : 0 <= 1.
Proof. unfold Qle; simpl; lia. Defined.

(** Scenario A: capacity 3, five frames pushed; and the same through the
    reader thread, from a source that counts its frames from 0. *)
Lemma push_keeps_most_recent_witness :
  items (push_all [0; 1; 2; 3; 4]%nat (mkDeque [] 3)) = [2; 3; 4]%nat
  /\ List.length (items (push_all [0; 1; 2; 3; 4]%nat (mkDeque [] 3))) = 3%nat
  /\ items (frames (reader_turns 10
              (fst (run 1 5 [Main]
                      (example_instance counting_source no_key None, RInit)))))
     = [2; 3; 4]%nat.
Proof.
  pose proof (push_keeps_most_recent 3 2 [0; 1; 2; 3; 4]%nat
                ltac:(lia) ltac:(reflexivity)) as (_ & H1 & H2 & _ & H4).
  split; [exact H1|]. split; [exact H2|].
  apply (H4 (fst (run 1 5 [Main] (example_instance counting_source no_key None, RInit))));
    try reflexivity; [simpl; lia|].
  intros j f Hj.
  do 5 (destruct j as [|j]; [exact Hj|]). destruct j; discriminate Hj.
Defined.

(** Scenario B, the fetch: three attempts, all absent. *)
Lemma _query_frame_exhausts_witness :
  let w := example_instance silent_source no_key None in
  fst (_query_frame w) = Raise (IOError no_output)
  /\ count_of is_read Main (absent_calls (frame:=nat) Main (1 # 100) 3) = 3%nat.
Proof.
  intros w.
  pose proof (_query_frame_exhausts w Qle_0_centi
                ltac:(intros; reflexivity)) as (H1 & _ & H3 & _).
  split; [exact H1|]. apply Nat2Z.inj. exact H3.
Defined.





(** A call that fails after three absences, then a call whose first read
    gives a frame. *)
Lemma _query_frame_first_attempt_witness :
  let w := example_instance late_source no_key None in
  fst (_query_frame w) = Raise (IOError no_output)
  /\ fst (_query_frame (snd (_query_frame w))) = Ok 3%nat.
Proof.
  intros w. split; [reflexivity|].
  pose proof (_query_frame_first_attempt w 3%nat ltac:(simpl; lia) ltac:(reflexivity))
    as (H & _).
  rewrite H. reflexivity.
Defined.



(** After the recording method has returned, further turns and calls leave
    the flag false. *)
Lemma keep_querying_never_reset_witness :
  let w := fst (run 1 1 [Main; Reader; Reader; Main; Main; Main]
                  (example_instance counting_source no_key None, RInit)) in
  keep_querying
    (apply_ops [OpReaderTurn; OpRecordTurn 1 1 RInit; OpShowTurn SInit;
                OpShowTurn SLoop; OpGetFrame Main true; OpQueryFrame Main;
                OpReaderTurn; OpRecordTurn 1 1 (RLoop 0)] w) = false.
Proof.
  intros w. apply keep_querying_never_reset. reflexivity.
Defined.

(** The constructor called with the folder [out]. *)
Lemma record_fails_when_folder_given_witness :
  let w := example_instance counting_source no_key (Some "out"%string) in
  target_folder_path w = None
  /\ record_turn 1 5 (w, RInit) = (set_cur Main w, RRaised (AttributeError no_attribute)).
Proof.
  intros w.
  pose proof (record_fails_when_folder_given counting_source no_key "capture" "camera"
                "out" 3 true (1 # 100) 3 w ltac:(discriminate)
                (example_instance_built counting_source no_key (Some "out"%string)))
    as (H0 & H).
  split; [exact H0|]. exact (proj1 (proj2 (H [] 1 5%Z))).
Defined.

(** A quota of zero. *)
Lemma record_nothing_when_quota_not_positive_witness :
  let s := run 1 0 [Main; Reader; Main; Reader; Main]
             (example_instance counting_source no_key None, RInit) in
  snd s = RDone /\ images_written (fst s) = 0%nat /\ keep_querying (fst s) = false.
Proof.
  intros s.
  assert (H0 : (0 <= 0)%Z) by lia.
  assert (H1 : 0%Z <> (-1)%Z) by lia.
  pose proof (record_nothing_when_quota_not_positive (frame:=nat) 1 0 H0 H1)
    as (_ & _ & _ & H).
  destruct (H (example_instance counting_source no_key None) "capture"%string
              [Main; Reader; Main; Reader; Main] ltac:(reflexivity)) as (C & K & D).
  assert (E : snd s = RDone) by (apply D; vm_compute; lia).
  split; [exact E|]. split; [exact C|exact (K E)].
Defined.

(** * More of the code: properties *)

Section MoreProperties.

Context {frame : Type}.

(** ** The buffer *)

(** X1: no sequence of operations on an instance makes its buffer longer than
    [maxlen], and none changes [maxlen]. *)
Theorem buffer_never_overflows (ops : list op) (w : world frame) :
  (List.length (items (frames w)) <= maxlen (frames w))%nat ->
  maxlen (frames (apply_ops ops w)) = maxlen (frames w)
  /\ (List.length (items (frames (apply_ops ops w))) <= maxlen (frames w))%nat.
Proof.
  intros H.
  assert (R : maxlen (frames (apply_ops ops w)) = maxlen (frames w)
              /\ ((List.length (items (frames w)) <= maxlen (frames w))%nat ->
                  (List.length (items (frames (apply_ops ops w)))
                   <= maxlen (frames (apply_ops ops w)))%nat)).
  { apply (apply_ops_respects
             (fun w w' : world frame =>
                maxlen (frames w') = maxlen (frames w)
                /\ ((List.length (items (frames w)) <= maxlen (frames w))%nat ->
                    (List.length (items (frames w')) <= maxlen (frames w'))%nat)));
      try (intros; simpl; split; [reflexivity|auto]; fail).
    - intros w1 w2 w3 (A1 & B1) (A2 & B2). split; [congruence|auto].
    - intros f w0. simpl. split; [reflexivity|]. intros H0.
      rewrite length_app. cbn [List.length].
      destruct (Nat.ltb_spec (maxlen (frames w0)) (List.length (items (frames w0)) + 1)).
      + destruct (items (frames w0)); cbn [app tl List.length] in *;
          [lia|rewrite length_app; cbn [List.length]; lia].
      + rewrite length_app. cbn [List.length]. lia.
    - intros x r w0 E. simpl. split; [reflexivity|]. intros H0.
      rewrite length_rev. rewrite <- (length_rev (items (frames w0))), E in H0.
      cbn [List.length] in H0. lia.
    - intros x l w0 E. simpl. split; [reflexivity|]. rewrite E. cbn [List.length]. lia. }
  destruct R as (A & B). split; [exact A|]. rewrite <- A. auto.
Qed.

Lemma get_frames_left (l : list frame) (C : nat) (w : world frame) :
  get_frames false (List.length l) (set_frames (mkDeque l C) w)
  = (Ok (map Some l), set_frames (mkDeque [] C) w).
Proof.
  induction l as [|x l IH]; [reflexivity|].
  cbn [List.length get_frames]. unfold bind at 1.
  change (get_frame_from_deque false (set_frames (mkDeque (x :: l) C) w))
    with (Ok (Some x), set_frames (mkDeque l C) w).
  unfold bind at 1. rewrite IH. reflexivity.
Qed.

Lemma get_frames_right (l : list frame) (C : nat) (w : world frame) :
  get_frames true (List.length l) (set_frames (mkDeque l C) w)
  = (Ok (map Some (rev l)), set_frames (mkDeque [] C) w).
Proof.
  induction l as [|x l IH] using rev_ind; [reflexivity|].
  rewrite length_app, Nat.add_comm. cbn [List.length Nat.add get_frames].
  unfold bind at 1.
  assert (E : get_frame_from_deque true (set_frames (mkDeque (l ++ [x]) C) w)
              = (Ok (Some x), set_frames (mkDeque l C) w)).
  { unfold get_frame_from_deque, bind, gets, deque_bool, deque_pop.
    cbn [frames set_frames items maxlen].
    rewrite rev_app_distr; cbn [rev app].
    destruct l as [|a l]; cbn [app]; rewrite rev_involutive; reflexivity. }
  rewrite E. unfold bind at 1. rewrite IH.
  rewrite rev_app_distr. reflexivity.
Qed.

Lemma get_frames_app (b : bool) (n k : nat) (w : world frame) :
  get_frames b (n + k) w
  = match get_frames b n w with
    | (Ok xs, w1) =>
        match get_frames b k w1 with
        | (Ok ys, w2) => (Ok (xs ++ ys), w2)
        | (Raise e, w2) => (Raise e, w2)
        end
    | (Raise e, w1) => (Raise e, w1)
    end.
Proof.
  revert w; induction n as [|n IH]; intros w.
  - cbn [Nat.add get_frames ret]. destruct (get_frames b k w) as [[ys|e] w2]; reflexivity.
  - cbn [Nat.add get_frames]. unfold bind, ret.
    destruct (get_frame_from_deque b w) as [[x|e] w1]; [|reflexivity].
    rewrite IH.
    destruct (get_frames b n w1) as [[xs|e] w2]; [|reflexivity].
    destruct (get_frames b k w2) as [[ys|e] w3]; reflexivity.
Qed.

(** X2: calls of [get_frame_from_deque] in a row hand out the frames of the
    buffer oldest first when [pop_right] is false and newest first when it is
    true, each frame once; the call that follows the last frame returns
    [None]; no call raises. *)
Theorem get_frames_drain (l : list frame) (C : nat) (w : world frame) :
  get_frames false (S (List.length l)) (set_frames (mkDeque l C) w)
  = (Ok (map Some l ++ [None]), set_frames (mkDeque [] C) w)
  /\ get_frames true (S (List.length l)) (set_frames (mkDeque l C) w)
     = (Ok (map Some (rev l) ++ [None]), set_frames (mkDeque [] C) w).
Proof.
  replace (S (List.length l)) with (List.length l + 1)%nat by lia.
  rewrite !get_frames_app, get_frames_left, get_frames_right. split; reflexivity.
Qed.

(** ** [_query_frame]: absences followed by a frame *)

Lemma _query_frame_loop_retries (k : nat) (n : Z) (w : world frame) (f : frame) :
  0 <= micro_sleep_time w ->
  (forall i, (i < k)%nat -> next_read w i = None) ->
  next_read w k = Some f ->
  (n + Z.of_nat k < max_sequential_fail_attempts w)%Z ->
  _query_frame_loop (Z.to_nat (max_sequential_fail_attempts w - n)) n w
  = (Ok f, after_read (Some f) (after_absences (micro_sleep_time w) k w)).
Proof.
  revert n w; induction k as [|k IH]; intros n w Hd Habs Hf Hlt;
    rewrite _query_frame_loop_eq;
    (destruct (Z.ltb_spec n (max_sequential_fail_attempts w)) as [Hn|Hn]; [|lia]);
    (destruct (Z.to_nat (max_sequential_fail_attempts w - n)) as [|fuel] eqn:Efuel; [lia|]).
  - rewrite Hf. reflexivity.
  - rewrite (Habs O) by lia.
    pose proof Hd as Hd'. apply Qle_bool_iff in Hd'. rewrite Hd'.
    set (w1 := after_sleep (micro_sleep_time w) (after_read None w)).
    assert (Efuel' : fuel = Z.to_nat (max_sequential_fail_attempts w1 - (n + 1))).
    { subst w1. cbn [after_sleep after_read set_trace set_reads max_sequential_fail_attempts].
      lia. }
    rewrite Efuel'. rewrite (IH (n + 1)%Z w1).
    + reflexivity.
    + exact Hd.
    + intros i Hi. subst w1. rewrite next_read_after_absence. apply Habs. lia.
    + subst w1. rewrite next_read_after_absence. exact Hf.
    + subst w1. cbn [after_sleep after_read set_trace set_reads max_sequential_fail_attempts].
      lia.
Qed.

Lemma next_read_after_absences (d : Q) (k : nat) (w : world frame) (i : nat) :
  next_read (after_absences d k w) i = next_read w (k + i).
Proof.
  revert w; induction k as [|k IH]; intros w; [reflexivity|].
  cbn [after_absences]. rewrite IH, next_read_after_absence.
  try (f_equal; lia).
Qed.

(** X3: when the source is absent [k] times and then yields a frame, a call of
    [_query_frame] returns that frame after [k + 1] reads and [k] sleeps if
    [k < max_sequential_fail_attempts]; otherwise it raises [IOError] after
    [max_sequential_fail_attempts] reads (none if that number is not
    positive) and the frame stays in the source for a later call. *)
Theorem _query_frame_retries (w : world frame) (k : nat) (f : frame) :
  0 <= micro_sleep_time w ->
  (forall i, (i < k)%nat -> next_read w i = None) ->
  next_read w k = Some f ->
  let max := max_sequential_fail_attempts w in
  let d := micro_sleep_time w in
  ((Z.of_nat k < max)%Z ->
     _query_frame w = (Ok f, after_read (Some f) (after_absences d k w))
     /\ trace (snd (_query_frame w))
        = (cur w, EvRead (Some f)) :: absent_calls (cur w) d k ++ trace w)
  /\ ((max <= Z.of_nat k)%Z ->
     _query_frame w = (Raise (IOError no_output), after_absences d (Z.to_nat max) w)
     /\ trace (snd (_query_frame w)) = absent_calls (cur w) d (Z.to_nat max) ++ trace w
     /\ next_read (snd (_query_frame w)) (k - Z.to_nat max) = Some f).
Proof.
  intros Hd Habs Hf max d. split.
  - intros Hlt.
    assert (E : _query_frame w = (Ok f, after_read (Some f) (after_absences d k w))).
    { unfold _query_frame, bind, gets.
      replace (Z.to_nat (max_sequential_fail_attempts w))
        with (Z.to_nat (max_sequential_fail_attempts w - 0)) by (f_equal; lia).
      apply _query_frame_loop_retries; try assumption; subst max; lia. }
    split; [exact E|]. rewrite E. cbn [snd]. subst d.
    rewrite after_absences_frame. reflexivity.
  - intros Hge.
    assert (E : _query_frame w
                = (Raise (IOError no_output), after_absences d (Z.to_nat max) w)).
    { unfold _query_frame, bind, gets.
      apply _query_frame_loop_absent; [f_equal; lia|exact Hd|].
      intros i Hi. apply Habs. subst max. lia. }
    split; [exact E|]. rewrite E. cbn [snd]. split.
    + subst d. rewrite after_absences_frame. reflexivity.
    + rewrite next_read_after_absences.
      replace (Z.to_nat max + (k - Z.to_nat max))%nat with k by (subst max; lia).
      exact Hf.
Qed.

(** ** From the source to the disk *)











(** What a fetch adds to the trace: the frame it returns, if it returns. *)
Lemma _query_frame_loop_frames (fuel : nat) (n : Z) (w : world frame) :
  reads_of (trace (snd (_query_frame_loop fuel n w)))
  = match fst (_query_frame_loop fuel n w) with
    | Ok f => f :: reads_of (trace w)
    | Raise _ => reads_of (trace w)
    end
  /\ writes_of (trace (snd (_query_frame_loop fuel n w))) = writes_of (trace w)
  /\ shows_of (trace (snd (_query_frame_loop fuel n w))) = shows_of (trace w).
Proof.
  revert n w; induction fuel as [|fuel IH]; intros n w;
    rewrite _query_frame_loop_eq;
    destruct (n <? max_sequential_fail_attempts w)%Z; try (repeat split; fail).
  destruct (next_read w 0) as [f|]; [repeat split|].
  destruct (Qle_bool 0 (micro_sleep_time w)); [|repeat split].
  destruct (IH (n + 1)%Z (after_sleep (micro_sleep_time w) (after_read None w)))
    as (A & B & C).
  rewrite A, B, C. repeat split.
Qed.

Lemma _query_frame_frames (w : world frame) :
  reads_of (trace (snd (_query_frame w)))
  = match fst (_query_frame w) with
    | Ok f => f :: reads_of (trace w)
    | Raise _ => reads_of (trace w)
    end
  /\ writes_of (trace (snd (_query_frame w))) = writes_of (trace w)
  /\ shows_of (trace (snd (_query_frame w))) = shows_of (trace w).
Proof. apply _query_frame_loop_frames. Qed.


Ltac unfold_turn :=
  cbv beta iota delta
    [record_turn record_live_stream_to_folder_step show_turn show_live_stream_video_step
     bind gets modify ret raise emit
     self_target_folder_path logging_info signal_stop_querying time_sleep cv2_waitKey
     get_frame_from_deque deque_bool deque_popleft fst snd
     set_frames set_keep_querying set_reads set_releases set_key_polls
     set_reader_thread set_cur set_trace
     stream_url max_sequential_fail_attempts frames micro_sleep_time keep_querying
     verbose target_folder_path feed reads releases key_feed key_polls reader_thread
     cur trace items maxlen].

Ltac split_cases :=
  repeat match goal with
    | |- context [match ?x with _ => _ end] =>
        lazymatch x with
        | context [match _ with _ => _ end] => fail
        | _ => destruct x
        end
    end.




(** ** A buffer of size 0 *)

Lemma record_turn_settings (i : Q) (m : Z) (w : world frame) (pc : rstate) :
  same_settings w (fst (record_turn i m (w, pc))).
Proof.
  change (same_settings (fst (w, pc)) (fst (record_turn i m (w, pc)))).
  apply (record_turn_respects same_settings);
    [apply same_settings_refl|apply same_settings_trans|..];
    intros; unfold same_settings; simpl; auto 10.
Qed.

Lemma reader_turn_writes (w : world frame) :
  writes_of (trace (reader_turn w)) = writes_of (trace w).
Proof.
  destruct (reader_thread w) as [| |f| |e] eqn:P.
  - rewrite reader_turn_rest by (rewrite P; exact I). reflexivity.
  - destruct (keep_querying w) eqn:K.
    + rewrite (reader_turn_fetch w P K).
      destruct (_query_frame_frames (set_cur Reader w)) as (_ & W & _).
      destruct (_query_frame (set_cur Reader w)) as [[f|e] w1]; cbn [fst snd] in *;
        [exact W|destruct e; exact W].
    + rewrite (reader_turn_stop w P K). reflexivity.
  - rewrite (reader_turn_append w f P). reflexivity.
  - rewrite reader_turn_rest by (rewrite P; exact I). reflexivity.
  - rewrite reader_turn_rest by (rewrite P; exact I). reflexivity.
Qed.

Lemma reader_turn_no_room (w : world frame) :
  maxlen (frames w) = 0%nat -> items (frames w) = [] ->
  items (frames (reader_turn w)) = [].
Proof.
  intros Hm He.
  destruct (reader_thread w) as [| |f| |e] eqn:P.
  - rewrite reader_turn_rest by (rewrite P; exact I). exact He.
  - destruct (keep_querying w) eqn:K.
    + destruct (reader_turn_fetch_view w P K) as (F & _). rewrite F. exact He.
    + rewrite (reader_turn_stop w P K). exact He.
  - rewrite (reader_turn_append w f P).
    cbn [set_reader_thread set_frames set_cur frames]. unfold deque_append.
    rewrite Hm, He. reflexivity.
  - rewrite reader_turn_rest by (rewrite P; exact I). exact He.
  - rewrite reader_turn_rest by (rewrite P; exact I). exact He.
Qed.

Lemma record_turn_empty (i : Q) (m : Z) (w : world frame) (pc : rstate) :
  items (frames w) = [] ->
  items (frames (fst (record_turn i m (w, pc)))) = []
  /\ writes_of (trace (fst (record_turn i m (w, pc)))) = writes_of (trace w).
Proof.
  destruct w as [? ? [its cap] ? ? v tgt ? ? ? ? ? p ? tr]. cbn [frames items].
  intros ->.
  destruct pc as [|n|n| |e]; unfold_turn; split_cases;
    cbn [fst snd trace frames items writes_of]; split; reflexivity.
Qed.

Lemma record_turn_starved (i : Q) (m n : Z) (w : world frame) :
  items (frames w) = [] ->
  (n <? m)%Z || (m =? -1)%Z = true ->
  is_quit (key_feed w (key_polls w)) = false ->
  snd (record_turn i m (w, RLoop n)) = RLoop n
  \/ exists e, snd (record_turn i m (w, RLoop n)) = RRaised e.
Proof.
  destruct w as [? ? [its cap] ? ? v tgt ? ? ? ? ? p ? tr].
  cbn [frames items key_feed key_polls]. intros -> Hc Hq.
  unfold_turn. rewrite Hc. split_cases; try discriminate; cbn [snd]; eauto.
Qed.

(** X5: with a buffer of size 0 ([deque(maxlen=0)] drops what is appended)
    the recording program never writes an image, under any schedule and for
    any source; with a quota of at least 1, or -1, and no quit key, the method
    stays in its loop for ever unless it is left by an exception. *)
Theorem nothing_recorded_without_buffer
    (src : nat -> option frame) (keys : nat -> Z) (default_folder url : string)
    (tgt : option string) (v : bool) (micro : Q) (maxf : Z)
    (i : Q) (m : Z) (w0 : world frame) (sched : list tid) :
  __init__ src keys default_folder url tgt 0 v micro maxf = inr w0 ->
  let s := run i m sched (w0, RInit) in
  items (frames (fst s)) = []
  /\ writes_of (trace (fst s)) = []
  /\ ((1 <= m)%Z \/ m = (-1)%Z ->
      (forall k, is_quit (keys k) = false) ->
      snd s = RInit \/ snd s = RLoop 0 \/ exists e, snd s = RRaised e).
Proof.
  intros Hinit s. cbn in Hinit. injection Hinit as <-.
  set (Inv := fun s : world frame * rstate =>
    key_feed (fst s) = keys
    /\ maxlen (frames (fst s)) = 0%nat
    /\ items (frames (fst s)) = []
    /\ writes_of (trace (fst s)) = []
    /\ ((1 <= m)%Z \/ m = (-1)%Z ->
        (forall k, is_quit (keys k) = false) ->
        snd s = RInit \/ snd s = RLoop 0 \/ exists e, snd s = RRaised e)).
  assert (Hinv : Inv s).
  { subst s. apply (run_invariant i m Inv).
    - unfold Inv. intros [w pc] t (Hk & Hm & He & Hw & Hpc); cbn [fst snd] in *.
      destruct t; cbn [turn fst snd].
      + destruct (record_turn_settings i m w pc) as (_ & _ & _ & _ & _ & _ & S7 & S8).
        destruct (record_turn_empty i m w pc He) as (E1 & E2).
        split; [congruence|]. split; [congruence|]. split; [exact E1|].
        split; [congruence|]. intros Hq Hn.
        destruct (Hpc Hq Hn) as [->|[->|[e ->]]].
        * destruct (target_folder_path w) as [folder|] eqn:T.
          -- rewrite (record_turn_init i m w folder T). cbn [snd]. auto.
          -- rewrite (record_turn_init_fails i m w T). cbn [snd]. eauto.
        * destruct (record_turn_starved i m 0 w He) as [E|E]; auto.
          -- apply orb_true_iff. destruct Hq as [Hq| ->];
               [left; apply Z.ltb_lt; lia|right; reflexivity].
          -- rewrite Hk. apply Hn.
        * rewrite record_turn_over by exact I. cbn [snd]. eauto.
      + destruct (reader_turn_main_view w) as ((_ & _ & _ & _ & _ & _ & S7 & S8) & _).
        split; [congruence|]. split; [congruence|].
        split; [apply reader_turn_no_room; assumption|].
        split; [rewrite reader_turn_writes; exact Hw|exact Hpc].
    - unfold Inv; cbn. auto 10. }
  destruct Hinv as (_ & _ & He & Hw & Hpc). auto.
Qed.

(** ** Recording without a quota *)

Lemma streaming_inv_turn (i : Q) (folder : string) (t : tid) (s : world frame * rstate) :
  0 <= i ->
  streaming_inv i folder s -> streaming_inv i folder (turn i (-1) t s).
Proof.
  intros Hi. destruct s as [w pc]. unfold streaming_inv; cbn [fst snd].
  intros (Hc & Hp & Hpc). destruct t; cbn [turn fst snd].
  - (* the main thread *)
    destruct pc as [|n|n| |e]; try contradiction.
    + destruct Hpc as (P & K & R & W). destruct Hc as (T & Hc).
      rewrite (record_turn_init i (-1) w folder T). cbn [fst snd].
      destruct (after_init_view i (-1) folder w) as (S1 & S2 & S3 & S4 & S5 & S6 & S7).
      split; [eapply can_record_same; [exact S1|exact (conj T Hc)]|].
      split; [eapply paced_same; eassumption|].
      split; [rewrite S3, W; reflexivity|].
      unfold reader_running. rewrite S5, S6, S7. auto.
    + destruct Hpc as (W & R).
      pose proof Hc as (T & Hd & _ & _ & _ & Hq).
      assert (Hcond : (n <? -1)%Z || (-1 =? -1)%Z = true) by apply orb_true_r.
      destruct (items (frames w)) as [|x l] eqn:F.
      * rewrite (record_turn_idle i (-1) n w folder Hcond F T Hd (Hq _)). cbn [fst snd].
        destruct (after_idle_view folder n w) as (S1 & S2 & S3 & S4 & S5 & S6 & S7).
        split; [eapply can_record_same; eassumption|].
        split.
        { unfold paced in *. rewrite S2, S4. destruct Hp as (G & L).
          split; [exact G|]. destruct (write_times w); [exact I|]. lra. }
        split; [rewrite S3; exact W|].
        unfold reader_running in *. rewrite S5, S6, S7. exact R.
      * rewrite (record_turn_write i (-1) n w folder x l Hcond F T Hi (Hq _)).
        cbn [fst snd].
        destruct (after_write_view i folder n x l w)
          as ((A1 & A2 & A3 & A4 & A5 & A6 & A7 & A8) & S2 & S3 & S4 & S5 & S6 & S7).
        split; [eapply can_record_same; [|exact Hc]; unfold same_settings; auto 10|].
        split.
        { unfold paced in *. rewrite S2, S4. destruct Hp as (G & L).
          cbn [gaps_ok]. split; [split; assumption|apply Qle_refl]. }
        split; [rewrite S3; lia|].
        unfold reader_running in *. rewrite S5, S6, S7. exact R.
  - (* the reader thread *)
    destruct (reader_turn_main_view w) as (S & K & _ & Cn & Ck & Ct).
    split; [eapply can_record_same; eassumption|].
    split; [eapply paced_same; [apply Ct|exact Ck|exact Hp]|].
    unfold images_written in *. rewrite Cn, K.
    destruct pc as [|n|n| |e]; try exact Hpc.
    + destruct Hpc as (P & K' & R & W).
      rewrite reader_turn_rest by (rewrite P; exact I).
      cbn [set_cur reader_thread releases]. auto.
    + destruct Hpc as (W & R).
      split; [exact W|].
      apply (reader_turn_running folder w Hc R).
Qed.

Lemma streaming_inv_run (i : Q) (folder : string) (sched : list tid)
    (s : world frame * rstate) :
  0 <= i ->
  streaming_inv i folder s -> streaming_inv i folder (run i (-1) sched s).
Proof.
  intros Hi. apply run_invariant. intros s' t. apply streaming_inv_turn; assumption.
Qed.

(** A round in which the reader thread takes two turns and the main thread
    one: an image is written, unless the round is the one that starts the
    method. *)
Lemma streaming_round (i : Q) (folder : string) (s : world frame * rstate) :
  0 <= i ->
  streaming_inv i folder s ->
  snd (run i (-1) [Reader; Reader; Main] s) <> RInit
  /\ images_written (fst (run i (-1) [Reader; Reader; Main] s))
     = (images_written (fst s) + match snd s with RInit => 0 | _ => 1 end)%nat.
Proof.
  intros Hi Hinv. destruct s as [w pc].
  pose proof (streaming_inv_run i folder [Reader; Reader] (w, pc) Hi Hinv) as Hinv2.
  change (run i (-1) [Reader; Reader; Main] (w, pc))
    with (record_turn i (-1) (reader_turn (reader_turn w), pc)).
  change (run i (-1) [Reader; Reader] (w, pc))
    with (reader_turn (reader_turn w), pc) in Hinv2.
  split; [apply record_turn_started|].
  assert (Hsame : images_written (reader_turn (reader_turn w)) = images_written w).
  { unfold images_written.
    destruct (reader_turn_main_view (reader_turn w)) as (_ & _ & _ & C2 & _).
    destruct (reader_turn_main_view w) as (_ & _ & _ & C1 & _).
    rewrite C2, C1. reflexivity. }
  destruct Hinv as (Hc & _ & Hpc). destruct Hinv2 as (Hc2 & _ & Hpc2).
  cbn [fst snd] in *. set (w2 := reader_turn (reader_turn w)) in *.
  pose proof Hc2 as (T & Hd & _ & _ & _ & Hq).
  destruct pc as [|n|n| |e]; try contradiction.
  - rewrite (record_turn_init i (-1) w2 folder T). cbn [fst].
    destruct (after_init_view i (-1) folder w2) as (_ & _ & S3 & _).
    rewrite S3, Hsame. lia.
  - destruct Hpc as (_ & R).
    pose proof (reader_fills_buffer folder w Hc R) as Hne. fold w2 in Hne.
    destruct (items (frames w2)) as [|x l] eqn:F; [contradiction|].
    rewrite (record_turn_write i (-1) n w2 folder x l (orb_true_r _) F T Hi (Hq _)).
    cbn [fst].
    destruct (after_write_view i folder n x l w2) as (_ & _ & S3 & _).
    rewrite S3, Hsame. lia.
Qed.

Lemma streaming_rounds (i : Q) (folder : string) (k : nat) (s : world frame * rstate) :
  0 <= i ->
  streaming_inv i folder s -> snd s <> RInit ->
  images_written (fst (run i (-1) (rounds k) s)) = (images_written (fst s) + k)%nat.
Proof.
  intros Hi. revert s; induction k as [|k IH]; intros s Hinv Hpc.
  - cbn [rounds repeat List.concat run fold_left]. lia.
  - change (rounds (S k)) with ([Reader; Reader; Main] ++ rounds k).
    rewrite run_app.
    destruct (streaming_round i folder s Hi Hinv) as (Hpc' & Himg).
    rewrite IH; [|apply streaming_inv_run; assumption|exact Hpc'].
    rewrite Himg. destruct (snd s); [contradiction|lia..].
Qed.

(** X6: called with [max_num_images = -1] (the default of the script) on a
    source that always has a frame, with the target folder set, valid sleep
    lengths and no quit key, [record_live_stream_to_folder] never returns and
    never raises, under any schedule: it stays in its loop with
    [num_images_saved] equal to the number of images written, it never asks
    the reader to stop, the device is never released, writes are at least
    [interval_in_seconds] apart, and every further round of turns writes one
    more image, so that the number of images has no bound. *)
Theorem record_without_quota
    (src : nat -> option frame) (keys : nat -> Z) (default_folder url : string)
    (tgt : option string) (buffer_size : Z) (v : bool) (micro : Q) (maxf : Z)
    (i : Q) (w0 : world frame) (sched : list tid) :
  0 <= i -> 0 <= micro -> (1 <= buffer_size)%Z -> (1 <= maxf)%Z ->
  str_bool tgt = false ->
  (forall k, src k <> None) ->
  (forall k, is_quit (keys k) = false) ->
  __init__ src keys default_folder url tgt buffer_size v micro maxf = inr w0 ->
  let s := run i (-1) sched (w0, RInit) in
  (snd s = RInit \/ snd s = RLoop (Z.of_nat (images_written (fst s))))
  /\ keep_querying (fst s) = true
  /\ releases (fst s) = 0%nat
  /\ gaps_ok i (write_times (fst s))
  /\ forall k,
       (images_written (fst s) + k
        <= images_written (fst (run i (-1) (sched ++ rounds (S k)) (w0, RInit))))%nat.
Proof.
  intros Hi Hd Hb Hf Ht Hs Hq Hinit s.
  assert (H0 : streaming_inv i default_folder (w0, RInit)).
  { unfold __init__, deque_new in Hinit.
    destruct (Z.ltb_spec buffer_size 0); [lia|].
    injection Hinit as <-. rewrite Ht.
    unfold streaming_inv, can_record, paced, always_ready, never_quit.
    cbn. repeat split; auto. lia. }
  pose proof (streaming_inv_run i default_folder sched (w0, RInit) Hi H0) as Hinv.
  fold s in Hinv.
  assert (Hk : forall k,
    (images_written (fst s) + k
     <= images_written (fst (run i (-1) (sched ++ rounds (S k)) (w0, RInit))))%nat).
  { intros k. rewrite run_app. fold s.
    destruct (streaming_round i default_folder s Hi Hinv) as (Hpc' & Himg).
    change (rounds (S k)) with ([Reader; Reader; Main] ++ rounds k).
    rewrite run_app.
    rewrite (streaming_rounds i default_folder k _ Hi
               (streaming_inv_run i default_folder _ s Hi Hinv) Hpc').
    rewrite Himg. lia. }
  destruct Hinv as (_ & (G & _) & Hpc).
  destruct (snd s) as [|n|n| |e]; try contradiction.
  - destruct Hpc as (_ & K & R & _). auto 10.
  - destruct Hpc as (W & R & K & _). rewrite W. auto 10.
Qed.

(** ** Schedules, with a bound on the turns that a thread still needs *)

Lemma run_ranked (i : Q) (m : Z) (t : tid) (Inv : nat -> world frame * rstate -> Prop) :
  (forall k s, Inv k s -> Inv (k - 1)%nat (turn i m t s)) ->
  (forall k s t', tid_eqb t t' = false -> Inv k s -> Inv k (turn i m t' s)) ->
  forall sched k s, Inv k s -> Inv (k - turns_of t sched)%nat (run i m sched s).
Proof.
  intros Hown Hother. induction sched as [|a sched IH]; intros k s H.
  - cbn [turns_of filter List.length run fold_left]. rewrite Nat.sub_0_r. exact H.
  - rewrite run_cons. unfold turns_of. cbn [filter].
    destruct (tid_eqb t a) eqn:E.
    + assert (a = t) as -> by (destruct t, a; first [reflexivity|discriminate]).
      cbn [List.length].
      replace (k - S (List.length (filter (tid_eqb t) sched)))%nat
        with ((k - 1) - turns_of t sched)%nat by (unfold turns_of; lia).
      apply IH, Hown, H.
    + apply IH, Hother; assumption.
Qed.

(** ** The quit key in the recording loop *)

Lemma record_turn_quit (i : Q) (m n : Z) (w : world frame) (folder : string) :
  (n <? m)%Z || (m =? -1)%Z = true ->
  target_folder_path w = Some folder ->
  0 <= i -> 0 <= micro_sleep_time w ->
  is_quit (key_feed w (key_polls w)) = true ->
  record_turn i m (w, RLoop n)
  = (after_quit i folder (set_cur Main w),
     RStop (n + Z.of_nat (List.length (firstn 1 (items (frames w)))))).
Proof.
  intros Hc Ht Hi Hd Hq. apply Qle_bool_iff in Hi. apply Qle_bool_iff in Hd.
  destruct w as [? ? [its cap] ? ? v ? ? ? ? ? ? ? ? ?].
  cbn [target_folder_path micro_sleep_time key_feed key_polls] in *. subst.
  unfold after_quit, quit_calls. destruct its as [|x l]; unfold_turn;
    rewrite Hc, ?Hi, ?Hd, Hq; cbn [tl firstn List.length Z.of_nat app];
    rewrite ?Z.add_0_r; reflexivity.
Qed.

Lemma after_quit_view (i : Q) (folder : string) (w : world frame) :
  same_settings w (after_quit i folder (set_cur Main w))
  /\ key_polls (after_quit i folder (set_cur Main w)) = S (key_polls w)
  /\ keep_querying (after_quit i folder (set_cur Main w)) = keep_querying w
  /\ images_written (after_quit i folder (set_cur Main w))
     = (images_written w + List.length (firstn 1 (items (frames w))))%nat.
Proof.
  unfold same_settings, images_written, after_quit, quit_calls.
  destruct w as [? ? [its cap] ? ? v ? ? ? ? ? ? ? ? ?].
  destruct its as [|x l]; cbn [set_cur set_trace set_key_polls set_frames cur trace
      frames items maxlen key_polls keep_querying stream_url max_sequential_fail_attempts
      micro_sleep_time verbose target_folder_path feed key_feed tl app firstn List.length
      count_of tid_eqb is_imwrite andb];
    rewrite ?Nat.add_0_r, ?Nat.add_1_r; auto 12.
Qed.

(** X7: an iteration of the recording loop whose key poll reports [q] first
    does its work (the head of the buffer, if there is one, is written and
    the sleep is made), then leaves the loop without a progress message; from
    there, under any schedule, at most that one image is written, the
    keyboard is not polled again, and the second turn of the main thread has
    returned from the method with [keep_querying] false. *)
Theorem record_stops_on_quit_key (i : Q) (m n : Z) (w : world frame) (folder : string) :
  (n <? m)%Z || (m =? -1)%Z = true ->
  target_folder_path w = Some folder ->
  0 <= i -> 0 <= micro_sleep_time w ->
  is_quit (key_feed w (key_polls w)) = true ->
  record_turn i m (w, RLoop n)
  = (after_quit i folder (set_cur Main w),
     RStop (n + Z.of_nat (List.length (firstn 1 (items (frames w))))))
  /\ forall sched : list tid,
       let s := run i m sched (w, RLoop n) in
       (images_written (fst s) <= images_written w + 1)%nat
       /\ (key_polls (fst s) <= S (key_polls w))%nat
       /\ (snd s = RDone -> keep_querying (fst s) = false)
       /\ ((2 <= turns_of Main sched)%nat -> snd s = RDone).
Proof.
  intros Hc Ht Hi Hd Hq.
  split; [apply record_turn_quit; assumption|].
  intros sched s.
  set (Inv := fun (k : nat) (s : world frame * rstate) =>
    (turns_left (snd s) <= k)%nat
    /\ same_settings w (fst s)
    /\ match snd s with
       | RLoop n' =>
           n' = n /\ key_polls (fst s) = key_polls w
           /\ images_written (fst s) = images_written w
       | RStop _ =>
           key_polls (fst s) = S (key_polls w)
           /\ (images_written (fst s) <= images_written w + 1)%nat
       | RDone =>
           key_polls (fst s) = S (key_polls w)
           /\ (images_written (fst s) <= images_written w + 1)%nat
           /\ keep_querying (fst s) = false
       | _ => False
       end).
  assert (Hrun : Inv (2 - turns_of Main sched)%nat s).
  { subst s. apply (run_ranked i m Main Inv).
    - (* a turn of the main thread *)
      intros k [w1 pc] (L & S & P). cbn [fst snd turn] in *.
      pose proof S as (_ & _ & S3 & _ & S5 & _ & S7 & _).
      destruct pc as [|n1|n1| |e]; try contradiction.
      + destruct P as (-> & P1 & P2).
        rewrite (record_turn_quit i m n w1 folder Hc);
          [|congruence|exact Hi|rewrite S3; exact Hd|rewrite S7, P1; exact Hq].
        destruct (after_quit_view i folder w1) as (V1 & V2 & _ & V4).
        unfold Inv; cbn [fst snd turns_left] in *.
        split; [lia|]. split; [eapply same_settings_trans; eassumption|].
        split; [congruence|]. rewrite V4, P2.
        destruct (items (frames w1)) as [|x [|y l]]; cbn [firstn List.length]; lia.
      + destruct P as (P1 & P2). rewrite record_turn_stop.
        destruct (after_stop_view n1 (set_cur Main w1)) as (K & _ & _ & _ & C & _).
        unfold Inv; cbn [fst snd turns_left] in *.
        split; [lia|]. split.
        { eapply same_settings_trans; [exact S|].
          unfold same_settings, after_stop. cbn. auto 10. }
        split; [exact P1|]. split; [|exact K].
        unfold images_written in *. rewrite C. exact P2.
      + rewrite record_turn_over by exact I.
        unfold Inv; cbn [fst snd turns_left] in *.
        split; [lia|]. split; [exact S|exact P].
    - (* a turn of the reader thread *)
      intros k [w1 pc] t' E (L & S & P). destruct t'; [discriminate|].
      cbn [fst snd turn] in *.
      destruct (reader_turn_main_view w1) as (S' & K & Po & Cn & _).
      unfold Inv; cbn [fst snd]. split; [exact L|].
      split; [eapply same_settings_trans; eassumption|].
      unfold images_written in *. rewrite Po, K, Cn. exact P.
    - unfold Inv; cbn [fst snd turns_left].
      split; [lia|]. split; [apply same_settings_refl|auto]. }
  destruct Hrun as (L & _ & P).
  destruct (snd s) as [|n1|n1| |e]; try contradiction; cbn [turns_left] in L.
  - destruct P as (_ & P1 & P2).
    split; [lia|]. split; [lia|]. split; [discriminate|]. intros; lia.
  - destruct P as (P1 & P2).
    split; [lia|]. split; [lia|]. split; [discriminate|]. intros; lia.
  - destruct P as (P1 & P2 & K).
    split; [lia|]. split; [lia|]. split; auto.
Qed.

(** ** The reader thread after the stop request *)

Lemma deque_append_length (f : frame) (d : deque frame) :
  (List.length (items (deque_append f d)) <= S (List.length (items d)))%nat.
Proof.
  unfold deque_append; cbn [items].
  destruct (maxlen d <? List.length (items d ++ [f]))%nat.
  - destruct (items d); cbn [app tl List.length]; [lia|].
    rewrite length_app; cbn [List.length]; lia.
  - rewrite length_app; cbn [List.length]; lia.
Qed.

(** *** The reader thread, one statement at a time *)

Lemma set_cur_same (t : tid) (w : world frame) : cur w = t -> set_cur t w = w.
Proof. destruct w; cbn; intros <-; reflexivity. Qed.

Lemma set_reader_thread_same (p : pstate frame) (w : world frame) :
  reader_thread w = p -> set_reader_thread p w = w.
Proof. destruct w; cbn; intros <-; reflexivity. Qed.

Lemma fine_reader_turn_test (w : world frame) :
  fine_reader_turn (w, QTest)
  = if keep_querying w
    then (set_reader_thread PLoop (set_cur Reader w), QAttempt 0)
    else (set_reader_thread PDone (after_release (set_cur Reader w)), QDone).
Proof.
  destruct w as [? ? ? ? kq ? ? ? ? ? ? ? ? ? ?]. destruct kq; reflexivity.
Qed.

Lemma fine_reader_turn_got (w : world frame) (f : frame) :
  fine_reader_turn (w, QGot f)
  = (set_reader_thread PLoop (set_frames (deque_append f (frames w)) (set_cur Reader w)),
     QTest).
Proof. reflexivity. Qed.

Lemma fine_reader_turn_rest (w : world frame) (q : qstate frame) :
  match q with QIdle | QDone | QRaised _ => True | _ => False end ->
  fine_reader_turn (w, q) = (set_reader_thread (pstate_of q) (set_cur Reader w), q).
Proof. destruct q; try contradiction; reflexivity. Qed.

(** An iteration of the loop of [_query_frame], with what follows it in
    [_query_frames] when it raises. *)
Lemma fine_reader_turn_attempt (w : world frame) (n : Z) :
  fine_reader_turn (w, QAttempt n)
  = if (n <? max_sequential_fail_attempts w)%Z then
      match next_read w 0 with
      | Some f =>
          (set_reader_thread (PGot f) (after_read (Some f) (set_cur Reader w)), QGot f)
      | None =>
          if Qle_bool 0 (micro_sleep_time w)
          then (set_reader_thread PLoop
                  (after_sleep (micro_sleep_time w) (after_read None (set_cur Reader w))),
                QAttempt (n + 1))
          else (set_reader_thread
                  (PRaised (ValueError "sleep length must be non-negative"))
                  (after_read None (set_cur Reader w)),
                QRaised (ValueError "sleep length must be non-negative"))
      end
    else (set_reader_thread (PRaised (SystemExit 1))
            (after_error (IOError no_output) (set_cur Reader w)),
          QRaised (SystemExit 1)).
Proof.
  unfold next_read. rewrite Nat.add_0_r.
  destruct w as [? max ? mst ? ? ? src rd rel ? ? ? ? ?].
  cbv beta iota zeta delta
    [fine_reader_turn _query_frames_fine_step _query_frame_attempt try_except
     fetch_handler video_capture_read time_sleep logging_error sys_exit emit
     bind gets modify ret raise fst snd pstate_of after_read after_sleep after_error
     set_reads set_trace set_cur set_reader_thread
     stream_url max_sequential_fail_attempts frames micro_sleep_time keep_querying
     verbose target_folder_path feed reads releases key_feed key_polls reader_thread
     cur trace].
  destruct (n <? max)%Z; [|reflexivity].
  destruct (rel =? 0)%nat; [destruct (src rd)|]; try reflexivity;
    destruct (Qle_bool 0 mst); reflexivity.
Qed.

Lemma fine_run_cons (i : Q) (m : Z) (t : tid) (sched : list tid)
    (s : world frame * rstate * qstate frame) :
  fine_run i m (t :: sched) s = fine_run i m sched (fine_turn i m t s).
Proof. reflexivity. Qed.

Lemma fine_run_ranked (i : Q) (m : Z) (t : tid)
    (Inv : nat -> world frame * rstate * qstate frame -> Prop) :
  (forall k s, Inv k s -> Inv (k - 1)%nat (fine_turn i m t s)) ->
  (forall k s t', tid_eqb t t' = false -> Inv k s -> Inv k (fine_turn i m t' s)) ->
  forall sched k s, Inv k s -> Inv (k - turns_of t sched)%nat (fine_run i m sched s).
Proof.
  intros Hown Hother. induction sched as [|a sched IH]; intros k s H.
  - cbn [turns_of filter List.length fine_run fold_left]. rewrite Nat.sub_0_r. exact H.
  - rewrite fine_run_cons. unfold turns_of. cbn [filter].
    destruct (tid_eqb t a) eqn:E.
    + assert (a = t) as -> by (destruct t, a; first [reflexivity|discriminate]).
      cbn [List.length].
      replace (k - S (List.length (filter (tid_eqb t) sched)))%nat
        with ((k - 1) - turns_of t sched)%nat by (unfold turns_of; lia).
      apply IH, Hown, H.
    + apply IH, Hother; assumption.
Qed.

(** The turn of [_query_frames_step] that fetches is a test of the flag
    followed by the iterations of the loop of [_query_frame]. *)
Lemma fine_attempts_refine (fuel : nat) (n : Z) (w : world frame) :
  cur w = Reader -> reader_thread w = PLoop ->
  (Z.to_nat (max_sequential_fail_attempts w - n) <= fuel)%nat ->
  exists k, (1 <= k <= S fuel)%nat
    /\ fine_reader_turns k (w, QAttempt n)
       = match _query_frame_loop fuel n w with
         | (Ok f, w1) => (set_reader_thread (PGot f) w1, QGot f)
         | (Raise (IOError msg), w1) =>
             (set_reader_thread (PRaised (SystemExit 1)) (after_error (IOError msg) w1),
              QRaised (SystemExit 1))
         | (Raise AssertionError, w1) =>
             (set_reader_thread (PRaised (SystemExit 1)) (after_error AssertionError w1),
              QRaised (SystemExit 1))
         | (Raise e, w1) => (set_reader_thread (PRaised e) w1, QRaised e)
         end.
Proof.
  revert n w; induction fuel as [|fuel IH]; intros n w Hc Hp Hfuel;
    rewrite _query_frame_loop_eq;
    destruct (Z.ltb_spec n (max_sequential_fail_attempts w)) as [Hlt|Hge]; try lia.
  - exists 1%nat. split; [lia|]. cbn [fine_reader_turns].
    rewrite fine_reader_turn_attempt.
    destruct (Z.ltb_spec n (max_sequential_fail_attempts w)); [lia|].
    rewrite (set_cur_same Reader w Hc). reflexivity.
  - destruct (next_read w 0) as [f|] eqn:Hn.
    + exists 1%nat. split; [lia|]. cbn [fine_reader_turns].
      rewrite fine_reader_turn_attempt, Hn.
      destruct (Z.ltb_spec n (max_sequential_fail_attempts w)); [|lia].
      rewrite (set_cur_same Reader w Hc). reflexivity.
    + destruct (Qle_bool 0 (micro_sleep_time w)) eqn:Hd.
      * set (w1 := after_sleep (micro_sleep_time w) (after_read None w)).
        destruct (IH (n + 1)%Z w1) as (k & Hk & E); try reflexivity.
        { exact Hc. }
        { exact Hp. }
        { subst w1.
          cbn [after_sleep after_read set_trace set_reads max_sequential_fail_attempts].
          lia. }
        exists (S k). split; [lia|]. cbn [fine_reader_turns].
        rewrite fine_reader_turn_attempt, Hn, Hd.
        destruct (Z.ltb_spec n (max_sequential_fail_attempts w)); [|lia].
        rewrite (set_cur_same Reader w Hc). fold w1.
        rewrite (set_reader_thread_same PLoop w1) by exact Hp.
        exact E.
      * exists 1%nat. split; [lia|]. cbn [fine_reader_turns].
        rewrite fine_reader_turn_attempt, Hn, Hd.
        destruct (Z.ltb_spec n (max_sequential_fail_attempts w)); [|lia].
        rewrite (set_cur_same Reader w Hc). reflexivity.
  - exists 1%nat. split; [lia|]. cbn [fine_reader_turns].
    rewrite fine_reader_turn_attempt.
    destruct (Z.ltb_spec n (max_sequential_fail_attempts w)); [lia|].
    rewrite (set_cur_same Reader w Hc). reflexivity.
Qed.

(** Every turn of [_query_frames_step] is a sequence of turns of
    [_query_frames_fine_step], and leaves the same world. *)
Lemma fine_turns_refine_reader_turn (w : world frame) (q : qstate frame) :
  reader_thread w = pstate_of q ->
  match q with QAttempt _ => False | _ => True end ->
  exists k, (1 <= k <= Z.to_nat (max_sequential_fail_attempts w) + 2)%nat
    /\ fst (fine_reader_turns k (w, q)) = reader_turn w
    /\ pstate_of (snd (fine_reader_turns k (w, q))) = reader_thread (reader_turn w).
Proof.
  intros Hp Hq. destruct q as [| |n|f| |e]; cbn [pstate_of] in Hp; try contradiction.
  - exists 1%nat. split; [lia|]. cbn [fine_reader_turns].
    rewrite fine_reader_turn_rest by exact I.
    rewrite reader_turn_rest by (rewrite Hp; exact I). cbn [fst snd pstate_of].
    rewrite set_reader_thread_same by exact Hp. split; [reflexivity|]. symmetry; exact Hp.
  - destruct (keep_querying w) eqn:K.
    + destruct (fine_attempts_refine (Z.to_nat (max_sequential_fail_attempts w)) 0
                  (set_cur Reader w)) as (k & Hk & E); try reflexivity.
      { exact Hp. }
      { cbn [set_cur max_sequential_fail_attempts]. lia. }
      exists (S k). split; [lia|]. cbn [fine_reader_turns].
      rewrite fine_reader_turn_test, K.
      rewrite (set_reader_thread_same PLoop (set_cur Reader w)) by exact Hp.
      rewrite E. rewrite (reader_turn_fetch w Hp K).
      unfold _query_frame, bind, gets. cbn [set_cur max_sequential_fail_attempts].
      destruct (_query_frame_loop _ 0 (set_cur Reader w)) as [[f|e] w1];
        [split; reflexivity|].
      destruct e; split; reflexivity.
    + exists 1%nat. split; [lia|]. cbn [fine_reader_turns].
      rewrite fine_reader_turn_test, K, (reader_turn_stop w Hp K).
      split; reflexivity.
  - exists 1%nat. split; [lia|]. cbn [fine_reader_turns].
    rewrite fine_reader_turn_got, (reader_turn_append w f Hp). split; reflexivity.
  - exists 1%nat. split; [lia|]. cbn [fine_reader_turns].
    rewrite fine_reader_turn_rest by exact I.
    rewrite reader_turn_rest by (rewrite Hp; exact I). cbn [fst snd pstate_of].
    rewrite set_reader_thread_same by exact Hp. split; [reflexivity|]. symmetry; exact Hp.
  - exists 1%nat. split; [lia|]. cbn [fine_reader_turns].
    rewrite fine_reader_turn_rest by exact I.
    rewrite reader_turn_rest by (rewrite Hp; exact I). cbn [fst snd pstate_of].
    rewrite set_reader_thread_same by exact Hp. split; [reflexivity|]. symmetry; exact Hp.
Qed.

(** X8: once [keep_querying] is false, the reader thread, at whichever point
    of [_query_frames] it stands (at the test of its loop, inside a fetch
    after any number of failed attempts, or holding a fetched frame), ends
    after a bounded number of its turns, under any interleaving with the main
    thread of the recording program.  A fetch that was under way when the
    flag was cleared is carried on: the thread still makes at most the reads
    that this fetch has left ([max_sequential_fail_attempts] minus the failed
    attempts; none at the other two points) and appends at most one more
    frame.  It then returns, having released the device exactly once; or it
    is left by an exception of that fetch, and the device is not released. *)
Theorem reader_stops_after_signal (i : Q) (m : Z) (w : world frame) (pc : rstate)
    (q : qstate frame) (sched : list tid) :
  keep_querying w = false ->
  pc <> RInit ->
  match q with QTest | QAttempt _ | QGot _ => True | _ => False end ->
  let s := fine_run i m sched (w, pc, q) in
  let w' := fst (fst s) in
  let max := max_sequential_fail_attempts w in
  (reads w <= reads w' <= reads w + attempts_left max q)%nat
  /\ (List.length (items (frames w'))
      <= List.length (items (frames w)) + frames_to_come q)%nat
  /\ (snd s = QDone -> releases w' = S (releases w))
  /\ (snd s <> QDone -> releases w' = releases w)
  /\ keep_querying w' = false
  /\ ((fine_turns_left max q <= turns_of Reader sched)%nat ->
      match snd s with QDone | QRaised _ => True | _ => False end).
Proof.
  intros Hk Hpc Hq s w' max.
  set (L := (List.length (items (frames w)) + frames_to_come q)%nat).
  set (A := (reads w + attempts_left max q)%nat).
  set (Inv := fun (k : nat) (s : world frame * rstate * qstate frame) =>
    keep_querying (fst (fst s)) = false
    /\ snd (fst s) <> RInit
    /\ max_sequential_fail_attempts (fst (fst s)) = max
    /\ (fine_turns_left max (snd s) <= k)%nat
    /\ (reads w <= reads (fst (fst s)))%nat
    /\ (reads (fst (fst s)) + attempts_left max (snd s) <= A)%nat
    /\ (List.length (items (frames (fst (fst s)))) + frames_to_come (snd s) <= L)%nat
    /\ match snd s with
       | QDone => releases (fst (fst s)) = S (releases w)
       | QIdle => False
       | _ => releases (fst (fst s)) = releases w
       end).
  assert (Hrun : Inv (fine_turns_left max q - turns_of Reader sched)%nat s).
  { subst s. apply (fine_run_ranked i m Reader Inv).
    - (* a turn of the reader thread *)
      intros k [[w1 pc1] q1] (K & P & M & T & R0 & R1 & Len & Rel).
      cbn [fst snd fine_turn] in *. unfold Inv; cbn [fst snd].
      destruct q1 as [| |n|f| |e]; try contradiction.
      + rewrite fine_reader_turn_test, K.
        cbn [fst snd set_reader_thread after_release set_trace set_releases set_cur
             keep_querying max_sequential_fail_attempts reads frames releases
             fine_turns_left attempts_left frames_to_come] in *.
        repeat split; try assumption; try lia; try congruence.
      + rewrite fine_reader_turn_attempt, M.
        cbn [fine_turns_left attempts_left frames_to_come] in *.
        destruct (Z.ltb_spec n max) as [Hlt|Hge].
        * destruct (next_read w1 0) as [f|]; [|destruct (Qle_bool 0 (micro_sleep_time w1))];
            cbn [fst snd set_reader_thread after_read after_sleep set_trace set_reads
                 set_cur keep_querying max_sequential_fail_attempts reads frames releases
                 fine_turns_left attempts_left frames_to_come];
            repeat split; try assumption; try lia.
        * cbn [fst snd set_reader_thread after_error set_trace set_cur keep_querying
               max_sequential_fail_attempts reads frames releases
               fine_turns_left attempts_left frames_to_come].
          repeat split; try assumption; try lia.
      + rewrite fine_reader_turn_got.
        cbn [fst snd set_reader_thread set_frames set_cur keep_querying
             max_sequential_fail_attempts reads frames releases
             fine_turns_left attempts_left frames_to_come] in *.
        pose proof (deque_append_length f (frames w1)).
        repeat split; try assumption; lia.
      + rewrite fine_reader_turn_rest by exact I.
        cbn [fst snd set_reader_thread set_cur keep_querying
             max_sequential_fail_attempts reads frames releases
             fine_turns_left attempts_left frames_to_come] in *.
        repeat split; try assumption; lia.
      + rewrite fine_reader_turn_rest by exact I.
        cbn [fst snd set_reader_thread set_cur keep_querying
             max_sequential_fail_attempts reads frames releases
             fine_turns_left attempts_left frames_to_come] in *.
        repeat split; try assumption; lia.
    - (* a turn of the main thread *)
      intros k [[w1 pc1] q1] t' E (K & P & M & T & R0 & R1 & Len & Rel).
      destruct t'; [|discriminate]. cbn [fst snd fine_turn] in *.
      destruct (record_turn_loop_effect i m w1 pc1 P) as (_ & E2 & E3 & E4 & E5).
      destruct (record_turn_settings i m w1 pc1) as (_ & S2 & _).
      assert (Eq : match pc1, snd (record_turn i m (w1, pc1)) with
                   | RInit, RLoop _ => QTest
                   | _, _ => q1
                   end = q1).
      { destruct pc1; [contradiction|reflexivity..]. }
      unfold Inv; cbn [fst snd]. rewrite Eq, E2, E3, S2.
      split; [auto|]. split; [apply record_turn_started|].
      split; [exact M|]. split; [exact T|]. split; [exact R0|]. split; [exact R1|].
      split; [lia|exact Rel].
    - unfold Inv; cbn [fst snd]. subst L A max.
      destruct q; try contradiction; repeat split; auto; lia. }
  destruct Hrun as (K & _ & _ & T & R0 & R1 & Len & Rel). fold w' in K, R0, R1, Len, Rel.
  split; [subst A; lia|]. split; [subst L; lia|].
  split; [intros E; rewrite E in Rel; exact Rel|].
  split; [intros E; destruct (snd s); first [exact Rel|contradiction]|].
  split; [exact K|].
  intros Hturns. destruct (snd s); cbn [fine_turns_left] in T; first [exact I|lia].
Qed.

(** ** The recording loop once the reader thread has ended *)

(** X9: [sys.exit(1)] in [_query_frames] ends the reader thread only.  When
    the reader thread has ended (by an exception or by returning) and the
    buffer is empty, the recording loop, with images still to write and no
    quit key, goes on for ever: under any schedule it stays at the head of
    its loop with the same count, writes nothing, reads nothing and does not
    touch [keep_querying]. *)
Theorem recording_starves_after_reader_ends (i : Q) (m n : Z) (w : world frame)
    (folder : string) (sched : list tid) :
  match reader_thread w with PRaised _ | PDone => True | _ => False end ->
  items (frames w) = [] ->
  target_folder_path w = Some folder ->
  0 <= micro_sleep_time w ->
  never_quit w ->
  (n <? m)%Z || (m =? -1)%Z = true ->
  let s := run i m sched (w, RLoop n) in
  snd s = RLoop n
  /\ images_written (fst s) = images_written w
  /\ writes_of (trace (fst s)) = writes_of (trace w)
  /\ items (frames (fst s)) = []
  /\ reads (fst s) = reads w
  /\ keep_querying (fst s) = keep_querying w
  /\ reader_thread (fst s) = reader_thread w.
Proof.
  intros Hp He Ht Hd Hq Hc s.
  set (Inv := fun s : world frame * rstate =>
    same_settings w (fst s)
    /\ snd s = RLoop n
    /\ images_written (fst s) = images_written w
    /\ writes_of (trace (fst s)) = writes_of (trace w)
    /\ items (frames (fst s)) = []
    /\ reads (fst s) = reads w
    /\ keep_querying (fst s) = keep_querying w
    /\ reader_thread (fst s) = reader_thread w).
  assert (Hinv : Inv s).
  { subst s. apply (run_invariant i m Inv).
    - unfold Inv. intros [w1 pc] t (S & P & C & W & E & Rd & K & R).
      cbn [fst snd] in *. subst pc.
      pose proof S as (_ & _ & S3 & _ & S5 & _ & S7 & _).
      destruct t; cbn [turn fst snd].
      + rewrite (record_turn_idle i m n w1 folder Hc E);
          [|congruence|rewrite S3; exact Hd|rewrite S7; apply Hq].
        destruct (after_idle_view folder n w1) as (V1 & _ & V3 & _ & _ & V6 & V7).
        cbn [fst snd].
        split; [eapply same_settings_trans; eassumption|]. split; [reflexivity|].
        split; [congruence|]. split.
        { destruct (record_turn_empty i m w1 (RLoop n) E) as (_ & W').
          rewrite (record_turn_idle i m n w1 folder Hc E) in W';
            [|congruence|rewrite S3; exact Hd|rewrite S7; apply Hq].
          cbn [fst] in W'. congruence. }
        split; [exact E|]. split; [exact Rd|]. split; congruence.
      + rewrite reader_turn_rest by (rewrite R; destruct (reader_thread w); auto).
        cbn [set_cur trace frames reads keep_querying reader_thread images_written].
        split; [|auto 10].
        eapply same_settings_trans; [exact S|]. unfold same_settings; cbn; auto 10.
    - unfold Inv; cbn [fst snd]. split; [apply same_settings_refl|auto 10]. }
  destruct Hinv as (_ & H). exact H.
Qed.

(** ** The display program *)

Lemma show_turn_loop (w : world frame) :
  show_turn (w, SLoop)
  = match _query_frame (set_cur Main w) with
    | (Ok f, w1) =>
        (after_show f w1,
         if is_quit (key_feed w1 (key_polls w1)) then SStop else SLoop)
    | (Raise (IOError msg), w1) =>
        (after_error (IOError msg) w1, SRaised (SystemExit 1))
    | (Raise AssertionError, w1) =>
        (after_error AssertionError w1, SRaised (SystemExit 1))
    | (Raise e, w1) => (w1, SRaised e)
    end.
Proof.
  unfold show_turn. cbn [fst snd show_live_stream_video_step].
  unfold bind at 1, try_except.
  destruct (_query_frame (set_cur Main w)) as [[f|e] w1].
  - destruct w1. unfold after_show. unfold_turn.
    match goal with |- context [is_quit ?k] => destruct (is_quit k) end; reflexivity.
  - destruct e; reflexivity.
Qed.

Lemma show_turn_init (w : world frame) :
  show_turn (w, SInit)
  = (set_trace ((Main, EvLogInfo (MsgStartingCapture (stream_url w)))
                :: (Main, EvSetupLogger None) :: trace w) (set_cur Main w),
     SLoop).
Proof. reflexivity. Qed.

(** What one turn of [show_live_stream_video] does to the frames. *)
Lemma show_turn_frames (w : world frame) (pc : sstate) :
  exists fs : list frame,
    reads_of (trace (fst (show_turn (w, pc)))) = fs ++ reads_of (trace w)
    /\ shows_of (trace (fst (show_turn (w, pc)))) = fs ++ shows_of (trace w)
    /\ key_polls (fst (show_turn (w, pc))) = (key_polls w + List.length fs)%nat
    /\ writes_of (trace (fst (show_turn (w, pc)))) = writes_of (trace w)
    /\ frames (fst (show_turn (w, pc))) = frames w
    /\ reader_thread (fst (show_turn (w, pc))) = reader_thread w
    /\ releases (fst (show_turn (w, pc))) = releases w.
Proof.
  destruct pc as [| | | |e].
  - exists []. rewrite show_turn_init. cbn. rewrite Nat.add_0_r. auto 10.
  - rewrite show_turn_loop.
    destruct (_query_frame_touches (set_cur Main w)) as (n & tr & E).
    destruct (_query_frame_frames (set_cur Main w)) as (R & W & S).
    destruct (_query_frame (set_cur Main w)) as [[f|e] w1]; cbn [fst snd] in *.
    + exists [f]. unfold after_show.
      cbn [set_trace set_key_polls trace key_polls frames reader_thread releases
           reads_of shows_of writes_of app List.length].
      rewrite R, W, S, E. cbn. rewrite Nat.add_1_r. auto 10.
    + exists [].
      assert (H : reads_of (trace w1) = [] ++ reads_of (trace w)
                  /\ shows_of (trace w1) = [] ++ shows_of (trace w)
                  /\ key_polls w1 = (key_polls w + List.length (@nil frame))%nat
                  /\ writes_of (trace w1) = writes_of (trace w)
                  /\ frames w1 = frames w
                  /\ reader_thread w1 = reader_thread w
                  /\ releases w1 = releases w).
      { rewrite R, W, S, E. cbn. rewrite Nat.add_0_r. auto 10. }
      destruct e; exact H.
  - exists []. cbn. rewrite Nat.add_0_r. auto 10.
  - exists []. cbn. rewrite Nat.add_0_r. auto 10.
  - exists []. cbn. rewrite Nat.add_0_r. auto 10.
Qed.

(** X10: however long [show_live_stream_video] runs and wherever it starts,
    the frames it hands to [cv2.imshow] are exactly the frames it reads from
    the source, in the same order, each one followed by one poll of the
    keyboard; it never puts a frame into the buffer or takes one out, never
    starts the reader thread, never writes an image and never releases the
    device. *)
Theorem show_displays_what_it_reads (n : nat) (w : world frame) (pc : sstate) :
  exists fs : list frame,
    reads_of (trace (fst (show_turns n (w, pc)))) = fs ++ reads_of (trace w)
    /\ shows_of (trace (fst (show_turns n (w, pc)))) = fs ++ shows_of (trace w)
    /\ key_polls (fst (show_turns n (w, pc))) = (key_polls w + List.length fs)%nat
    /\ writes_of (trace (fst (show_turns n (w, pc)))) = writes_of (trace w)
    /\ frames (fst (show_turns n (w, pc))) = frames w
    /\ reader_thread (fst (show_turns n (w, pc))) = reader_thread w
    /\ releases (fst (show_turns n (w, pc))) = releases w.
Proof.
  revert w pc; induction n as [|n IH]; intros w pc.
  - exists []. cbn. rewrite Nat.add_0_r. auto 10.
  - cbn [show_turns].
    destruct (show_turn_frames w pc) as (fs1 & R1 & S1 & K1 & W1 & F1 & P1 & L1).
    destruct (show_turn (w, pc)) as [w1 pc1]. cbn [fst] in *.
    destruct (IH w1 pc1) as (fs2 & R2 & S2 & K2 & W2 & F2 & P2 & L2).
    exists (fs2 ++ fs1).
    rewrite R2, S2, K2, W2, F2, P2, L2, R1, S1, K1, W1, F1, P1, L1.
    rewrite <- !app_assoc, length_app. repeat split; lia.
Qed.

Lemma _query_frame_ready (w : world frame) (f : frame) :
  (1 <= max_sequential_fail_attempts w)%Z ->
  next_read w 0 = Some f ->
  _query_frame w = (Ok f, after_read (Some f) w).
Proof.
  intros Hmax Hnext. unfold _query_frame, bind, gets. rewrite _query_frame_loop_eq.
  destruct (Z.ltb_spec 0 (max_sequential_fail_attempts w)); [|lia].
  destruct (Z.to_nat (max_sequential_fail_attempts w)) eqn:Hn; [lia|].
  rewrite Hnext. reflexivity.
Qed.

Lemma show_turn_ready (w : world frame) (f : frame) :
  (1 <= max_sequential_fail_attempts w)%Z ->
  next_read w 0 = Some f ->
  show_turn (w, SLoop)
  = (shown f w, if is_quit (key_feed w (key_polls w)) then SStop else SLoop).
Proof.
  intros Hmax Hnext. rewrite show_turn_loop.
  rewrite (_query_frame_ready (set_cur Main w) f Hmax Hnext). reflexivity.
Qed.

Lemma show_turns_app (a b : nat) (s : world frame * sstate) :
  show_turns (a + b) s = show_turns b (show_turns a s).
Proof.
  revert s; induction a as [|a IH]; intros s; [reflexivity|].
  cbn [Nat.add show_turns]. apply IH.
Qed.

Lemma shown_all_view (fs : list frame) (w : world frame) :
  shows_of (trace (shown_all fs w)) = rev fs ++ shows_of (trace w)
  /\ reads (shown_all fs w) = (reads w + List.length fs)%nat
  /\ key_polls (shown_all fs w) = (key_polls w + List.length fs)%nat
  /\ keep_querying (shown_all fs w) = keep_querying w
  /\ releases (shown_all fs w) = releases w
  /\ reader_thread (shown_all fs w) = reader_thread w
  /\ frames (shown_all fs w) = frames w
  /\ feed (shown_all fs w) = feed w
  /\ key_feed (shown_all fs w) = key_feed w
  /\ max_sequential_fail_attempts (shown_all fs w) = max_sequential_fail_attempts w.
Proof.
  revert w; induction fs as [|f fs IH]; intros w.
  - cbn. rewrite !Nat.add_0_r. auto 12.
  - unfold shown_all in *. cbn [fold_left].
    destruct (IH (shown f w)) as (A & B & C & D & E & F & G & H & I & J).
    rewrite A, B, C, D, E, F, G, H, I, J.
    cbn [rev List.length]. rewrite <- app_assoc.
    unfold shown, after_show, after_read. cbn. repeat split; lia.
Qed.

(** The display loop on a source that has the frames [fs] ready, while no
    key poll reports [q]. *)
Lemma show_loop_frames (fs : list frame) (w : world frame) :
  releases w = 0%nat ->
  (1 <= max_sequential_fail_attempts w)%Z ->
  (forall j f, nth_error fs j = Some f -> feed w (reads w + j) = Some f) ->
  (forall j, (j < List.length fs)%nat -> is_quit (key_feed w (key_polls w + j)) = false) ->
  show_turns (List.length fs) (w, SLoop) = (shown_all fs w, SLoop).
Proof.
  revert w; induction fs as [|f fs IH]; intros w Hrel Hmax Hfeed Hkeys; [reflexivity|].
  cbn [List.length show_turns].
  assert (Hnext : next_read w 0 = Some f).
  { unfold next_read. rewrite Hrel. cbn [Nat.eqb]. apply (Hfeed O f). reflexivity. }
  rewrite (show_turn_ready w f Hmax Hnext).
  pose proof (Hkeys O ltac:(cbn [List.length]; lia)) as Hq. rewrite Nat.add_0_r in Hq.
  rewrite Hq. unfold shown_all; cbn [fold_left]. apply IH.
  - exact Hrel.
  - exact Hmax.
  - intros j g Hj. unfold shown, after_show, after_read.
    cbn [feed reads set_trace set_key_polls set_reads set_cur].
    rewrite Nat.add_succ_l, <- Nat.add_succ_r. apply Hfeed. exact Hj.
  - intros j Hj. unfold shown, after_show, after_read.
    cbn [key_feed key_polls set_trace set_key_polls set_reads set_cur].
    rewrite Nat.add_succ_l, <- Nat.add_succ_r. apply Hkeys. cbn [List.length]. lia.
Qed.

(** X11: on a device that has not been released and has the frames
    [fs ++ [f]] ready, with a keyboard that first reports [q] at the poll that
    follows [f], [show_live_stream_video] shows the frames of [fs] one per
    iteration and is still in its loop after each of them; it then shows
    [f], leaves the loop and returns with [keep_querying] false, having read
    and shown exactly these frames in order; the device is not released and
    the reader thread is not touched. *)
Theorem show_runs_until_quit (fs : list frame) (f : frame) (w : world frame) :
  releases w = 0%nat ->
  (1 <= max_sequential_fail_attempts w)%Z ->
  (forall j g, nth_error (fs ++ [f]) j = Some g -> feed w (reads w + j) = Some g) ->
  (forall j, (j < List.length fs)%nat -> is_quit (key_feed w (key_polls w + j)) = false) ->
  is_quit (key_feed w (key_polls w + List.length fs)) = true ->
  (forall n, (n <= List.length fs)%nat ->
     snd (show_turns (S n) (w, SInit)) = SLoop
     /\ shows_of (trace (fst (show_turns (S n) (w, SInit))))
        = rev (firstn n fs) ++ shows_of (trace w)
     /\ keep_querying (fst (show_turns (S n) (w, SInit))) = keep_querying w)
  /\ let s := show_turns (List.length fs + 3) (w, SInit) in
     snd s = SDone
     /\ shows_of (trace (fst s)) = f :: rev fs ++ shows_of (trace w)
     /\ reads (fst s) = (reads w + List.length fs + 1)%nat
     /\ keep_querying (fst s) = false
     /\ releases (fst s) = 0%nat
     /\ reader_thread (fst s) = reader_thread w.
Proof.
  intros Hrel Hmax Hfeed Hkeys Hquit.
  set (w0 := set_trace ((Main, EvLogInfo (MsgStartingCapture (stream_url w)))
                        :: (Main, EvSetupLogger None) :: trace w) (set_cur Main w)).
  assert (Hloop : forall gs : list frame,
             (forall j g, nth_error gs j = Some g -> feed w (reads w + j) = Some g) ->
             (List.length gs <= List.length fs)%nat ->
             show_turns (S (List.length gs)) (w, SInit) = (shown_all gs w0, SLoop)).
  { intros gs Hgs Hlen. cbn [show_turns]. rewrite show_turn_init. fold w0.
    apply show_loop_frames; try assumption.
    intros j Hj. apply Hkeys. lia. }
  split.
  - intros n Hn.
    assert (Hlen : List.length (firstn n fs) = n) by (rewrite length_firstn; lia).
    assert (E : show_turns (S n) (w, SInit) = (shown_all (firstn n fs) w0, SLoop)).
    { rewrite <- Hlen at 1. apply Hloop; [|lia].
      intros j g Hj. apply Hfeed.
      rewrite nth_error_app1 by (apply nth_error_Some; rewrite nth_error_firstn in Hj;
        destruct (j <? n)%nat; [congruence|discriminate]).
      rewrite nth_error_firstn in Hj. destruct (j <? n)%nat; [exact Hj|discriminate]. }
    rewrite E. cbn [fst snd].
    destruct (shown_all_view (firstn n fs) w0) as (A & _ & _ & D & _).
    rewrite A, D. auto.
  - intros s.
    assert (E : s = (set_keep_querying false (set_cur Main (shown f (shown_all fs w0))),
                     SDone)).
    { subst s. replace (List.length fs + 3)%nat with (S (List.length fs) + 2)%nat by lia.
      rewrite show_turns_app. rewrite Hloop; [|intros j g Hj; apply Hfeed;
        rewrite nth_error_app1 by (apply nth_error_Some; congruence); exact Hj|lia].
      destruct (shown_all_view fs w0) as (_ & B & C & _ & E & _ & _ & H & I & J).
      cbn [show_turns].
      rewrite (show_turn_ready (shown_all fs w0) f).
      - rewrite I, C. change (key_feed w0) with (key_feed w).
        change (key_polls w0) with (key_polls w). rewrite Hquit. reflexivity.
      - rewrite J. exact Hmax.
      - unfold next_read. rewrite E, H, B. change (releases w0) with (releases w).
        rewrite Hrel. cbn [Nat.eqb]. change (feed w0) with (feed w).
        change (reads w0) with (reads w). rewrite Nat.add_0_r. apply Hfeed.
        rewrite nth_error_app2 by lia. rewrite Nat.sub_diag. reflexivity. }
    rewrite E. cbn [fst snd].
    destruct (shown_all_view fs w0) as (A & B & _ & _ & R & P & _).
    unfold shown, after_show, after_read.
    cbn [set_keep_querying set_cur set_trace set_key_polls set_reads trace reads
         keep_querying releases reader_thread shows_of].
    rewrite A, B, R, P. cbn. repeat split; try assumption. lia.
Qed.

(** X12: when the source has no frame for a whole fetch
    ([max_sequential_fail_attempts] reads in a row, each followed by a sleep),
    the display loop and the reader loop both report the failure once with
    [logging.error] and leave by [sys.exit(1)]: nothing is shown or pushed,
    [keep_querying] keeps its value, the device is not released, and further
    turns of the display method do nothing. *)
Theorem exhaustion_is_reported_once (w : world frame) :
  0 <= micro_sleep_time w ->
  (forall j, (j < Z.to_nat (max_sequential_fail_attempts w))%nat -> next_read w j = None) ->
  let d := micro_sleep_time w in
  let k := Z.to_nat (max_sequential_fail_attempts w) in
  let failed := fun t =>
    set_trace ((t, EvLogError (MsgError (IOError no_output)))
               :: absent_calls t d k ++ trace w)
      (set_reads (reads w + k) (set_cur t w)) in
  show_turn (w, SLoop) = (failed Main, SRaised (SystemExit 1))
  /\ (forall n, show_turns n (failed Main, SRaised (SystemExit 1))
                = (failed Main, SRaised (SystemExit 1)))
  /\ (reader_thread w = PLoop -> keep_querying w = true ->
      reader_turn w = set_reader_thread (PRaised (SystemExit 1)) (failed Reader)).
Proof.
  intros Hd Habs d k failed.
  assert (E : forall t, _query_frame (set_cur t w)
                        = (Raise (IOError no_output), after_absences d k (set_cur t w))).
  { intros t. unfold _query_frame, bind, gets.
    apply (_query_frame_loop_absent k 0 (set_cur t w)).
    - cbn [set_cur max_sequential_fail_attempts]. subst k. f_equal. lia.
    - exact Hd.
    - exact Habs. }
  assert (F : forall t, after_error (IOError no_output) (after_absences d k (set_cur t w))
                        = failed t).
  { intros t. rewrite after_absences_frame. reflexivity. }
  split; [|split].
  - rewrite show_turn_loop, E, F. reflexivity.
  - induction n as [|n IH]; [reflexivity|]. cbn [show_turns]. exact IH.
  - intros P K. rewrite (reader_turn_fetch w P K), E, F. reflexivity.
Qed.

(** ** [setup_logger] *)

(** The loop [for handler in logger.handlers[:]: logger.removeHandler(handler)]
    empties the list of handlers, whatever it holds. *)
Lemma remove_all_handlers (l : list handler) (lg : logging_state) :
  root_handlers lg = l ->
  fold_left (fun lg h => removeHandler h lg) l lg
  = mkLogging (root_level lg) [] (handlers_made lg).
Proof.
  revert lg; induction l as [|h l IH]; intros lg E.
  - cbn [fold_left]. destruct lg; cbn in *; subst; reflexivity.
  - assert (S : same_handler h h = true) by apply Nat.eqb_refl.
    cbn [fold_left]. unfold removeHandler at 2. rewrite E.
    unfold has_handler. cbn [existsb remove_first].
    rewrite S. cbn [orb]. rewrite IH by reflexivity. reflexivity.
Qed.

Lemma setup_logger_eq (isdir : string -> bool) (path : option string) (level : Z)
    (lg : logging_state) :
  setup_logger isdir path level lg
  = let console := mkHandler (handlers_made lg) StreamHandler level (Some log_format) in
    match path with
    | Some p =>
        if str_bool path && isdir p
        then mkLogging level
               [console;
                mkHandler (S (handlers_made lg)) (FileHandler (path_join p "output.log") "a")
                  level (Some log_format)]
               (S (S (handlers_made lg)))
        else mkLogging level [console] (S (handlers_made lg))
    | None => mkLogging level [console] (S (handlers_made lg))
    end.
Proof.
  unfold setup_logger. rewrite remove_all_handlers by reflexivity.
  unfold new_handler, logger_setLevel, addHandler, has_handler, same_handler, setLevel,
    setFormatter.
  cbn [root_level root_handlers handlers_made existsb h_id h_kind h_level h_formatter app].
  destruct path as [p|]; [|reflexivity].
  destruct (str_bool (Some p) && isdir p); [|reflexivity].
  cbn [root_level root_handlers handlers_made existsb h_id h_kind h_level h_formatter app orb].
  replace (S (handlers_made lg) =? handlers_made lg)%nat with false
    by (symmetry; apply Nat.eqb_neq; lia).
  reflexivity.
Qed.

(** X13: whatever handlers the root logger has, [setup_logger] leaves it with
    the given level and with exactly one console handler, followed by one
    file handler on [output.log] in the given folder (append mode) when a
    non-empty folder was given that is a directory, and by nothing otherwise;
    the handlers are new objects with the given level and the formatter of
    the module, every earlier handler is gone, and a second call leaves the
    same kinds of handlers, so that calls do not pile up handlers. *)
Theorem setup_logger_replaces_handlers (isdir : string -> bool) (path : option string)
    (level : Z) (lg : logging_state) :
  let lg' := setup_logger isdir path level lg in
  root_level lg' = level
  /\ map h_kind (root_handlers lg')
     = StreamHandler
       :: match path with
          | Some p =>
              if str_bool path && isdir p
              then [FileHandler (path_join p "output.log") "a"]
              else []
          | None => []
          end
  /\ (forall h, In h (root_handlers lg') ->
        h_level h = level /\ h_formatter h = Some log_format
        /\ (handlers_made lg <= h_id h < handlers_made lg')%nat)
  /\ NoDup (map h_id (root_handlers lg'))
  /\ map h_kind (root_handlers (setup_logger isdir path level lg'))
     = map h_kind (root_handlers lg').
Proof.
  intros lg'. subst lg'. rewrite (setup_logger_eq isdir path level (setup_logger _ _ _ _)).
  rewrite (setup_logger_eq isdir path level lg). cbv zeta.
  destruct path as [p|]; [destruct (str_bool (Some p) && isdir p)|];
    cbn [root_level root_handlers handlers_made map h_kind h_id In];
    (split; [reflexivity|]); (split; [reflexivity|]);
    (split; [intros h Hh; repeat destruct Hh as [<-|Hh]; try contradiction;
             cbn [h_level h_formatter h_id]; repeat split; lia|]);
    (split; [|reflexivity]);
    repeat constructor; cbn [In]; intros H; repeat destruct H as [H|H]; lia.
Qed.

(** ** The logging of the two programs *)

Lemma _query_frame_loop_logging (isdir : string -> bool) (lg : logging_state)
    (fuel : nat) (n : Z) (w : world frame) :
  logging_after isdir (trace (snd (_query_frame_loop fuel n w))) lg
  = logging_after isdir (trace w) lg.
Proof.
  revert n w; induction fuel as [|fuel IH]; intros n w;
    rewrite _query_frame_loop_eq;
    destruct (n <? max_sequential_fail_attempts w)%Z; try reflexivity.
  destruct (next_read w 0) as [f|]; [reflexivity|].
  destruct (Qle_bool 0 (micro_sleep_time w)); [|reflexivity].
  rewrite IH. reflexivity.
Qed.

Lemma _query_frame_logging (isdir : string -> bool) (lg : logging_state) (w : world frame) :
  logging_after isdir (trace (snd (_query_frame w))) lg = logging_after isdir (trace w) lg.
Proof. apply _query_frame_loop_logging. Qed.

(** The reader thread never sets up the logger. *)
Lemma reader_turn_logging (isdir : string -> bool) (lg : logging_state) (w : world frame) :
  logging_after isdir (trace (reader_turn w)) lg = logging_after isdir (trace w) lg.
Proof.
  destruct (reader_thread w) as [| |f| |e] eqn:P.
  - rewrite reader_turn_rest by (rewrite P; exact I). reflexivity.
  - destruct (keep_querying w) eqn:K.
    + rewrite (reader_turn_fetch w P K).
      pose proof (_query_frame_logging isdir lg (set_cur Reader w)) as W.
      destruct (_query_frame (set_cur Reader w)) as [[f|e] w1]; cbn [fst snd] in *;
        [exact W|destruct e; exact W].
    + rewrite (reader_turn_stop w P K). reflexivity.
  - rewrite (reader_turn_append w f P). reflexivity.
  - rewrite reader_turn_rest by (rewrite P; exact I). reflexivity.
  - rewrite reader_turn_rest by (rewrite P; exact I). reflexivity.
Qed.

(** Nor does the recording method after its first statements. *)
Lemma record_turn_logging (isdir : string -> bool) (lg : logging_state)
    (i : Q) (m : Z) (w : world frame) (pc : rstate) :
  pc <> RInit ->
  logging_after isdir (trace (fst (record_turn i m (w, pc)))) lg
  = logging_after isdir (trace w) lg.
Proof.
  intros Hpc.
  destruct w as [? ? [its cap] ? ? v tgt ? ? ? ? ? p ? tr].
  destruct pc as [|n|n| |e]; [contradiction|..]; unfold_turn; split_cases; reflexivity.
Qed.

Lemma show_turn_logging (isdir : string -> bool) (lg : logging_state)
    (w : world frame) (pc : sstate) :
  pc <> SInit ->
  logging_after isdir (trace (fst (show_turn (w, pc)))) lg
  = logging_after isdir (trace w) lg.
Proof.
  intros Hpc. destruct pc as [| | | |e]; [contradiction|..]; try reflexivity.
  rewrite show_turn_loop.
  pose proof (_query_frame_logging isdir lg (set_cur Main w)) as W.
  destruct (_query_frame (set_cur Main w)) as [[f|e] w1]; cbn [fst snd] in *;
    [exact W|destruct e; exact W].
Qed.

Lemma show_turn_started (w : world frame) (pc : sstate) :
  pc <> SInit -> snd (show_turn (w, pc)) <> SInit.
Proof.
  intros Hpc. destruct pc as [| | | |e]; [contradiction|..]; try discriminate.
  rewrite show_turn_loop.
  destruct (_query_frame (set_cur Main w)) as [[f|e] w1]; cbn [snd].
  - destruct (is_quit (key_feed w1 (key_polls w1))); discriminate.
  - destruct e; discriminate.
Qed.

(** X14: the recording program sets up the logger once, at its start, with
    its target folder: from then on, under any schedule, and whatever
    handlers the root logger had, the root logger has a console handler and a
    file handler on [output.log] in the target folder (when that folder is a
    directory, as it is after [mkdir]).  The display program sets it up
    without a folder: the root logger has the console handler only. *)
Theorem programs_set_up_logging (isdir : string -> bool) (lg0 : logging_state) :
  (forall (i : Q) (m : Z) (sched : list tid) (w0 : world frame) (folder : string),
      target_folder_path w0 = Some folder ->
      folder <> EmptyString -> isdir folder = true ->
      let s := run i m sched (w0, RInit) in
      snd s <> RInit ->
      logging_after isdir (trace (fst s)) lg0
      = setup_logger isdir (Some folder) INFO (logging_after isdir (trace w0) lg0)
      /\ map h_kind (root_handlers (logging_after isdir (trace (fst s)) lg0))
         = [StreamHandler; FileHandler (path_join folder "output.log") "a"])
  /\ (forall (n : nat) (w : world frame),
        let s := show_turns (S n) (w, SInit) in
        logging_after isdir (trace (fst s)) lg0
        = setup_logger isdir None INFO (logging_after isdir (trace w) lg0)
        /\ map h_kind (root_handlers (logging_after isdir (trace (fst s)) lg0))
           = [StreamHandler]).
Proof.
  split.
  - intros i m sched w0 folder Ht Hne Hdir s Hs.
    set (lg1 := logging_after isdir (trace w0) lg0).
    assert (Hinv : target_folder_path (fst s) = Some folder
                   /\ logging_after isdir (trace (fst s)) lg0
                      = match snd s with
                        | RInit => lg1
                        | _ => setup_logger isdir (Some folder) INFO lg1
                        end).
    { subst s. apply (run_invariant i m
        (fun s => target_folder_path (fst s) = Some folder
                  /\ logging_after isdir (trace (fst s)) lg0
                     = match snd s with
                       | RInit => lg1
                       | _ => setup_logger isdir (Some folder) INFO lg1
                       end)).
      - intros [w pc] t (T & L); cbn [fst snd] in *. destruct t; cbn [turn fst snd].
        + destruct (record_turn_settings i m w pc) as (_ & _ & _ & _ & S5 & _).
          split; [congruence|].
          destruct pc as [|n|n| |e].
          * rewrite (record_turn_init i m w folder T). cbn [fst snd].
            unfold after_init, init_calls.
            cbn [trace set_trace set_reader_thread set_cur app logging_after].
            rewrite L. reflexivity.
          * rewrite (record_turn_logging isdir lg0 i m w (RLoop n)) by discriminate.
            pose proof (record_turn_started i m w (RLoop n)) as N.
            destruct (snd (record_turn i m (w, RLoop n))); [contradiction|exact L..].
          * rewrite (record_turn_logging isdir lg0 i m w (RStop n)) by discriminate.
            pose proof (record_turn_started i m w (RStop n)) as N.
            destruct (snd (record_turn i m (w, RStop n))); [contradiction|exact L..].
          * rewrite record_turn_over by exact I. exact L.
          * rewrite record_turn_over by exact I. exact L.
        + destruct (reader_turn_main_view w) as ((_ & _ & _ & _ & S5 & _) & _).
          split; [congruence|]. rewrite reader_turn_logging. exact L.
      - cbn [fst snd]. auto. }
    destruct Hinv as (_ & L).
    assert (E : logging_after isdir (trace (fst s)) lg0
                = setup_logger isdir (Some folder) INFO lg1).
    { destruct (snd s); [contradiction|exact L..]. }
    split; [exact E|]. rewrite E, setup_logger_eq. cbv zeta.
    rewrite Hdir. destruct folder; [contradiction|reflexivity].
  - intros n w s.
    assert (E : snd s <> SInit
                /\ logging_after isdir (trace (fst s)) lg0
                   = setup_logger isdir None INFO (logging_after isdir (trace w) lg0)).
    { subst s. cbn [show_turns]. rewrite show_turn_init.
      match goal with |- context [show_turns n (?w1, SLoop)] => set (w0 := w1) end.
      assert (H0 : logging_after isdir (trace w0) lg0
                   = setup_logger isdir None INFO (logging_after isdir (trace w) lg0))
        by reflexivity.
      assert (P0 : SLoop <> SInit) by discriminate.
      revert H0 P0. generalize SLoop as pc. generalize w0 as w1. clear w0.
      induction n as [|n IH]; intros w1 pc H0 P0; [split; assumption|].
      cbn [show_turns].
      pose proof (show_turn_logging isdir lg0 w1 pc P0) as L.
      pose proof (show_turn_started w1 pc P0) as N.
      destruct (show_turn (w1, pc)) as [w2 pc2]. cbn [fst snd] in *.
      apply IH; [congruence|exact N]. }
    destruct E as (_ & E). split; [exact E|]. rewrite E, setup_logger_eq. reflexivity.
Qed.

(** ** The script *)

Lemma main_instance (src : nat -> option frame) (keys : nat -> Z) (default_folder : string)
    (args : namespace) (p : program frame) :
  main src keys default_folder args = inr p ->
  exists u,
    url_0 (args_url args) = inr u
    /\ __init__ src keys default_folder u (args_target_folder args) (args_buffer_size args)
         (negb (args_quiet args)) default_micro_sleep_time
         default_max_sequential_fail_attempts
       = inr (program_instance p)
    /\ p = if args_display_only args
           then Display (program_instance p)
           else Recording (program_instance p) (args_screenshot_interval_in_seconds args)
                  (args_max_num_images args).
Proof.
  unfold main. destruct (url_0 (args_url args)) as [e|u]; [discriminate|].
  destruct (__init__ _ _ _ _ _ _ _ _ _) as [e|vsc] eqn:E; [discriminate|].
  destruct (args_display_only args); intros [= <-]; exists u; repeat split; exact E.
Qed.

(** X15: what the options of the script come to.  A negative [-b] makes the
    constructor raise [ValueError], so that no program runs.  Otherwise the
    instance is fresh, with a buffer of [-b] frames, [verbose] the opposite of
    [-q], and as stream URL the first value of [-u], or, when [-u] is absent,
    the first character of the default URL ([args.url[0]] of a string); [-d]
    alone chooses between the display and the recording program, which gets
    [-i] and [-m] as they are.  And any non-empty [-t] makes the recording
    program fail: under any schedule nothing is read, no call is made and the
    reader thread is not started, and the first turn of the main thread
    leaves the method by [AttributeError]. *)
Theorem main_options (src : nat -> option frame) (keys : nat -> Z) (default_folder : string)
    (args : namespace) :
  ((args_buffer_size args < 0)%Z -> args_url args <> UrlGiven [] ->
   main src keys default_folder args = inl (ValueError "maxlen must be non-negative"))
  /\ (forall p : program frame,
        main src keys default_folder args = inr p ->
        let vsc := program_instance p in
        (0 <= args_buffer_size args)%Z
        /\ stream_url vsc = match args_url args with
                            | UrlGiven (u :: _) => u
                            | _ => "h"%string
                            end
        /\ frames vsc = mkDeque [] (Z.to_nat (args_buffer_size args))
        /\ verbose vsc = negb (args_quiet args)
        /\ keep_querying vsc = true
        /\ target_folder_path vsc
           = (if str_bool (args_target_folder args) then None else Some default_folder)
        /\ p = (if args_display_only args
                then Display vsc
                else Recording vsc (args_screenshot_interval_in_seconds args)
                       (args_max_num_images args)))
  /\ (forall (vsc : world frame) (i : Q) (m : Z) (sched : list tid),
        main src keys default_folder args = inr (Recording vsc i m) ->
        str_bool (args_target_folder args) = true ->
        let s := run i m sched (vsc, RInit) in
        trace (fst s) = [] /\ reads (fst s) = 0%nat /\ reader_thread (fst s) = PIdle
        /\ ((1 <= turns_of Main sched)%nat ->
            snd s = RRaised (AttributeError no_attribute))).
Proof.
  split; [|split].
  - intros Hb Hu. unfold main, __init__, deque_new.
    destruct (args_url args) as [|[|u us]]; [|contradiction|]; cbn [url_0 default_url];
      (destruct (Z.ltb_spec (args_buffer_size args) 0); [reflexivity|lia]).
  - intros p Hp vsc. destruct (main_instance _ _ _ _ _ Hp) as (u & Hu & Hi & Hd).
    fold vsc in Hi, Hd. unfold __init__, deque_new in Hi.
    destruct (Z.ltb_spec (args_buffer_size args) 0) as [|Hb]; [discriminate|].
    injection Hi as Hi. rewrite <- Hi. cbn [stream_url frames verbose keep_querying
      target_folder_path].
    split; [exact Hb|]. split.
    { destruct (args_url args) as [|[|u0 us]]; cbn [url_0 default_url] in Hu;
        congruence. }
    split; [reflexivity|]. split; [reflexivity|]. split; [reflexivity|].
    split; [destruct (args_target_folder args) as [[|c t]|]; reflexivity|].
    rewrite Hi. exact Hd.
  - intros vsc i m sched Hp Ht s.
    destruct (main_instance _ _ _ _ _ Hp) as (u & _ & Hi & _).
    cbn [program_instance] in Hi. unfold __init__ in Hi.
    destruct (deque_new (args_buffer_size args)) as [e|d]; [discriminate|].
    injection Hi as Hi.
    assert (Hnone : target_folder_path vsc = None).
    { rewrite <- Hi. cbn [target_folder_path].
      destruct (args_target_folder args) as [[|c t]|]; try discriminate; reflexivity. }
    set (Inv := fun (k : nat) (s : world frame * rstate) =>
      trace (fst s) = [] /\ reads (fst s) = 0%nat /\ reader_thread (fst s) = PIdle
      /\ target_folder_path (fst s) = None
      /\ match snd s with
         | RInit => (1 <= k)%nat
         | RRaised e => e = AttributeError no_attribute
         | _ => False
         end).
    assert (Hrun : Inv (1 - turns_of Main sched)%nat s).
    { subst s. apply (run_ranked i m Main Inv).
      - intros k [w pc] (A & B & C & D & E). cbn [fst snd turn] in *.
        destruct pc as [|n|n| |e]; try contradiction.
        + rewrite (record_turn_init_fails i m w D). unfold Inv; cbn [fst snd].
          cbn [set_cur trace reads reader_thread target_folder_path]. auto.
        + rewrite record_turn_over by exact I. unfold Inv; cbn [fst snd].
          cbn [set_cur trace reads reader_thread target_folder_path]. auto.
      - intros k [w pc] t' Et (A & B & C & D & E). destruct t'; [discriminate|].
        cbn [fst snd turn] in *.
        rewrite reader_turn_rest by (rewrite C; exact I). unfold Inv; cbn [fst snd].
        cbn [set_cur trace reads reader_thread target_folder_path]. auto.
      - unfold Inv; cbn [fst snd]. rewrite <- Hi at 1 2 3. cbn. auto. }
    destruct Hrun as (A & B & C & _ & E).
    split; [exact A|]. split; [exact B|]. split; [exact C|].
    intros H1. destruct (snd s) as [|n|n| |e]; try contradiction; [lia|congruence].
Qed.

(** ** Pacing, for any source and any keyboard *)

Ltac split_cases_eqn :=
  repeat match goal with
    | |- context [match ?x with _ => _ end] =>
        lazymatch x with
        | context [match _ with _ => _ end] => fail
        | context [times_of] => fail
        | _ => let E := fresh "E" in destruct x eqn:E
        end
    end.

Lemma record_turn_paced (i : Q) (m : Z) (w : world frame) (pc : rstate) :
  gaps_ok i (write_times w) ->
  match pc with
  | RInit | RLoop _ =>
      match write_times w with
      | t :: _ => t + i <= clock Main (trace w)
      | [] => True
      end
  | _ => True
  end ->
  gaps_ok i (write_times (fst (record_turn i m (w, pc))))
  /\ match snd (record_turn i m (w, pc)) with
     | RInit | RLoop _ =>
         match write_times (fst (record_turn i m (w, pc))) with
         | t :: _ => t + i <= clock Main (trace (fst (record_turn i m (w, pc))))
         | [] => True
         end
     | _ => True
     end.
Proof.
  unfold write_times.
  destruct w as [? ? [its cap] ? ? v tgt ? ? ? ? ? p ? tr].
  cbn [trace]. intros G L.
  destruct pc as [|n|n| |e]; unfold_turn; split_cases_eqn;
    cbn [fst snd trace times_of clock tid_eqb is_imwrite andb gaps_ok];
    repeat match goal with
      | H : Qle_bool _ _ = true |- _ => apply Qle_bool_iff in H
      end;
    try (split; [assumption|exact I]);
    try (split; assumption);
    try (split; [assumption|destruct (times_of is_imwrite Main tr); [exact I|lra]]);
    try (split; [split; assumption|lra]);
    try (split; [split; assumption|exact I]).
Qed.

(** X16: whatever the source delivers, whatever the keyboard reports,
    whatever the quota, the settings and the schedule, two calls of
    [cv2.imwrite] of a run of [record_live_stream_to_folder] are at least
    [interval_in_seconds] of sleep of the main thread apart. *)
Theorem writes_are_paced (i : Q) (m : Z) (sched : list tid) (w0 : world frame)
    (pc : rstate) :
  paced i w0 ->
  gaps_ok i (write_times (fst (run i m sched (w0, pc)))).
Proof.
  intros (G0 & L0).
  set (Inv := fun s : world frame * rstate =>
    gaps_ok i (write_times (fst s))
    /\ match snd s with
       | RInit | RLoop _ =>
           match write_times (fst s) with
           | t :: _ => t + i <= clock Main (trace (fst s))
           | [] => True
           end
       | _ => True
       end).
  assert (Hinv : Inv (run i m sched (w0, pc))).
  { apply (run_invariant i m Inv).
    - unfold Inv. intros [w pc1] t (G & L); cbn [fst snd] in *.
      destruct t; cbn [turn fst snd].
      + apply record_turn_paced; assumption.
      + destruct (reader_turn_main_view w) as (_ & _ & _ & _ & Ck & Ct).
        unfold write_times in *. rewrite Ct, Ck. split; assumption.
    - unfold Inv; cbn [fst snd]. split; [exact G0|]. destruct pc; auto. }
  apply Hinv.
Qed.

(** ** The count of images, for any source and any keyboard *)

Lemma _query_frame_loop_totals (fuel : nat) (n : Z) (w : world frame) :
  totals_of (trace (snd (_query_frame_loop fuel n w))) = totals_of (trace w).
Proof.
  revert n w; induction fuel as [|fuel IH]; intros n w;
    rewrite _query_frame_loop_eq;
    destruct (n <? max_sequential_fail_attempts w)%Z; try reflexivity.
  destruct (next_read w 0) as [f|]; [reflexivity|].
  destruct (Qle_bool 0 (micro_sleep_time w)); [|reflexivity].
  rewrite IH. reflexivity.
Qed.

Lemma reader_turn_totals (w : world frame) :
  totals_of (trace (reader_turn w)) = totals_of (trace w).
Proof.
  destruct (reader_thread w) as [| |f| |e] eqn:P.
  - rewrite reader_turn_rest by (rewrite P; exact I). reflexivity.
  - destruct (keep_querying w) eqn:K.
    + rewrite (reader_turn_fetch w P K).
      pose proof (_query_frame_loop_totals
                    (Z.to_nat (max_sequential_fail_attempts (set_cur Reader w))) 0
                    (set_cur Reader w)) as W.
      change (_query_frame_loop _ 0 (set_cur Reader w))
        with (_query_frame (set_cur Reader w)) in W.
      destruct (_query_frame (set_cur Reader w)) as [[f|e] w1]; cbn [fst snd] in *;
        [exact W|destruct e; exact W].
    + rewrite (reader_turn_stop w P K). reflexivity.
  - rewrite (reader_turn_append w f P). reflexivity.
  - rewrite reader_turn_rest by (rewrite P; exact I). reflexivity.
  - rewrite reader_turn_rest by (rewrite P; exact I). reflexivity.
Qed.

Lemma record_turn_counting (i : Q) (m : Z) (w : world frame) (pc : rstate)
    (c0 : Z) (T0 : list Z) :
  (0 <= Z.of_nat (images_written w) - c0)%Z ->
  (m <> (-1)%Z -> (Z.of_nat (images_written w) - c0 <= Z.max 0 m)%Z) ->
  match pc with
  | RInit => 0%Z = (Z.of_nat (images_written w) - c0)%Z
  | RLoop n | RStop n => n = (Z.of_nat (images_written w) - c0)%Z
  | _ => True
  end ->
  totals_of (trace w)
  = match pc with
    | RDone => (if verbose w then [(Z.of_nat (images_written w) - c0)%Z] else []) ++ T0
    | _ => T0
    end ->
  let s := record_turn i m (w, pc) in
  verbose (fst s) = verbose w
  /\ (0 <= Z.of_nat (images_written (fst s)) - c0)%Z
  /\ (m <> (-1)%Z -> (Z.of_nat (images_written (fst s)) - c0 <= Z.max 0 m)%Z)
  /\ match snd s with
     | RInit => 0%Z = (Z.of_nat (images_written (fst s)) - c0)%Z
     | RLoop n | RStop n => n = (Z.of_nat (images_written (fst s)) - c0)%Z
     | _ => True
     end
  /\ totals_of (trace (fst s))
     = match snd s with
       | RDone =>
           (if verbose w then [(Z.of_nat (images_written (fst s)) - c0)%Z] else []) ++ T0
       | _ => T0
       end.
Proof.
  unfold images_written.
  destruct w as [? ? [its cap] ? ? v tgt ? ? ? ? ? p ? tr].
  cbn [trace verbose]. intros H0 Hm Hn Ht.
  destruct pc as [|n|n| |e]; unfold_turn;
    try (destruct (Z.ltb_spec n m));
    destruct (Z.eqb_spec m (-1)); cbn [orb];
    split_cases_eqn;
    cbn [fst snd trace verbose count_of tid_eqb is_imwrite andb totals_of app];
    rewrite ?Nat2Z.inj_succ;
    repeat split; try assumption; try lia; try congruence.
Qed.

(** X17: whatever the source delivers, whatever the keyboard reports and
    whatever the schedule, the local count [num_images_saved] of
    [record_live_stream_to_folder] is the number of calls of [cv2.imwrite]
    that the method has made; with a quota other than -1 that number never
    exceeds the quota (0 for a negative one); and the total reported by the
    last message of the method, which is logged once, when the method returns
    and only if the instance is verbose, is that number. *)
Theorem recording_count_is_exact (i : Q) (m : Z) (sched : list tid) (w0 : world frame) :
  let s := run i m sched (w0, RInit) in
  let written := (Z.of_nat (images_written (fst s)) - Z.of_nat (images_written w0))%Z in
  (0 <= written)%Z
  /\ (m <> (-1)%Z -> (written <= Z.max 0 m)%Z)
  /\ (forall n, snd s = RLoop n \/ snd s = RStop n -> n = written)
  /\ (snd s = RDone ->
      totals_of (trace (fst s))
      = (if verbose w0 then [written] else []) ++ totals_of (trace w0))
  /\ (snd s <> RDone -> totals_of (trace (fst s)) = totals_of (trace w0)).
Proof.
  intros s written.
  set (c0 := Z.of_nat (images_written w0)) in *.
  set (Inv := fun s : world frame * rstate =>
    verbose (fst s) = verbose w0
    /\ (0 <= Z.of_nat (images_written (fst s)) - c0)%Z
    /\ (m <> (-1)%Z -> (Z.of_nat (images_written (fst s)) - c0 <= Z.max 0 m)%Z)
    /\ match snd s with
       | RInit => 0%Z = (Z.of_nat (images_written (fst s)) - c0)%Z
       | RLoop n | RStop n => n = (Z.of_nat (images_written (fst s)) - c0)%Z
       | _ => True
       end
    /\ totals_of (trace (fst s))
       = match snd s with
         | RDone =>
             (if verbose w0 then [(Z.of_nat (images_written (fst s)) - c0)%Z] else [])
             ++ totals_of (trace w0)
         | _ => totals_of (trace w0)
         end).
  assert (Hinv : Inv s).
  { subst s. apply (run_invariant i m Inv).
    - unfold Inv. intros [w pc] t (V & A & B & C & D); cbn [fst snd] in *.
      destruct t; cbn [turn fst snd].
      + rewrite <- V in D |- *.
        destruct (record_turn_counting i m w pc c0 (totals_of (trace w0)) A B C D)
          as (V' & A' & B' & C' & D').
        rewrite V'. auto.
      + destruct (reader_turn_main_view w) as ((_ & _ & _ & S4 & _) & _ & _ & Cn & _).
        unfold images_written in *. rewrite Cn, S4, reader_turn_totals. auto.
    - unfold Inv; cbn [fst snd]. subst c0. repeat split; try lia. }
  destruct Hinv as (_ & A & B & C & D). fold written in A, B, C, D.
  split; [exact A|]. split; [exact B|]. split; [|split].
  - intros n [E|E]; rewrite E in C; exact C.
  - intros E. rewrite E in D. exact D.
  - intros E. destruct (snd s); try exact D. contradiction.
Qed.

(** ** A negative interval *)

Lemma record_turn_negative_interval (i : Q) (m : Z) (w : world frame) (pc : rstate)
    (c0 : nat) (k0 : bool) :
  Qle_bool 0 i = false ->
  (images_written w = c0
   /\ match pc with
      | RInit | RLoop _ => keep_querying w = k0
      | _ => True
      end)
  \/ (images_written w = S c0
      /\ pc = RRaised (ValueError "sleep length must be non-negative")
      /\ keep_querying w = k0) ->
  let s := record_turn i m (w, pc) in
  (images_written (fst s) = c0
   /\ match snd s with
      | RInit | RLoop _ => keep_querying (fst s) = k0
      | _ => True
      end)
  \/ (images_written (fst s) = S c0
      /\ snd s = RRaised (ValueError "sleep length must be non-negative")
      /\ keep_querying (fst s) = k0).
Proof.
  unfold images_written.
  destruct w as [? ? [its cap] ? kq v tgt ? ? ? ? ? p ? tr].
  cbn [trace keep_querying]. intros Hi [(C & K)|(C & -> & K)].
  - destruct pc as [|n|n| |e]; unfold_turn; rewrite ?Hi; split_cases_eqn;
      cbn [fst snd trace keep_querying count_of tid_eqb is_imwrite andb];
      first [left; split; [assumption|first [assumption|exact I]]
            |right; split; [congruence|split; [reflexivity|assumption]]].
  - right. cbn. auto.
Qed.

(** X18: [time.sleep] refuses a negative length.  Called with a negative
    [interval_in_seconds], [record_live_stream_to_folder] writes at most one
    image, whatever the source, the keyboard, the quota and the schedule; and
    once it has written that image it has been left by [ValueError], without
    the call of [signal_stop_querying]: [keep_querying] is as it was, so that
    the reader thread is not asked to stop. *)
Theorem record_with_negative_interval (i : Q) (m : Z) (sched : list tid)
    (w0 : world frame) :
  i < 0 ->
  let s := run i m sched (w0, RInit) in
  (images_written (fst s) <= S (images_written w0))%nat
  /\ (images_written (fst s) = S (images_written w0) ->
      snd s = RRaised (ValueError "sleep length must be non-negative")
      /\ keep_querying (fst s) = keep_querying w0).
Proof.
  intros Hi s.
  assert (Hb : Qle_bool 0 i = false).
  { destruct (Qle_bool 0 i) eqn:E; [|reflexivity]. apply Qle_bool_iff in E. lra. }
  set (c0 := images_written w0). set (k0 := keep_querying w0).
  set (Inv := fun s : world frame * rstate =>
    (images_written (fst s) = c0
     /\ match snd s with
        | RInit | RLoop _ => keep_querying (fst s) = k0
        | _ => True
        end)
    \/ (images_written (fst s) = S c0
        /\ snd s = RRaised (ValueError "sleep length must be non-negative")
        /\ keep_querying (fst s) = k0)).
  assert (Hinv : Inv s).
  { subst s. apply (run_invariant i m Inv).
    - unfold Inv. intros [w pc] t H; cbn [fst snd] in *.
      destruct t; cbn [turn fst snd].
      + apply (record_turn_negative_interval i m w pc c0 k0 Hb H).
      + destruct (reader_turn_main_view w) as (_ & K & _ & Cn & _).
        unfold images_written in *. rewrite Cn, K. exact H.
    - unfold Inv; cbn [fst snd]. left. auto. }
  destruct Hinv as [(C & _)|(C & P & K)].
  - split; [lia|]. intros E. lia.
  - split; [lia|]. intros _. split; assumption.
Qed.

(** ** The buffer holds the latest frames *)

Lemma reader_turn_window (w : world frame) :
  (exists gone, rev (reads_of (trace w))
                = gone ++ items (frames w) ++ in_flight (reader_thread w)) ->
  exists gone, rev (reads_of (trace (reader_turn w)))
               = gone ++ items (frames (reader_turn w))
                 ++ in_flight (reader_thread (reader_turn w)).
Proof.
  intros [gone H].
  destruct (reader_thread w) as [| |f| |e] eqn:P.
  - rewrite reader_turn_rest by (rewrite P; exact I).
    cbn [set_cur trace frames reader_thread]. rewrite P. eauto.
  - destruct (keep_querying w) eqn:K.
    + rewrite (reader_turn_fetch w P K).
      destruct (_query_frame_touches (set_cur Reader w)) as (n & tr & E).
      assert (F : frames (snd (_query_frame (set_cur Reader w))) = frames w)
        by (rewrite E; reflexivity).
      destruct (_query_frame_frames (set_cur Reader w)) as (R & _ & _).
      destruct (_query_frame (set_cur Reader w)) as [[f|e] w1]; cbn [fst snd] in *.
      * exists gone.
        cbn [set_reader_thread trace frames reader_thread in_flight].
        rewrite R, F. cbn [set_cur trace rev]. rewrite H.
        cbn [in_flight]. rewrite app_nil_r, app_assoc. reflexivity.
      * assert (Hsame : rev (reads_of (trace w1)) = gone ++ items (frames w1) ++ []).
        { rewrite R, F. exact H. }
        exists gone. destruct e; exact Hsame.
    + rewrite (reader_turn_stop w P K). exists gone. exact H.
  - rewrite (reader_turn_append w f P).
    cbn [set_reader_thread set_frames set_cur trace frames reader_thread in_flight] in *.
    unfold deque_append; cbn [items].
    destruct (maxlen (frames w) <? List.length (items (frames w) ++ [f]))%nat.
    + destruct (items (frames w)) as [|x l]; cbn [app tl] in *.
      * exists (gone ++ [f]). rewrite H, !app_nil_r. reflexivity.
      * exists (gone ++ [x]). rewrite H, app_nil_r, <- app_assoc. reflexivity.
    + exists gone. rewrite H, app_nil_r. reflexivity.
  - rewrite reader_turn_rest by (rewrite P; exact I).
    cbn [set_cur trace frames reader_thread]. rewrite P. eauto.
  - rewrite reader_turn_rest by (rewrite P; exact I).
    cbn [set_cur trace frames reader_thread]. rewrite P. eauto.
Qed.

Lemma record_turn_window (i : Q) (m : Z) (w : world frame) (pc : rstate) :
  (pc = RInit -> in_flight (reader_thread w) = []) ->
  (exists gone, rev (reads_of (trace w))
                = gone ++ items (frames w) ++ in_flight (reader_thread w)) ->
  exists gone, rev (reads_of (trace (fst (record_turn i m (w, pc)))))
               = gone ++ items (frames (fst (record_turn i m (w, pc))))
                 ++ in_flight (reader_thread (fst (record_turn i m (w, pc)))).
Proof.
  destruct w as [? ? [its cap] ? ? v tgt ? ? ? ? ? p ? tr].
  cbn [trace frames items reader_thread]. intros Hp [gone H].
  destruct pc as [|n|n| |e].
  - pose proof (Hp eq_refl) as Hp'. rewrite Hp' in H. unfold_turn. split_cases;
      cbn [fst snd trace frames items reader_thread reads_of in_flight];
      rewrite ?Hp'; exists gone; exact H.
  - destruct its as [|x l]; unfold_turn; split_cases;
      cbn [fst snd trace frames items reader_thread reads_of];
      first [exists gone; exact H
            |exists (gone ++ [x]); rewrite <- app_assoc; exact H].
  - unfold_turn. split_cases;
      cbn [fst snd trace frames items reader_thread reads_of];
      exists gone; exact H.
  - exists gone; exact H.
  - exists gone; exact H.
Qed.

(** X19: in a run of the recording program, the frames in the buffer,
    followed by the frame that the reader thread holds, are always the latest
    frames read from the source, without a gap: frames leave the buffer at
    its old end only (written by the main thread, or dropped by an [append]
    to a full buffer), whatever the source, the quota and the schedule. *)
Theorem buffer_holds_latest_frames (i : Q) (m : Z) (sched : list tid) (w0 : world frame) :
  reader_thread w0 = PIdle ->
  (exists gone, rev (reads_of (trace w0)) = gone ++ items (frames w0)) ->
  let w := fst (run i m sched (w0, RInit)) in
  exists gone,
    rev (reads_of (trace w)) = gone ++ items (frames w) ++ in_flight (reader_thread w).
Proof.
  intros Hp [gone0 H0] w.
  set (Inv := fun s : world frame * rstate =>
    (snd s = RInit -> reader_thread (fst s) = PIdle)
    /\ exists gone, rev (reads_of (trace (fst s)))
                    = gone ++ items (frames (fst s))
                      ++ in_flight (reader_thread (fst s))).
  assert (Hinv : Inv (run i m sched (w0, RInit))).
  { apply (run_invariant i m Inv).
    - unfold Inv. intros [w1 pc] t (A & B); cbn [fst snd] in *.
      destruct t; cbn [turn fst snd].
      + split; [intros E; exfalso; revert E; apply record_turn_started|].
        apply record_turn_window; [|exact B].
        intros E. rewrite (A E). reflexivity.
      + split; [|apply reader_turn_window; exact B].
        intros E. specialize (A E).
        rewrite reader_turn_rest by (rewrite A; exact I).
        cbn [set_cur reader_thread]. exact A.
    - unfold Inv; cbn [fst snd]. split; [intros _; exact Hp|].
      exists gone0. rewrite Hp. cbn [in_flight]. rewrite app_nil_r. exact H0. }
  destruct Hinv as (_ & H). exact H.
Qed.

End MoreProperties.

(** * More of the code: the theorems on concrete instances *)

(** An instance with room for three frames, after a few turns and calls. *)
Lemma buffer_never_overflows_witness :
  let w := example_instance counting_source no_key None in
  let ops := [OpRecordTurn 1 5 RInit; OpReaderTurn; OpReaderTurn; OpReaderTurn;
              OpReaderTurn; OpReaderTurn; OpReaderTurn; OpReaderTurn; OpReaderTurn;
              OpGetFrame Main true; OpReaderTurn; OpReaderTurn] in
  (List.length (items (frames (apply_ops ops w))) <= 3)%nat.
Proof.
  intros w ops.
  exact (proj2 (buffer_never_overflows ops w ltac:(simpl; lia))).
Defined.

(** A source that is absent three times: a fetch with five attempts gets the
    frame, a fetch with three attempts fails and leaves it. *)
Lemma _query_frame_retries_witness :
  let w5 := mkWorld "camera" 5 (mkDeque [] 3) (1 # 100) true true (Some "capture"%string)
              late_source 0 0 no_key 0 PIdle Main [] in
  let w3 := example_instance late_source no_key None in
  fst (_query_frame w5) = Ok 3%nat
  /\ fst (_query_frame w3) = Raise (IOError no_output)
  /\ next_read (snd (_query_frame w3)) 0 = Some 3%nat.
Proof.
  intros w5 w3.
  assert (H5 : forall i, (i < 3)%nat -> next_read w5 i = None).
  { intros i Hi. do 3 (destruct i as [|i]; [reflexivity|]). lia. }
  assert (H3 : forall i, (i < 3)%nat -> next_read w3 i = None).
  { intros i Hi. do 3 (destruct i as [|i]; [reflexivity|]). lia. }
  pose proof (_query_frame_retries w5 3 3%nat Qle_0_centi H5 ltac:(reflexivity))
    as (A & _).
  pose proof (_query_frame_retries w3 3 3%nat Qle_0_centi H3 ltac:(reflexivity))
    as (_ & B).
  destruct (A ltac:(simpl; lia)) as (A1 & _).
  destruct (B ltac:(simpl; lia)) as (B1 & _ & B3).
  split; [rewrite A1; reflexivity|]. split; [rewrite B1; reflexivity|exact B3].
Defined.


(** The constructor called with [buffer_size=0]. *)
Lemma nothing_recorded_without_buffer_witness :
  let w0 := mkWorld "camera" 3 (mkDeque [] 0) (1 # 100) true true (Some "capture"%string)
              counting_source 0 0 no_key 0 PIdle Main [] in
  let s := run 1 5 (rounds 4) (w0, RInit) in
  writes_of (trace (fst s)) = [] /\ snd s = RLoop 0.
Proof.
  intros w0 s.
  pose proof (nothing_recorded_without_buffer counting_source no_key "capture" "camera"
                None true (1 # 100) 3 1 5 w0 (rounds 4) ltac:(reflexivity))
    as (_ & A & _).
  split; [exact A|reflexivity].
Defined.

(** Three rounds, then five more, of the recording program without a quota. *)
Lemma record_without_quota_witness :
  let s := run 1 (-1) (rounds 3) (example_instance counting_source no_key None, RInit) in
  keep_querying (fst s) = true
  /\ (images_written (fst s) + 4
      <= images_written
           (fst (run 1 (-1) (rounds 3 ++ rounds 5)
                   (example_instance counting_source no_key None, RInit))))%nat.
Proof.
  intros s.
  pose proof (record_without_quota counting_source no_key "capture" "camera" None 3 true
                (1 # 100) 3 1 (example_instance counting_source no_key None)
                (rounds 3)
                Qle_0_1 Qle_0_centi ltac:(lia) ltac:(lia)
                ltac:(reflexivity) ltac:(intros k; discriminate)
                ltac:(intros k; reflexivity)
                (example_instance_built counting_source no_key None))
    as (_ & K & _ & _ & H).
  split; [exact K|exact (H 4%nat)].
Defined.

(** [q] is held down while the recording loop has a frame to write. *)
Lemma record_stops_on_quit_key_witness :
  let w := fst (run 1 5 [Main; Reader; Reader]
                  (example_instance counting_source q_key None, RInit)) in
  let s := run 1 5 [Main; Main] (w, RLoop 0) in
  snd s = RDone /\ keep_querying (fst s) = false
  /\ (images_written (fst s) <= 1)%nat.
Proof.
  intros w s.
  pose proof (record_stops_on_quit_key 1 5 0 w "capture"
                ltac:(reflexivity) ltac:(reflexivity) Qle_0_1 Qle_0_centi
                ltac:(reflexivity)) as (_ & H).
  destruct (H [Main; Main]) as (A & _ & C & D).
  assert (E : snd s = RDone) by (apply D; vm_compute; lia).
  split; [exact E|]. split; [exact (C E)|exact A].
Defined.

(** The flag is cleared while the reader thread is inside a fetch: the
    fetch is carried on, its frame is appended, and the thread returns. *)
Lemma reader_stops_after_signal_witness :
  let w := fst (fst (fine_run 1 0 [Main; Reader; Main; Main]
                       (example_instance counting_source no_key None, RInit, QIdle))) in
  let s := fine_run 1 0 [Reader; Reader; Reader; Reader; Reader; Reader]
             (w, RDone, QAttempt 0) in
  keep_querying w = false /\ reads w = 0%nat
  /\ snd s = QDone
  /\ reads (fst (fst s)) = 1%nat
  /\ items (frames (fst (fst s))) = [0%nat]
  /\ releases (fst (fst s)) = S (releases w).
Proof.
  intros w s.
  pose proof (reader_stops_after_signal 1 0 w RDone (QAttempt 0)
                [Reader; Reader; Reader; Reader; Reader; Reader]
                ltac:(vm_compute; reflexivity) ltac:(discriminate) I)
    as (_ & _ & C & _).
  assert (E : snd s = QDone) by (vm_compute; reflexivity).
  split; [vm_compute; reflexivity|]. split; [vm_compute; reflexivity|].
  split; [exact E|].
  split; [vm_compute; reflexivity|]. split; [vm_compute; reflexivity|].
  exact (C E).
Defined.

(** The source never gives a frame: the reader thread has ended and the
    recording loop goes on. *)
Lemma recording_starves_after_reader_ends_witness :
  let w := fst (run 1 5 [Main; Reader]
                  (example_instance silent_source no_key None, RInit)) in
  let s := run 1 5 (rounds 3) (w, RLoop 0) in
  reader_thread w = PRaised (SystemExit 1)
  /\ snd s = RLoop 0 /\ images_written (fst s) = 0%nat.
Proof.
  intros w s.
  pose proof (recording_starves_after_reader_ends 1 5 0 w "capture" (rounds 3)
                I ltac:(reflexivity) ltac:(reflexivity) Qle_0_centi
                ltac:(intros k; reflexivity) ltac:(reflexivity)) as (A & B & _).
  split; [reflexivity|]. split; [exact A|exact B].
Defined.

(** Three frames are shown; [q] is pressed while the third is on screen. *)
Lemma show_runs_until_quit_witness :
  let keys := fun k : nat => if (k <? 2)%nat then (-1)%Z else 113%Z in
  let s := show_turns 5 (example_instance counting_source keys None, SInit) in
  snd s = SDone
  /\ shows_of (trace (fst s)) = [2; 1; 0]%nat
  /\ keep_querying (fst s) = false
  /\ releases (fst s) = 0%nat.
Proof.
  intros keys s.
  pose proof (show_runs_until_quit [0; 1]%nat 2%nat
                (example_instance counting_source keys None)
                ltac:(reflexivity) ltac:(simpl; lia)) as H.
  destruct H as (_ & A & B & _ & K & R & _).
  - intros j g Hj. do 3 (destruct j as [|j]; [exact Hj|]). destruct j; discriminate Hj.
  - intros j Hj. do 2 (destruct j as [|j]; [reflexivity|]). simpl in Hj. lia.
  - reflexivity.
  - split; [exact A|]. split; [exact B|]. split; [exact K|exact R].
Defined.

(** A source that never gives a frame, in the display program. *)
Lemma exhaustion_is_reported_once_witness :
  let w := example_instance silent_source no_key None in
  snd (show_turn (w, SLoop)) = SRaised (SystemExit 1)
  /\ shows_of (trace (fst (show_turn (w, SLoop)))) = [].
Proof.
  intros w.
  pose proof (exhaustion_is_reported_once w Qle_0_centi ltac:(intros j Hj; reflexivity))
    as (A & _).
  rewrite A. split; reflexivity.
Defined.

(** The recording program started with the default folder, which exists
    once [mkdir] has been called; the root logger had no handler. *)
Lemma programs_set_up_logging_witness :
  let s := run 1 5 (rounds 3) (example_instance counting_source no_key None, RInit) in
  map h_kind (root_handlers (logging_after (fun _ => true) (trace (fst s))
                               (mkLogging 30 [] 0)))
  = [StreamHandler; FileHandler "capture/output.log" "a"].
Proof.
  intros s.
  pose proof (programs_set_up_logging (frame:=nat) (fun _ => true) (mkLogging 30 [] 0))
    as (A & _).
  destruct (A 1 5%Z (rounds 3) (example_instance counting_source no_key None)
              "capture"%string ltac:(reflexivity) ltac:(discriminate) ltac:(reflexivity)
              ltac:(vm_compute; discriminate)) as (_ & B).
  exact B.
Defined.

(** The script called with [-t out] and nothing else. *)
Lemma main_options_witness :
  let args := mkNamespace UrlDefault false 600 (Some "out"%string) false 60 (-1) in
  let vsc := mkWorld "h" 20 (mkDeque [] 600) default_micro_sleep_time true true None
               counting_source 0 0 no_key 0 PIdle Main [] in
  main counting_source no_key "capture" args = inr (Recording vsc 60 (-1))
  /\ snd (run 60 (-1) [Reader; Main] (vsc, RInit)) = RRaised (AttributeError no_attribute).
Proof.
  intros args vsc.
  pose proof (main_options counting_source no_key "capture" args) as (_ & _ & C).
  destruct (C vsc 60 (-1)%Z [Reader; Main] ltac:(reflexivity) ltac:(reflexivity))
    as (_ & _ & _ & D).
  split; [reflexivity|]. apply D. vm_compute. lia.
Defined.

(** Eight rounds of the recording program, one second between two images. *)
Lemma writes_are_paced_witness :
  gaps_ok 1 (write_times
               (fst (run 1 5 (rounds 8)
                       (example_instance counting_source no_key None, RInit)))).
Proof.
  apply (writes_are_paced 1 5 (rounds 8) (example_instance counting_source no_key None)
           RInit).
  vm_compute. split; exact I.
Defined.

(** The recording program called with an interval of -1 second. *)
Lemma record_with_negative_interval_witness :
  let s := run (-1 # 1) 5 (rounds 4)
             (example_instance counting_source no_key None, RInit) in
  images_written (fst s) = 1%nat
  /\ snd s = RRaised (ValueError "sleep length must be non-negative")
  /\ keep_querying (fst s) = true.
Proof.
  intros s.
  pose proof (record_with_negative_interval (-1 # 1) 5 (rounds 4)
                (example_instance counting_source no_key None) ltac:(reflexivity))
    as (_ & B).
  assert (E : images_written (fst s) = 1%nat) by reflexivity.
  destruct (B E) as (P & K). split; [exact E|]. split; [exact P|exact K].
Defined.

(** The reader thread fills the buffer of three frames and goes on; the main
    thread then takes a frame. *)
Lemma buffer_holds_latest_frames_witness :
  let w := fst (run 1 5 (Main :: repeat Reader 9 ++ [Main])
                  (example_instance counting_source no_key None, RInit)) in
  items (frames w) = [2; 3]%nat
  /\ exists gone,
       rev (reads_of (trace w)) = gone ++ items (frames w) ++ in_flight (reader_thread w).
Proof.
  intros w. split; [reflexivity|].
  apply (buffer_holds_latest_frames 1 5 (Main :: repeat Reader 9 ++ [Main])
           (example_instance counting_source no_key None)).
  - reflexivity.
  - exists []. reflexivity.
Defined.
